(** * RecognizeStream: the speech-to-text WebSocket duplex stream

    A shallow embedding of [RecognizeStream] (lib/recognize-stream.ts of the
    Watson Node SDK): the option handling of [initialize], the socket
    handlers, the push side ([_write], [afterSend], [finish], [stop]), the
    pull side (the [push] calls of [socket.onmessage]), the URL of the
    socket and the deprecation notices of the constructor.

    JavaScript objects used as dictionaries are finite maps from property
    names to values; the stream object is a record that the handlers
    transform; the wire, the readable side and the event emitter are
    append-only logs of that record.  A handler can throw: [initialize]
    on a [url] option that is not a string, the emitter on an 'error'
    that nobody listens for, the socket on a send while it is not
    open. *)

From stdpp Require Import gmap strings list fin_maps relations.

Open Scope string_scope.
Open Scope list_scope.

(** ** JavaScript values *)

(** The values that option fields and parsed JSON frames hold.  Numbers are
    represented by integers: the code only ever tests them for truthiness.
    [VObj] is a parsed object literal, as an association list in source
    order. *)
#[warnings="-register-all"]
Inductive value : Type :=
  | VUndefined
  | VNull
  | VBool (b : bool)
  | VNum (n : Z)
  | VStr (s : string)
  | VArr (items : list value)
  | VObj (fields : list (string * value)).

(** [!!v]: everything is truthy except [undefined], [null], [false], [0]
    and the empty string. *)
Definition truthy (v : value) : bool :=
  match v with
  | VUndefined | VNull => false
  | VBool b => b
  | VNum n => negb (n =? 0)%Z
  | VStr s => negb (String.eqb s "")
  | VArr _ | VObj _ => true
  end.

Definition is_undefined (v : value) : bool :=
  match v with VUndefined => true | _ => false end.

(** [o[k]] on an options object: a missing property reads as [undefined]. *)
Definition get (o : gmap string value) (k : string) : value :=
  default VUndefined (o !! k).

(** [k in o]. *)
Definition has (o : gmap string value) (k : string) : bool :=
  bool_decide (is_Some (o !! k)).

(** ** The helpers from npm: [object.pick] and [extend] *)

(** [pick(obj, keys)]: a fresh object holding [obj[key]] for every [key] of
    [keys] with [key in obj]. *)
Fixpoint pick (obj : gmap string value) (keys : list string) : gmap string value :=
  match keys with
  | [] => ∅
  | key :: rest =>
      match obj !! key with
      | Some v => <[key := v]> (pick obj rest)
      | None => pick obj rest
      end
  end.

(** [extend(target, source)], the shallow form: every property of [source]
    whose value is not [undefined] is copied onto [target]. *)
Definition extend (target source : gmap string value) : gmap string value :=
  filter (fun kv => is_undefined kv.2 = false) source ∪ target.

(** ** The allow-lists *)

Definition OPENING_MESSAGE_PARAMS_ALLOWED : list string :=
  [ "action";
    "customization_weight";
    "processing_metrics";
    "processing_metrics_interval";
    "audio_metrics";
    "inactivity_timeout";
    "timestamps";
    "word_confidence";
    "content-type";
    "interim_results";
    "keywords";
    "keywords_threshold";
    "max_alternatives";
    "word_alternatives_threshold";
    "profanity_filter";
    "smart_formatting";
    "speaker_labels";
    "grammar_name";
    "redaction" ].

Definition QUERY_PARAMS_ALLOWED : list string :=
  [ "model";
    "X-Watson-Learning-Opt-Out";
    "watson-token";
    "language_customization_id";
    "customization_id";
    "acoustic_customization_id";
    "access_token";
    "base_model_version";
    "x-watson-metadata" ].

(** ** [initialize]: the option handling *)

(** The condition of a deprecated-name fallback,
    [options[legacy] && !options[modern]]. *)
Definition fires (legacy modern : string) (o : gmap string value) : bool :=
  truthy (get o legacy) && negb (truthy (get o modern)).

(** [if (options[legacy] && !options[modern]) options[modern] = options[legacy]]. *)
Definition fallback (legacy modern : string) (o : gmap string value) : gmap string value :=
  if fires legacy modern o
  then <[modern := get o legacy]> o
  else o.

(** The compatibility code for [customization_id], which also deletes the
    deprecated property. *)
Definition fallback_customization_id (o : gmap string value) : gmap string value :=
  if fires "customization_id" "language_customization_id" o
  then delete "customization_id" (<["language_customization_id" := get o "customization_id"]> o)
  else o.

(** The four fallbacks, in the order [initialize] applies them. *)
Definition normalize_options (o : gmap string value) : gmap string value :=
  fallback_customization_id
    (fallback "X-WDC-PL-OPT-OUT" "X-Watson-Learning-Opt-Out"
       (fallback "content_type" "content-type"
          (fallback "token" "watson-token" o))).

Definition DEFAULT_MODEL : value := VStr "en-US_BroadbandModel".

(** [queryParams], computed from the options after the fallbacks. *)
Definition queryParams (o : gmap string value) : gmap string value :=
  extend
    (if has o "language_customization_id"
     then pick o QUERY_PARAMS_ALLOWED
     else {[ "model" := DEFAULT_MODEL ]})
    (pick o QUERY_PARAMS_ALLOWED).

(** [openingMessage], computed from the options after the fallbacks. *)
Definition openingMessage (o : gmap string value) : gmap string value :=
  <["action" := VStr "start"]> (pick o OPENING_MESSAGE_PARAMS_ALLOWED).

Definition closingMessage : gmap string value := {[ "action" := VStr "stop" ]}.

(** ** Property access on parsed frames *)

Fixpoint assoc (k : string) (fields : list (string * value)) : value :=
  match fields with
  | [] => VUndefined
  | (k', v) :: rest => if String.eqb k k' then v else assoc k rest
  end.

(** [v.k] for one of the property names the handlers read ([error],
    [state], [results], [final], [alternatives], [transcript]): [None] is
    the TypeError of reading a property of [null] or [undefined]; arrays
    and primitives have no such property. *)
Definition prop (v : value) (k : string) : option value :=
  match v with
  | VUndefined | VNull => None
  | VObj fields => Some (assoc k fields)
  | _ => Some VUndefined
  end.

(** [v[0]]: the first element of an array, the first character of a
    string, the property ["0"] of an object. *)
Definition index0 (v : value) : option value :=
  match v with
  | VUndefined | VNull => None
  | VArr items => Some (hd VUndefined items)
  | VStr (String a _) => Some (VStr (String a EmptyString))
  | VObj fields => Some (assoc "0" fields)
  | _ => Some VUndefined
  end.

Definition is_listening (v : value) : bool :=
  match v with VStr s => String.eqb s "listening" | _ => false end.

(** ** The transport and the stream object *)

Definition chunk : Type := list Byte.byte.

(** [socket.readyState] of the WebSocket API. *)
Inductive ready_state : Type := CONNECTING | OPEN | CLOSING | CLOSED.

(** The W3C socket made by [initialize], with what its handlers close
    over: the query parameters that went into the URL and the opening
    message that [onopen] sends. *)
Record websocket : Type := {
  readyState : ready_state;
  bufferedAmount : N;
  ws_query : gmap string value;
  ws_opening : gmap string value
}.

(** What [socket.send] is called with: the object that [sendJSON]
    stringifies, or a binary chunk. *)
Inductive wire : Type :=
  | Text (msg : gmap string value)
  | Binary (c : chunk).

(** An inbound frame, by what [onmessage] can tell about it:
    [frame.data] is not a string, it is a string that [JSON.parse]
    rejects, or it parses to [data]. *)
Inductive frame : Type :=
  | FBinary
  | FMalformed
  | FJson (data : value).

Inductive error_kind : Type :=
  | WEBSOCKET_CONNECTION_ERROR
  | ERROR_UNRECOGNIZED_FORMAT
  | UnexpectedBinaryData
  | InvalidJSON
  | ServiceError (msg : value)
  | TokenError
  | WriteAfterEnd.

(** The events the stream emits. *)
Inductive emission : Type :=
  | EvError (e : error_kind)
  | EvOpen
  | EvClose (code : Z) (reason : string)
  | EvListening
  | EvStop
  | EvMessage (f : frame)
  | EvSendJSON (msg : gmap string value)
  | EvSendData (c : chunk).

(** The two listeners the class registers with [this.once('open', ...)]. *)
Inductive open_listener : Type :=
  | SendFirstChunk (c : chunk)   (* in _write: sendData(chunk); afterSend(callback) *)
  | SendStop.                    (* in finish: sendJSON(closingMessage) *)

(** [_writableState] of the Writable half (Node's stream module): the
    chunk handed to [_write] stays in flight until its callback runs, and
    chunks written meanwhile wait in [buffer]. *)
Record writable_state : Type := {
  highWaterMark : N;
  writing : bool;
  ending : bool;
  buffer : list chunk;
  finish_emitted : bool
}.

Record stream : Type := {
  options : gmap string value;
  listening : bool;
  initialized : bool;
  finished : bool;
  socket : option websocket;
  _writableState : writable_state;
  once_open : list open_listener;
  on_finish : bool;                (* self.on('finish', self.finish.bind(self)) *)
  on_error : bool;                 (* somebody has called stream.on('error', ...) *)
  awaiting_token : option chunk;   (* token_manager.getToken has not called back *)
  timer : bool;                    (* setTimeout(this.afterSend.bind(this, next), 10) *)
  tick : bool;                     (* process.nextTick(next) *)
  sent : list wire;                (* the calls of socket.send that went through *)
  pushed : list value;             (* the calls of this.push; null ends the output *)
  emitted : list emission;
  uncaught : nat                   (* exceptions that left a handler *)
}.

(** Field updates ([this.x = v]). *)
Definition set_options (v : gmap string value) (s : stream) : stream :=
  {| options := v; listening := listening s; initialized := initialized s;
     finished := finished s; socket := socket s; _writableState := _writableState s;
     once_open := once_open s; on_finish := on_finish s; on_error := on_error s;
     awaiting_token := awaiting_token s; timer := timer s; tick := tick s;
     sent := sent s; pushed := pushed s; emitted := emitted s;
     uncaught := uncaught s |}.

Definition set_listening (v : bool) (s : stream) : stream :=
  {| options := options s; listening := v; initialized := initialized s;
     finished := finished s; socket := socket s; _writableState := _writableState s;
     once_open := once_open s; on_finish := on_finish s; on_error := on_error s;
     awaiting_token := awaiting_token s; timer := timer s; tick := tick s;
     sent := sent s; pushed := pushed s; emitted := emitted s;
     uncaught := uncaught s |}.

Definition set_initialized (v : bool) (s : stream) : stream :=
  {| options := options s; listening := listening s; initialized := v;
     finished := finished s; socket := socket s; _writableState := _writableState s;
     once_open := once_open s; on_finish := on_finish s; on_error := on_error s;
     awaiting_token := awaiting_token s; timer := timer s; tick := tick s;
     sent := sent s; pushed := pushed s; emitted := emitted s;
     uncaught := uncaught s |}.

Definition set_finished (v : bool) (s : stream) : stream :=
  {| options := options s; listening := listening s; initialized := initialized s;
     finished := v; socket := socket s; _writableState := _writableState s;
     once_open := once_open s; on_finish := on_finish s; on_error := on_error s;
     awaiting_token := awaiting_token s; timer := timer s; tick := tick s;
     sent := sent s; pushed := pushed s; emitted := emitted s;
     uncaught := uncaught s |}.

Definition set_socket (v : option websocket) (s : stream) : stream :=
  {| options := options s; listening := listening s; initialized := initialized s;
     finished := finished s; socket := v; _writableState := _writableState s;
     once_open := once_open s; on_finish := on_finish s; on_error := on_error s;
     awaiting_token := awaiting_token s; timer := timer s; tick := tick s;
     sent := sent s; pushed := pushed s; emitted := emitted s;
     uncaught := uncaught s |}.

Definition set_writableState (v : writable_state) (s : stream) : stream :=
  {| options := options s; listening := listening s; initialized := initialized s;
     finished := finished s; socket := socket s; _writableState := v;
     once_open := once_open s; on_finish := on_finish s; on_error := on_error s;
     awaiting_token := awaiting_token s; timer := timer s; tick := tick s;
     sent := sent s; pushed := pushed s; emitted := emitted s;
     uncaught := uncaught s |}.

Definition set_once_open (v : list open_listener) (s : stream) : stream :=
  {| options := options s; listening := listening s; initialized := initialized s;
     finished := finished s; socket := socket s; _writableState := _writableState s;
     once_open := v; on_finish := on_finish s; on_error := on_error s;
     awaiting_token := awaiting_token s; timer := timer s; tick := tick s;
     sent := sent s; pushed := pushed s; emitted := emitted s;
     uncaught := uncaught s |}.

Definition set_on_finish (v : bool) (s : stream) : stream :=
  {| options := options s; listening := listening s; initialized := initialized s;
     finished := finished s; socket := socket s; _writableState := _writableState s;
     once_open := once_open s; on_finish := v; on_error := on_error s;
     awaiting_token := awaiting_token s; timer := timer s; tick := tick s;
     sent := sent s; pushed := pushed s; emitted := emitted s;
     uncaught := uncaught s |}.

Definition set_on_error (v : bool) (s : stream) : stream :=
  {| options := options s; listening := listening s; initialized := initialized s;
     finished := finished s; socket := socket s; _writableState := _writableState s;
     once_open := once_open s; on_finish := on_finish s; on_error := v;
     awaiting_token := awaiting_token s; timer := timer s; tick := tick s;
     sent := sent s; pushed := pushed s; emitted := emitted s;
     uncaught := uncaught s |}.

Definition set_awaiting_token (v : option chunk) (s : stream) : stream :=
  {| options := options s; listening := listening s; initialized := initialized s;
     finished := finished s; socket := socket s; _writableState := _writableState s;
     once_open := once_open s; on_finish := on_finish s; on_error := on_error s;
     awaiting_token := v; timer := timer s; tick := tick s; sent := sent s;
     pushed := pushed s; emitted := emitted s; uncaught := uncaught s |}.

Definition set_timer (v : bool) (s : stream) : stream :=
  {| options := options s; listening := listening s; initialized := initialized s;
     finished := finished s; socket := socket s; _writableState := _writableState s;
     once_open := once_open s; on_finish := on_finish s; on_error := on_error s;
     awaiting_token := awaiting_token s; timer := v; tick := tick s; sent := sent s;
     pushed := pushed s; emitted := emitted s; uncaught := uncaught s |}.

Definition set_tick (v : bool) (s : stream) : stream :=
  {| options := options s; listening := listening s; initialized := initialized s;
     finished := finished s; socket := socket s; _writableState := _writableState s;
     once_open := once_open s; on_finish := on_finish s; on_error := on_error s;
     awaiting_token := awaiting_token s; timer := timer s; tick := v; sent := sent s;
     pushed := pushed s; emitted := emitted s; uncaught := uncaught s |}.

Definition set_sent (v : list wire) (s : stream) : stream :=
  {| options := options s; listening := listening s; initialized := initialized s;
     finished := finished s; socket := socket s; _writableState := _writableState s;
     once_open := once_open s; on_finish := on_finish s; on_error := on_error s;
     awaiting_token := awaiting_token s; timer := timer s; tick := tick s; sent := v;
     pushed := pushed s; emitted := emitted s; uncaught := uncaught s |}.

Definition set_pushed (v : list value) (s : stream) : stream :=
  {| options := options s; listening := listening s; initialized := initialized s;
     finished := finished s; socket := socket s; _writableState := _writableState s;
     once_open := once_open s; on_finish := on_finish s; on_error := on_error s;
     awaiting_token := awaiting_token s; timer := timer s; tick := tick s;
     sent := sent s; pushed := v; emitted := emitted s; uncaught := uncaught s |}.

Definition set_emitted (v : list emission) (s : stream) : stream :=
  {| options := options s; listening := listening s; initialized := initialized s;
     finished := finished s; socket := socket s; _writableState := _writableState s;
     once_open := once_open s; on_finish := on_finish s; on_error := on_error s;
     awaiting_token := awaiting_token s; timer := timer s; tick := tick s;
     sent := sent s; pushed := pushed s; emitted := v; uncaught := uncaught s |}.

Definition set_uncaught (v : nat) (s : stream) : stream :=
  {| options := options s; listening := listening s; initialized := initialized s;
     finished := finished s; socket := socket s; _writableState := _writableState s;
     once_open := once_open s; on_finish := on_finish s; on_error := on_error s;
     awaiting_token := awaiting_token s; timer := timer s; tick := tick s;
     sent := sent s; pushed := pushed s; emitted := emitted s; uncaught := v |}.

Definition set_writing (v : bool) (s : stream) : stream :=
  set_writableState
    {| highWaterMark := highWaterMark (_writableState s); writing := v;
       ending := ending (_writableState s); buffer := buffer (_writableState s);
       finish_emitted := finish_emitted (_writableState s) |} s.

Definition set_ending (v : bool) (s : stream) : stream :=
  set_writableState
    {| highWaterMark := highWaterMark (_writableState s);
       writing := writing (_writableState s); ending := v;
       buffer := buffer (_writableState s);
       finish_emitted := finish_emitted (_writableState s) |} s.

Definition set_buffer (v : list chunk) (s : stream) : stream :=
  set_writableState
    {| highWaterMark := highWaterMark (_writableState s);
       writing := writing (_writableState s); ending := ending (_writableState s);
       buffer := v; finish_emitted := finish_emitted (_writableState s) |} s.

Definition set_finish_emitted (v : bool) (s : stream) : stream :=
  set_writableState
    {| highWaterMark := highWaterMark (_writableState s);
       writing := writing (_writableState s); ending := ending (_writableState s);
       buffer := buffer (_writableState s); finish_emitted := v |} s.

(** ** Handlers

    A handler either runs to its end or throws; what it did before the
    throw stays done. *)
Inductive outcome : Type :=
  | Normal (s : stream)
  | Threw (s : stream).

Definition and_then (o : outcome) (k : stream -> outcome) : outcome :=
  match o with
  | Normal s => k s
  | Threw s => Threw s
  end.

Notation "o >>> k" := (and_then o k) (at level 61, left associativity).

Definition state_of (o : outcome) : stream :=
  match o with Normal s | Threw s => s end.

(** An exception that leaves a handler is counted; the stream object stays
    as the handler left it. *)
Definition land (o : outcome) : stream :=
  match o with
  | Normal s => s
  | Threw s => set_uncaught (S (uncaught s)) s
  end.

Definition emit (e : emission) (s : stream) : stream :=
  set_emitted (emitted s ++ [e]) s.

(** [this.emit('error', err)]: Node's emitter throws the error instead of
    delivering it when nobody listens for 'error'; what follows the call
    in the handler is then not run. *)
Definition emit_error (e : error_kind) (s : stream) : outcome :=
  if on_error s then Normal (emit (EvError e) s) else Threw s.

(** [this.push(v)]; [this.push(null)] is the end of the output. *)
Definition push (v : value) (s : stream) : stream :=
  set_pushed (pushed s ++ [v]) s.

Definition ended (s : stream) : Prop := VNull ∈ pushed s.

(** [this.socket && this.socket.readyState === this.socket.OPEN]. *)
Definition socket_is_open (s : stream) : bool :=
  match socket s with
  | Some ws => match readyState ws with OPEN => true | _ => false end
  | None => false
  end.

(** [this.socket.send(w)]: the W3C socket of the [websocket] package
    throws unless [readyState] is [OPEN]. *)
Definition socket_send (w : wire) (s : stream) : outcome :=
  if socket_is_open s then Normal (set_sent (sent s ++ [w]) s) else Threw s.

(** [socket.close()]: a socket that is connecting or open starts closing. *)
Definition socket_close (s : stream) : stream :=
  match socket s with
  | Some ws =>
      match readyState ws with
      | CONNECTING | OPEN =>
          set_socket (Some {| readyState := CLOSING; bufferedAmount := bufferedAmount ws;
                              ws_query := ws_query ws; ws_opening := ws_opening ws |}) s
      | _ => s
      end
  | None => s
  end.

Definition set_readyState (r : ready_state) (s : stream) : stream :=
  match socket s with
  | Some ws =>
      set_socket (Some {| readyState := r; bufferedAmount := bufferedAmount ws;
                          ws_query := ws_query ws; ws_opening := ws_opening ws |}) s
  | None => s
  end.

Definition set_bufferedAmount (n : N) (s : stream) : stream :=
  match socket s with
  | Some ws =>
      set_socket (Some {| readyState := readyState ws; bufferedAmount := n;
                          ws_query := ws_query ws; ws_opening := ws_opening ws |}) s
  | None => s
  end.

Definition sendJSON (msg : gmap string value) (s : stream) : outcome :=
  socket_send (Text msg) (emit (EvSendJSON msg) s).

Definition sendData (data : chunk) (s : stream) : outcome :=
  socket_send (Binary data) (emit (EvSendData data) s).

(** [afterSend(next)]: [next] is always the callback of the chunk in
    flight; it is queued for the next tick when the socket has drained to
    the high-water mark, and the check is repeated 10 ms later
    otherwise. *)
Definition afterSend (s : stream) : outcome :=
  match socket s with
  | Some ws =>
      if (bufferedAmount ws <=? highWaterMark (_writableState s))%N
      then Normal (set_tick true s)
      else Normal (set_timer true s)
  | None => Threw s
  end.

Definition finish (s : stream) : outcome :=
  if finished s then Normal s
  else
    let s := set_finished true s in
    if socket_is_open s
    then sendJSON closingMessage s
    else Normal (set_once_open (once_open s ++ [SendStop]) s).

Definition stop (s : stream) : outcome :=
  finish (emit EvStop s).

(** [(options.url || 'wss://...').replace(/^http/, 'ws')] can be
    evaluated: [url] is a string or falsy.  Any other value has no
    [replace] method, and the call is a TypeError. *)
Definition usable_url (o : gmap string value) : bool :=
  match get o "url" with
  | VStr _ => true
  | v => negb (truthy v)
  end.

(** [initialize()]: the fallbacks rewrite [this.options] in place; then
    the URL is computed, which throws unless [url] is usable; then the
    socket is created (connecting), [finish] is bound to the 'finish'
    event, the socket handlers below are installed and [initialized] is
    set.  The constructor of the socket is taken to accept the URL. *)
Definition initialize (s : stream) : outcome :=
  let o := normalize_options (options s) in
  if usable_url o then
    Normal
      (set_initialized true
         (set_on_finish true
            (set_socket (Some {| readyState := CONNECTING; bufferedAmount := 0;
                                 ws_query := queryParams o; ws_opening := openingMessage o |})
               (set_options o s))))
  else Threw (set_options o s).

#[global] Arguments normalize_options : simpl never.
#[global] Arguments usable_url : simpl never.
#[global] Arguments initialize : simpl never.

Definition run_open_listener (l : open_listener) (s : stream) : outcome :=
  match l with
  | SendFirstChunk c => sendData c s >>> afterSend
  | SendStop => sendJSON closingMessage s
  end.

(** The listeners of 'open', in the order they were registered; each was
    registered with [once] and is removed as it is called. *)
Fixpoint run_open_listeners (ls : list open_listener) (s : stream) : outcome :=
  match ls with
  | [] => Normal s
  | l :: rest => run_open_listener l (set_once_open rest s) >>> run_open_listeners rest
  end.

Definition emit_open (s : stream) : outcome :=
  run_open_listeners (once_open s) (emit EvOpen s).

Definition onopen (s : stream) : outcome :=
  match socket s with
  | Some ws => sendJSON (ws_opening ws) s >>> emit_open
  | None => Normal s
  end.

Definition onerror (s : stream) : outcome :=
  emit_error WEBSOCKET_CONNECTION_ERROR (set_listening false s) >>> fun s =>
  Normal (push VNull s).

Definition onclose (code : Z) (reason : string) (s : stream) : outcome :=
  Normal (emit (EvClose code reason) (push VNull (set_listening false s))).

(** The body of [data.results.forEach]. *)
Definition push_final (result : value) (s : stream) : outcome :=
  match prop result "final" with
  | None => Threw s
  | Some final =>
      if truthy final then
        match prop result "alternatives" with
        | None => Threw s
        | Some alternatives =>
            if truthy alternatives then
              match index0 alternatives with
              | None => Threw s
              | Some first =>
                  match prop first "transcript" with
                  | None => Threw s
                  | Some transcript => Normal (push transcript s)
                  end
              end
            else Normal s
        end
      else Normal s
  end.

Fixpoint forEach_result (results : list value) (s : stream) : outcome :=
  match results with
  | [] => Normal s
  | result :: rest => push_final result s >>> forEach_result rest
  end.

Definition onmessage (f : frame) (s : stream) : outcome :=
  match f with
  | FBinary => emit_error UnexpectedBinaryData s
  | FMalformed => emit_error InvalidJSON s
  | FJson data =>
      let s := emit (EvMessage f) s in
      match prop data "error", prop data "state", prop data "results" with
      | Some error, Some state, Some results =>
          if truthy error then emit_error (ServiceError error) s
          else if is_listening state then
            if listening s
            then Normal (socket_close (set_listening false s))
            else Normal (emit EvListening (set_listening true s))
          else if truthy (get (options s) "readableObjectMode") then Normal (push data s)
          else
            match results with
            | VArr items => forEach_result items s
            | _ => Normal s
            end
      | _, _, _ => Threw s
      end
  end.

(** ** The push side *)

Inductive token_result : Type :=
  | TokenFailed
  | TokenOk (token : string).

Fixpoint assoc_set (k : string) (v : value) (fields : list (string * value))
  : list (string * value) :=
  match fields with
  | [] => [(k, v)]
  | (k', v') :: rest =>
      if String.eqb k k' then (k, v) :: rest else (k', v') :: assoc_set k v rest
  end.

(** [extend(this.options.headers, { authorization: 'Bearer ' + token })];
    headers that are not an object literal start from [{}]. *)
Definition with_authorization (headers : value) (token : string) : value :=
  VObj (assoc_set "authorization" (VStr ("Bearer " ++ token))
          (match headers with VObj fields => fields | _ => [] end)).

Section RecognizeStream.

(** [contentType.fromHeader] of ibm-cloud-sdk-core: the content type that
    the first bytes of the audio give away, or [undefined]. *)
Variable fromHeader : chunk -> value.

Definition getContentType (buffer : chunk) : value := fromHeader buffer.

(** The function that [_write] hands to [setAuthorizationHeaderToken],
    called with no error. *)
Definition write_authorized (c : chunk) (s : stream) : outcome :=
  if finished s then Normal s
  else if negb (initialized s) then
    if negb (truthy (get (options s) "content-type"))
       && negb (truthy (get (options s) "content_type"))
    then
      let ct := getContentType c in
      if truthy ct then
        initialize (set_options (<["content-type" := ct]> (options s)) s) >>> fun s =>
        Normal (set_once_open (once_open s ++ [SendFirstChunk c]) s)
      else
        emit_error ERROR_UNRECOGNIZED_FORMAT s >>> fun s => Normal (push VNull s)
    else
      initialize s >>> fun s =>
      Normal (set_once_open (once_open s ++ [SendFirstChunk c]) s)
  else sendData c s >>> afterSend.

(** [_write(chunk, encoding, callback)]: with a token manager the chunk
    waits for [getToken] to call back; without one the body runs at once. *)
Definition _write (c : chunk) (s : stream) : outcome :=
  if truthy (get (options s) "token_manager")
  then Normal (set_awaiting_token (Some c) s)
  else write_authorized c s.

(** The function that [setAuthorizationHeaderToken] passes to [getToken].
    On an error it reports the error to the function of [_write], which
    emits it and ends the output, and then goes on as for a token: it sets
    the header (from the missing token) and calls that function again
    with no error.  If the emit throws, nothing of this goes on. *)
Definition token_callback (r : token_result) (c : chunk) (s : stream) : outcome :=
  (match r with
   | TokenFailed => emit_error TokenError s >>> fun s => Normal (push VNull s)
   | TokenOk _ => Normal s
   end) >>> fun s =>
  let token := match r with TokenFailed => "undefined" | TokenOk t => t end in
  write_authorized c
    (set_options
       (<["headers" := with_authorization (get (options s) "headers") token]> (options s)) s).

(** *** Node's Writable, as far as the class relies on it *)

(** When the input has ended and nothing is in flight or waiting,
    'finish' is emitted once; [initialize] bound [finish] to it. *)
Definition finishMaybe (s : stream) : outcome :=
  let w := _writableState s in
  if ending w && negb (writing w) && negb (finish_emitted w)
     && bool_decide (buffer w = [])
  then
    let s := set_finish_emitted true s in
    if on_finish s then finish s else Normal s
  else Normal s.

(** [stream.write(chunk)]. *)
Definition write (c : chunk) (s : stream) : outcome :=
  let w := _writableState s in
  if ending w then emit_error WriteAfterEnd s
  else if writing w then Normal (set_buffer (buffer w ++ [c]) s)
  else _write c (set_writing true s).

(** [stream.end()]. *)
Definition end_ (s : stream) : outcome :=
  finishMaybe (set_ending true s).

(** The callback of the chunk in flight, run from the tick queue: the
    next waiting chunk goes to [_write]; if that one reports back within
    the same tick, so does the one after it.  [waiting] is the buffer at
    the time of the call. *)
Fixpoint onwrite (waiting : list chunk) (s : stream) : outcome :=
  match waiting with
  | [] => finishMaybe (set_buffer [] (set_writing false s))
  | c :: rest =>
      match _write c (set_buffer rest s) with
      | Normal s' => if tick s' then onwrite rest (set_tick false s') else Normal s'
      | Threw s' => Threw s'
      end
  end.

Definition run_tick (s : stream) : outcome :=
  if tick s then onwrite (buffer (_writableState s)) (set_tick false s) else Normal s.

(** ** Events and runs *)

(** What happens to a stream: the caller's calls ([OnError] is
    [stream.on('error', listener)], which [getTransactionId] calls as
    well while the socket has no response yet), the callbacks of the
    token manager and of the timer, and the events of the socket. *)
Inductive event : Type :=
  | Write (c : chunk)
  | End
  | Stop
  | Finish
  | Token (r : token_result)
  | Timeout
  | Buffered (n : N)
  | SocketOpen
  | SocketMessage (f : frame)
  | SocketError
  | SocketClose (code : Z) (reason : string)
  | OnError.

Definition handle (ev : event) (s : stream) : outcome :=
  match ev with
  | Write c => write c s
  | End => end_ s
  | Stop => stop s
  | Finish => finish s
  | Token r =>
      match awaiting_token s with
      | Some c => token_callback r c (set_awaiting_token None s)
      | None => Normal s
      end
  | Timeout => if timer s then afterSend (set_timer false s) else Normal s
  | Buffered n => Normal (set_bufferedAmount n s)
  | SocketOpen => onopen (set_readyState OPEN s)
  | SocketMessage f =>
      match socket s with
      | Some _ => onmessage f s
      | None => Normal s
      end
  | SocketError =>
      match socket s with
      | Some _ => onerror (set_readyState CLOSED s)
      | None => Normal s
      end
  | SocketClose code reason =>
      match socket s with
      | Some _ => onclose code reason (set_readyState CLOSED s)
      | None => Normal s
      end
  | OnError => Normal (set_on_error true s)
  end.

(** One turn of the event loop: the handler, then the tick queue. *)
Definition step (s : stream) (ev : event) : stream :=
  land (run_tick (land (handle ev s))).

Definition run (s : stream) (evs : list event) : stream :=
  fold_left step evs s.

End RecognizeStream.

(** [new RecognizeStream(options)]; [hwm] is the high-water mark that the
    Writable half derives from the options. *)
Definition new_stream (options : gmap string value) (hwm : N) : stream :=
  {| options :=
       if truthy (get options "objectMode")
       then delete "objectMode" (<["readableObjectMode" := VBool true]> options)
       else options;
     listening := false;
     initialized := false;
     finished := false;
     socket := None;
     _writableState :=
       {| highWaterMark := hwm; writing := false; ending := false;
          buffer := []; finish_emitted := false |};
     once_open := [];
     on_finish := false;
     on_error := false;
     awaiting_token := None;
     timer := false;
     tick := false;
     sent := [];
     pushed := [];
     emitted := [];
     uncaught := 0 |}.

(** ** Invariants of the wire log *)

Definition opening_ok (s : stream) : Prop :=
  forall ws, socket s = Some ws -> ws_opening ws !! "action" = Some (VStr "start").

(** [s'] comes after [s] without the socket having opened in between:
    the wire log only grew, and it grew only if the socket was open. *)
Definition wire_effect (s s' : stream) : Prop :=
  sent s `prefix_of` sent s'
  ∧ (socket_is_open s = false -> sent s' = sent s ∧ socket_is_open s' = false)
  ∧ (socket_is_open s' = true -> socket_is_open s = true)
  ∧ (opening_ok s -> opening_ok s').

Definition calm (h : stream -> outcome) : Prop :=
  forall s, wire_effect s (state_of (h s)).

(** The wire log starts with the opening message. *)
Definition starts_with_handshake (l : list wire) : Prop :=
  exists msg rest, l = Text msg :: rest ∧ msg !! "action" = Some (VStr "start").

Definition handshake_first (s : stream) : Prop :=
  opening_ok s
  ∧ (socket_is_open s = true -> starts_with_handshake (sent s))
  ∧ (sent s ≠ [] -> starts_with_handshake (sent s)).

Definition is_stop (w : wire) : bool :=
  match w with
  | Text msg =>
      match msg !! "action" with
      | Some (VStr a) => String.eqb a "stop"
      | _ => false
      end
  | Binary _ => false
  end.

Definition stops_sent (s : stream) : nat := length (List.filter is_stop (sent s)).

Definition is_SendStop (l : open_listener) : bool :=
  match l with SendStop => true | SendFirstChunk _ => false end.

Definition stops_pending (s : stream) : nat :=
  length (List.filter is_SendStop (once_open s)).

(** Stop messages sent or waiting for 'open': none before [finish], at
    most one after. *)
Definition stop_once (s : stream) : Prop :=
  opening_ok s
  ∧ stops_sent s + stops_pending s <= (if finished s then 1 else 0).

Definition keeps_stop_once (h : stream -> outcome) : Prop :=
  forall s, stop_once s -> stop_once (state_of (h s)).

(** [n] calls of [finish()] in a row. *)
Definition finish_n (n : nat) (s : stream) : outcome :=
  Nat.iter n (fun o => o >>> finish) (Normal s).

(** What a listener of 'open' sends. *)
Definition wire_of_listener (l : open_listener) : wire :=
  match l with
  | SendFirstChunk c => Binary c
  | SendStop => Text closingMessage
  end.

(** Some customization id is among the options: one of the three
    properties of that name in the query allow-list. *)
Definition customization_id_present (o : gmap string value) : bool :=
  has o "language_customization_id" || has o "customization_id"
  || has o "acoustic_customization_id".

(** *** Sample inputs *)

(** A sniffer that knows the RIFF header of WAV files and nothing else. *)
Definition riff_sniffer (c : chunk) : value :=
  match c with
  | Byte.x52 :: Byte.x49 :: Byte.x46 :: Byte.x46 :: _ => VStr "audio/wav"
  | _ => VUndefined
  end.

Definition wav_chunk : chunk :=
  [Byte.x52; Byte.x49; Byte.x46; Byte.x46; Byte.x24; Byte.x00].

Definition noise_chunk : chunk := [Byte.x00; Byte.x01; Byte.x02; Byte.x03].

Definition wav_options : gmap string value := {[ "content-type" := VStr "audio/wav" ]}.

Definition listening_frame : frame := FJson (VObj [("state", VStr "listening")]).

Definition error_frame : frame := FJson (VObj [("error", VStr "session timed out")]).

(** A stream that is connected and has nothing in flight: the next chunk
    written goes straight to [_write]. *)
Definition accepting (s : stream) : Prop :=
  initialized s = true
  ∧ finished s = false
  ∧ socket_is_open s = true
  ∧ truthy (get (options s) "token_manager") = false
  ∧ writing (_writableState s) = false
  ∧ ending (_writableState s) = false
  ∧ buffer (_writableState s) = []
  ∧ tick s = false.

(** ** The output of a results frame, as the specification puts it *)

(** [v.k] and [v[0]] where the access cannot throw. *)
Definition field (v : value) (k : string) : value := default VUndefined (prop v k).

Definition first (v : value) : value := default VUndefined (index0 v).

(** The text that a frame's results give in text mode: for each result
    that is final and has alternatives, the transcript of its first
    alternative; nothing for the other results. *)
Definition final_transcripts (results : list value) : list value :=
  flat_map
    (fun result =>
       if truthy (field result "final") && truthy (field result "alternatives")
       then [field (first (field result "alternatives")) "transcript"]
       else [])
    results.

Definition is_nullish (v : value) : bool :=
  match v with VUndefined | VNull => true | _ => false end.

(** A result that [forEach] can read without a TypeError: it is not
    [null], and if it is final with alternatives, the first alternative
    is there. *)
Definition readable_result (result : value) : bool :=
  negb (is_nullish result)
  && (negb (truthy (field result "final") && truthy (field result "alternatives"))
      || negb (is_nullish (first (field result "alternatives")))).

(** The results of a frame up to the first one that cannot be read. *)
Fixpoint readable_prefix (results : list value) : list value :=
  match results with
  | [] => []
  | result :: rest =>
      if readable_result result then result :: readable_prefix rest else []
  end.

(** A frame that is neither an error nor [listening]. *)
Definition is_result_frame (data : value) : bool :=
  negb (is_nullish data)
  && negb (truthy (field data "error"))
  && negb (is_listening (field data "state")).

Definition hello_frame : value :=
  VObj [("results",
         VArr [VObj [("final", VBool false);
                     ("alternatives", VArr [VObj [("transcript", VStr "hello")]])];
               VObj [("final", VBool true);
                     ("alternatives", VArr [VObj [("transcript", VStr "hello world");
                                                  ("confidence", VNum 1)];
                                            VObj [("transcript", VStr "hollow world")]])];
               VObj [("final", VBool true)]]);
        ("result_index", VNum 0)].






(** ** Flow control *)

(** [this.socket.bufferedAmount <= (this._writableState.highWaterMark || 0)]. *)
Definition drained (s : stream) : bool :=
  match socket s with
  | Some ws => (bufferedAmount ws <=? highWaterMark (_writableState s))%N
  | None => false
  end.


(** ** The order of the chunks *)

(** The chunks among the messages of a wire log, and the first chunks
    among the listeners of 'open'. *)
Definition binaries (l : list wire) : list chunk :=
  flat_map (fun w => match w with Binary c => [c] | Text _ => [] end) l.

Definition first_chunks (ls : list open_listener) : list chunk :=
  flat_map (fun l => match l with SendFirstChunk c => [c] | SendStop => [] end) ls.

(** The chunks that [write] has accepted: those written before [end()]. *)
Fixpoint accepted (evs : list event) : list chunk :=
  match evs with
  | [] => []
  | Write c :: rest => c :: accepted rest
  | End :: _ => []
  | _ :: rest => accepted rest
  end.

(** Where the chunk in flight is.  With [acc] the chunks accepted so far:
    nothing is in flight and all of them are sent ([flow_idle]); the
    chunk in flight waits for the token manager ([flow_token]) or for the
    socket to open ([flow_open]), and it and the buffer are what is left
    to send; it is sent and its callback is due, on the timer or on the
    next tick ([flow_sent]); or it was dropped or failed and its
    callback never comes ([flow_stuck]). *)
Inductive flow (acc : list chunk) (s : stream) : Prop :=
  | flow_idle :
      writing (_writableState s) = false -> awaiting_token s = None ->
      first_chunks (once_open s) = [] -> buffer (_writableState s) = [] ->
      timer s = false -> tick s = false ->
      binaries (sent s) = acc -> flow acc s
  | flow_token (c : chunk) :
      writing (_writableState s) = true -> awaiting_token s = Some c ->
      first_chunks (once_open s) = [] ->
      timer s = false -> tick s = false ->
      binaries (sent s) ++ c :: buffer (_writableState s) = acc -> flow acc s
  | flow_open (c : chunk) :
      writing (_writableState s) = true -> awaiting_token s = None ->
      first_chunks (once_open s) = [c] ->
      timer s = false -> tick s = false ->
      binaries (sent s) ++ c :: buffer (_writableState s) = acc -> flow acc s
  | flow_sent :
      writing (_writableState s) = true -> awaiting_token s = None ->
      first_chunks (once_open s) = [] ->
      timer s = negb (tick s) ->
      binaries (sent s) ++ buffer (_writableState s) = acc -> flow acc s
  | flow_stuck :
      writing (_writableState s) = true -> awaiting_token s = None ->
      first_chunks (once_open s) = [] ->
      timer s = false -> tick s = false ->
      binaries (sent s) `prefix_of` acc -> flow acc s.

(** A chunk has just been handed to [_write]: it and the buffer are what
    is left to send. *)
Definition in_flight (c : chunk) (acc : list chunk) (s : stream) : Prop :=
  writing (_writableState s) = true
  ∧ awaiting_token s = None
  ∧ first_chunks (once_open s) = []
  ∧ timer s = false
  ∧ tick s = false
  ∧ binaries (sent s) ++ c :: buffer (_writableState s) = acc.

(** [s'] differs from [s] in nothing that the flow of chunks depends on. *)
Definition same_flow (s s' : stream) : Prop :=
  binaries (sent s') = binaries (sent s)
  ∧ awaiting_token s' = awaiting_token s
  ∧ first_chunks (once_open s') = first_chunks (once_open s)
  ∧ writing (_writableState s') = writing (_writableState s)
  ∧ buffer (_writableState s') = buffer (_writableState s)
  ∧ ending (_writableState s') = ending (_writableState s)
  ∧ timer s' = timer s
  ∧ tick s' = tick s.

(** [flow] with the [ending] flag left as it was. *)
Definition flows (acc : list chunk) (s s' : stream) : Prop :=
  flow acc s' ∧ ending (_writableState s') = ending (_writableState s).

(** The chunks that an event adds to the accepted ones. *)
Definition accepts (s : stream) (ev : event) : list chunk :=
  match ev with
  | Write c => if ending (_writableState s) then [] else [c]
  | _ => []
  end.

Definition is_End (ev : event) : bool :=
  match ev with End => true | _ => false end.

(** ** The URL of the socket *)



Section Url.

(** [qs.stringify] of ibm-cloud-sdk-core. *)
Variable stringify : gmap string value -> string.


End Url.

(** ** The deprecated event names *)

(** The names under which the class emits its events. *)
Definition event_name (e : emission) : string :=
  match e with
  | EvError _ => "error"
  | EvOpen => "open"
  | EvClose _ _ => "close"
  | EvListening => "listening"
  | EvStop => "stop"
  | EvMessage _ => "message"
  | EvSendJSON _ => "send-json"
  | EvSendData _ => "send-data"
  end.

Definition deprecated_for_data : list string := ["results"; "result"; "speaker_labels"].

(** The listener of 'newListener' that the constructor installs: what it
    logs when a listener for [event] is added, if anything. *)
Definition deprecation_notice (options : gmap string value) (event : string)
  : option string :=
  if negb (truthy (get options "silent")) then
    if bool_decide (event ∈ deprecated_for_data) then
      Some (String.append "Watson Speech to Text RecognizeStream: the "
             (String.append event
                (String.append " event was deprecated. "
                   (String.append
                      "Please set {objectMode: true} and listen for the 'data' event instead. "
                      "Pass {silent: true} to disable this message."))))
    else if String.eqb event "connection-close" then
      Some (String.append "Watson Speech to Text RecognizeStream: the "
             (String.append event
                (String.append " event was deprecated. "
                   (String.append "Please listen for the 'close' event instead. "
                      "Pass {silent: true} to disable this message."))))
    else if String.eqb event "connect" then
      Some (String.append "Watson Speech to Text RecognizeStream: the "
             (String.append event
                (String.append " event was deprecated. "
                   (String.append "Please listen for the 'open' event instead. "
                      "Pass {silent: true} to disable this message."))))
    else None
  else None.

(** ** The actions of the class *)

(** The debug event that [sendJSON] and [sendData] emit for what they
    are about to send. *)
Definition announce (w : wire) : emission :=
  match w with
  | Text msg => EvSendJSON msg
  | Binary c => EvSendData c
  end.

Definition is_announcement (e : emission) : bool :=
  match e with
  | EvSendJSON _ | EvSendData _ => true
  | _ => false
  end.

(** What the debug events of an event log announce. *)
Definition announced (es : list emission) : list wire :=
  flat_map
    (fun e =>
       match e with
       | EvSendJSON msg => [Text msg]
       | EvSendData c => [Binary c]
       | _ => []
       end)
    es.

(** [sendJSON] or [sendData], as far as the stream object goes: the debug
    event, then the send if the socket takes it. *)
Definition transmit (w : wire) (s : stream) : stream :=
  state_of (socket_send w (emit (announce w) s)).

(** [s'] differs from [s] only in the bookkeeping of the Writable half,
    of the timers, of the token manager and of the listeners of 'error'. *)
Definition same_core (s s' : stream) : Prop :=
  options s' = options s
  ∧ listening s' = listening s
  ∧ initialized s' = initialized s
  ∧ finished s' = finished s
  ∧ socket s' = socket s
  ∧ once_open s' = once_open s
  ∧ on_finish s' = on_finish s
  ∧ sent s' = sent s
  ∧ pushed s' = pushed s
  ∧ emitted s' = emitted s.

(** What the handlers are made of, each action with what the code has
    tested before it.  The socket opening is one action: [onopen] sends
    the opening message and runs the listeners of 'open' in one go. *)
Inductive action (s : stream) : stream -> Prop :=
  | act_bookkeeping (s' : stream) :
      same_core s s' -> action s s'
  | act_emit (e : emission) :
      is_announcement e = false -> action s (emit e s)
  | act_push (v : value) :
      action s (push v s)
  | act_listening (b : bool) :
      action s (set_listening b s)
  | act_socket (ws ws' : websocket) :
      socket s = Some ws ->
      ws_query ws' = ws_query ws -> ws_opening ws' = ws_opening ws ->
      (readyState ws' = OPEN -> readyState ws = OPEN) ->
      action s (set_socket (Some ws') s)
  | act_open (ws : websocket) :
      socket s = Some ws -> action s (state_of (onopen (set_readyState OPEN s)))
  | act_send_data (c : chunk) :
      initialized s = true -> finished s = false -> action s (transmit (Binary c) s)
  | act_finish :
      finished s = false -> action s (state_of (finish s))
  | act_option (k : string) (v : value) :
      k = "content-type" ∨ k = "headers" ->
      action s (set_options (<[k := v]> (options s)) s)
  | act_initialize (c : chunk) (s' : stream) :
      initialized s = false -> finished s = false -> initialize s = Normal s' ->
      action s (set_once_open (once_open s' ++ [SendFirstChunk c]) s')
  | act_initialize_throws (s' : stream) :
      initialized s = false -> initialize s = Threw s' -> action s s'.

(** A handler that only does such actions. *)
Definition acts (h : stream -> outcome) : Prop :=
  forall s, rtc action s (state_of (h s)).

(** ** Invariants of the actions *)

(** [initialize] has run exactly if there is a socket. *)
Definition wired (s : stream) : Prop :=
  (initialized s = true <-> socket s ≠ None)
  ∧ on_finish s = initialized s
  ∧ (socket s = None -> sent s = []).

(** [s] is a later state of the session of [s0]: the output mode is the
    same, and so is what the socket of [s0], if it has one, was made
    with. *)
Definition same_session (s0 s : stream) : Prop :=
  get (options s) "readableObjectMode" = get (options s0) "readableObjectMode"
  ∧ (forall ws, socket s0 = Some ws ->
       exists ws', socket s = Some ws'
         ∧ ws_query ws' = ws_query ws ∧ ws_opening ws' = ws_opening ws).

(** What follows the first stop message of a wire log. *)
Fixpoint after_stop (l : list wire) : list wire :=
  match l with
  | [] => []
  | w :: rest => if is_stop w then rest else after_stop rest
  end.

(** What the listeners of 'open' will send. *)
Definition pending (s : stream) : list wire := map wire_of_listener (once_open s).

(** No chunk is sent, or waits to be sent, after a stop message. *)
Definition orderly (s : stream) : Prop :=
  opening_ok s
  ∧ (socket_is_open s = true -> first_chunks (once_open s) = [])
  ∧ (finished s = false -> List.filter is_stop (sent s ++ pending s) = [])
  ∧ binaries (after_stop (sent s ++ pending s)) = [].

(** ** Some states of a stream *)

(** The stream that [initialize] leaves when it does not throw. *)
Definition connecting (s : stream) : stream :=
  let o := normalize_options (options s) in
  set_initialized true
    (set_on_finish true
       (set_socket (Some {| readyState := CONNECTING; bufferedAmount := 0;
                            ws_query := queryParams o; ws_opening := openingMessage o |})
          (set_options o s))).

(** A stream that nobody has written to: there is no socket, and nothing
    is under way that could make one. *)
Definition unused (s : stream) : Prop :=
  socket s = None
  ∧ initialized s = false
  ∧ on_finish s = false
  ∧ awaiting_token s = None
  ∧ writing (_writableState s) = false
  ∧ buffer (_writableState s) = []
  ∧ timer s = false
  ∧ tick s = false.

(** A stream stopped before its first chunk, with a chunk written since. *)
Definition stopped_early (s : stream) : Prop :=
  finished s = true
  ∧ socket s = None
  ∧ initialized s = false
  ∧ sent s = []
  ∧ writing (_writableState s) = true
  ∧ timer s = false
  ∧ tick s = false.

(** A connected stream with a token manager and nothing in flight. *)
Definition authorizing (s : stream) : Prop :=
  initialized s = true
  ∧ finished s = false
  ∧ socket_is_open s = true
  ∧ truthy (get (options s) "token_manager") = true
  ∧ writing (_writableState s) = false
  ∧ ending (_writableState s) = false
  ∧ buffer (_writableState s) = []
  ∧ tick s = false.

(** A connected stream whose input can end: [initialize] has bound
    [finish] to 'finish', which has not been emitted yet. *)
Definition can_finish (s : stream) : Prop :=
  initialized s = true
  ∧ finished s = false
  ∧ socket_is_open s = true
  ∧ truthy (get (options s) "token_manager") = false
  ∧ on_finish s = true
  ∧ finish_emitted (_writableState s) = false
  ∧ tick s = false.

(** *** More sample inputs *)

(** A text-mode frame with three final results, the second of which has
    an empty list of alternatives. *)
Definition broken_frame : value :=
  VObj [("results",
         VArr [VObj [("final", VBool true);
                     ("alternatives", VArr [VObj [("transcript", VStr "one")]])];
               VObj [("final", VBool true); ("alternatives", VArr [])];
               VObj [("final", VBool true);
                     ("alternatives", VArr [VObj [("transcript", VStr "three")]])]])].

(** Options with a token manager and an explicit content type. *)
Definition token_options : gmap string value :=
  {[ "token_manager" := VObj []; "content-type" := VStr "audio/wav" ]}.

(** ** The options that the class writes *)

(** The properties of the caller's options object that [initialize],
    [_write] and [setAuthorizationHeaderToken] assign or delete. *)
Definition written_options : list string :=
  [ "watson-token";
    "content-type";
    "X-Watson-Learning-Opt-Out";
    "language_customization_id";
    "customization_id";
    "headers" ].

(** * Properties *)

(** Reading a field of an updated stream object. *)
Ltac fields :=
  cbn [options listening initialized finished socket _writableState once_open on_finish
       on_error awaiting_token timer tick sent pushed emitted uncaught
       set_options set_listening set_initialized set_finished set_socket set_writableState
       set_once_open set_on_finish set_on_error set_awaiting_token set_timer set_tick
       set_sent set_pushed set_emitted set_uncaught set_writing set_ending set_buffer
       set_finish_emitted emit push highWaterMark writing ending buffer finish_emitted
       readyState bufferedAmount ws_query ws_opening connecting].

(** ** The option handling *)

Lemma lookup_pick (o : gmap string value) (ks : list string) (k : string) :
  pick o ks !! k = if bool_decide (k ∈ ks) then o !! k else None.
Proof.
  induction ks as [|k' ks IH]; simpl.
  - by rewrite lookup_empty.
  - destruct (decide (k = k')) as [->|Hne].
    + rewrite bool_decide_eq_true_2 by (apply list_elem_of_here).
      destruct (o !! k') eqn:E.
      * by rewrite lookup_insert_eq.
      * rewrite IH. by destruct (bool_decide (k' ∈ ks)).
    + assert (bool_decide (k ∈ k' :: ks) = bool_decide (k ∈ ks)) as ->.
      { apply bool_decide_ext. rewrite elem_of_cons. tauto. }
      destruct (o !! k') eqn:E; [rewrite lookup_insert_ne by done|]; exact IH.
Qed.


Lemma lookup_extend (t src : gmap string value) (k : string) :
  extend t src !! k =
    match src !! k with
    | Some v => if is_undefined v then t !! k else Some v
    | None => t !! k
    end.
Proof.
  unfold extend. rewrite lookup_union, map_lookup_filter.
  destruct (src !! k) as [v|] eqn:E; simpl.
  - destruct (is_undefined v) eqn:U; case_guard as Hg; simpl in Hg;
      try congruence; simpl; by destruct (t !! k).
  - by destruct (t !! k).
Qed.


Lemma lookup_fallback (l m : string) (o : gmap string value) (k : string) :
  fallback l m o !! k =
    if fires l m o && bool_decide (k = m) then Some (get o l) else o !! k.
Proof.
  unfold fallback. destruct (fires l m o); simpl; [|done].
  case_bool_decide as E; [subst; apply lookup_insert_eq | by apply lookup_insert_ne].
Qed.

Lemma lookup_fallback_customization_id (o : gmap string value) (k : string) :
  fallback_customization_id o !! k =
    if fires "customization_id" "language_customization_id" o
    then if bool_decide (k = "customization_id") then None
         else if bool_decide (k = "language_customization_id")
              then Some (get o "customization_id") else o !! k
    else o !! k.
Proof.
  unfold fallback_customization_id.
  destruct (fires "customization_id" "language_customization_id" o); [|done].
  repeat case_bool_decide; subst; simplify_map_eq; done.
Qed.

Lemma get_fallback_ne (l m : string) (o : gmap string value) (k : string) :
  k ≠ m -> get (fallback l m o) k = get o k.
Proof.
  intros Hne. unfold get. rewrite lookup_fallback.
  rewrite (bool_decide_eq_false_2 _ Hne). by rewrite andb_false_r.
Qed.

Lemma fires_fallback_ne (l m l' m' : string) (o : gmap string value) :
  l' ≠ m -> m' ≠ m -> fires l' m' (fallback l m o) = fires l' m' o.
Proof. intros. unfold fires. by rewrite !get_fallback_ne. Qed.

(** What the four fallbacks together do to each property, in terms of the
    options they started from. *)
Lemma lookup_normalize_options (o : gmap string value) (k : string) :
  normalize_options o !! k =
    if bool_decide (k = "customization_id") then
      if fires "customization_id" "language_customization_id" o then None else o !! k
    else if bool_decide (k = "language_customization_id") then
      if fires "customization_id" "language_customization_id" o
      then Some (get o "customization_id") else o !! k
    else if bool_decide (k = "X-Watson-Learning-Opt-Out") then
      if fires "X-WDC-PL-OPT-OUT" "X-Watson-Learning-Opt-Out" o
      then Some (get o "X-WDC-PL-OPT-OUT") else o !! k
    else if bool_decide (k = "content-type") then
      if fires "content_type" "content-type" o then Some (get o "content_type") else o !! k
    else if bool_decide (k = "watson-token") then
      if fires "token" "watson-token" o then Some (get o "token") else o !! k
    else o !! k.
Proof.
  unfold normalize_options.
  rewrite lookup_fallback_customization_id.
  rewrite !fires_fallback_ne by done.
  rewrite !get_fallback_ne by done.
  rewrite !lookup_fallback.
  rewrite !fires_fallback_ne by done.
  rewrite !get_fallback_ne by done.
  destruct (fires "customization_id" "language_customization_id" o),
    (fires "X-WDC-PL-OPT-OUT" "X-Watson-Learning-Opt-Out" o),
    (fires "content_type" "content-type" o),
    (fires "token" "watson-token" o); simpl;
    repeat (case_bool_decide; subst; simpl; try done).
Qed.

Lemma get_normalize_options (o : gmap string value) (k : string) :
  get (normalize_options o) k =
    if bool_decide (k = "customization_id") then
      if fires "customization_id" "language_customization_id" o then VUndefined else get o k
    else if bool_decide (k = "language_customization_id") then
      if fires "customization_id" "language_customization_id" o
      then get o "customization_id" else get o k
    else if bool_decide (k = "X-Watson-Learning-Opt-Out") then
      if fires "X-WDC-PL-OPT-OUT" "X-Watson-Learning-Opt-Out" o
      then get o "X-WDC-PL-OPT-OUT" else get o k
    else if bool_decide (k = "content-type") then
      if fires "content_type" "content-type" o then get o "content_type" else get o k
    else if bool_decide (k = "watson-token") then
      if fires "token" "watson-token" o then get o "token" else get o k
    else get o k.
Proof.
  unfold get at 1. rewrite lookup_normalize_options.
  repeat case_bool_decide; try done; by destruct (fires _ _ o).
Qed.

(** Once a fallback has run, its condition is false. *)
Lemma fires_settled (l m : string) (o o' : gmap string value) :
  get o' l = get o l ∨ (fires l m o = true ∧ get o' l = VUndefined) ->
  get o' m = (if fires l m o then get o l else get o m) ->
  fires l m o' = false.
Proof.
  intros Hl Hm. unfold fires at 1. rewrite Hm.
  destruct Hl as [->|[Hf ->]]; [|done].
  unfold fires. destruct (truthy (get o l)) eqn:El, (truthy (get o m)) eqn:Em; simpl;
    by rewrite ?El, ?Em.
Qed.

Lemma fires_normalize_options (o : gmap string value) :
  fires "token" "watson-token" (normalize_options o) = false
  ∧ fires "content_type" "content-type" (normalize_options o) = false
  ∧ fires "X-WDC-PL-OPT-OUT" "X-Watson-Learning-Opt-Out" (normalize_options o) = false
  ∧ fires "customization_id" "language_customization_id" (normalize_options o) = false.
Proof.
  repeat split; apply (fires_settled _ _ o); rewrite get_normalize_options; simpl;
    try done; try (by left).
  destruct (fires "customization_id" "language_customization_id" o); [by right | by left].
Qed.

Lemma normalize_options_idempotent (o : gmap string value) :
  normalize_options (normalize_options o) = normalize_options o.
Proof.
  apply map_eq. intros k.
  rewrite (lookup_normalize_options (normalize_options o)).
  destruct (fires_normalize_options o) as (-> & -> & -> & ->).
  by repeat case_bool_decide.
Qed.

Lemma has_lookup (o : gmap string value) (k : string) :
  has o k = match o !! k with Some _ => true | None => false end.
Proof.
  unfold has. destruct (o !! k); [by apply bool_decide_eq_true_2|].
  apply bool_decide_eq_false_2. by intros [? ?].
Qed.



Lemma openingMessage_action (o : gmap string value) :
  openingMessage o !! "action" = Some (VStr "start").
Proof. apply lookup_insert_eq. Qed.

Lemma lookup_queryParams_model (o : gmap string value) :
  queryParams o !! "model" =
    if has o "language_customization_id" then o !! "model"
    else Some (match o !! "model" with
               | Some v => if is_undefined v then DEFAULT_MODEL else v
               | None => DEFAULT_MODEL
               end).
Proof.
  unfold queryParams. rewrite lookup_extend, lookup_pick.
  rewrite bool_decide_eq_true_2 by (apply list_elem_of_here).
  destruct (has o "language_customization_id").
  - rewrite lookup_pick.
    rewrite bool_decide_eq_true_2 by (apply list_elem_of_here).
    destruct (o !! "model") as [v|]; [|done]. by destruct (is_undefined v).
  - rewrite lookup_singleton_eq.
    destruct (o !! "model") as [v|]; [|done]. by destruct (is_undefined v).
Qed.




Lemma initialize_Normal (s s' : stream) :
  initialize s = Normal s' ->
  usable_url (normalize_options (options s)) = true ∧ s' = connecting s.
Proof.
  unfold initialize. destruct (usable_url _); [|done]. intros [= <-]. done.
Qed.

Lemma initialize_Threw (s s' : stream) :
  initialize s = Threw s' ->
  usable_url (normalize_options (options s)) = false
  ∧ s' = set_options (normalize_options (options s)) s.
Proof.
  unfold initialize. destruct (usable_url _); [done|]. intros [= <-]. done.
Qed.

(** From here on [initialize] is used through these equations. *)
#[global] Opaque initialize.


(** C8, as first stated, fails: with only an acoustic customization id
    among the options, the default model is still put into the query. *)
Lemma C8_default_model_despite_customization_id :
  let o : gmap string value := {[ "acoustic_customization_id" := VStr "abc" ]} in
  customization_id_present o = true
  ∧ o !! "model" = None
  ∧ queryParams (normalize_options o) !! "model" = Some DEFAULT_MODEL.
Proof. vm_compute. done. Qed.

(** C8, amended. The default model is put into the query exactly when,
    after the fallbacks, the options have no [language_customization_id]
    property (that is: they had none, and no truthy [customization_id]
    either) and no model other than [undefined]; an
    [acoustic_customization_id] plays no part.  With a
    [language_customization_id] the model is passed on as the options
    have it, and a configured model is passed on unchanged in either
    case. *)
Theorem C8_default_model (o : gmap string value) :
  has (normalize_options o) "language_customization_id"
    = has o "language_customization_id" || truthy (get o "customization_id")
  ∧ queryParams (normalize_options o) !! "model" =
      if has (normalize_options o) "language_customization_id"
      then o !! "model"
      else Some (match o !! "model" with
                 | Some v => if is_undefined v then DEFAULT_MODEL else v
                 | None => DEFAULT_MODEL
                 end).
Proof.
  split.
  - rewrite !has_lookup, lookup_normalize_options. simpl.
    unfold fires, get.
    destruct (o !! "customization_id") as [ci|], (o !! "language_customization_id") as [lci|];
      simpl; try done.
    + destruct (truthy ci), (truthy lci); done.
    + by destruct (truthy ci).
  - rewrite lookup_queryParams_model.
    assert (normalize_options o !! "model" = o !! "model") as ->; [|done].
    by rewrite lookup_normalize_options.
Qed.

(** C9, as first stated, fails: the opt-out fallback overwrites a modern
    field that is present but [false]. *)
Lemma C9_fallback_overwrites_present_field :
  let o : gmap string value :=
    {[ "X-WDC-PL-OPT-OUT" := VBool true; "X-Watson-Learning-Opt-Out" := VBool false ]} in
  has o "X-Watson-Learning-Opt-Out" = true
  ∧ o !! "X-Watson-Learning-Opt-Out" = Some (VBool false)
  ∧ normalize_options o !! "X-Watson-Learning-Opt-Out" = Some (VBool true).
Proof. vm_compute. done. Qed.

(** C9, amended. Applying the deprecated-name fallbacks twice gives the
    same options as applying them once.  Each fallback fires exactly when
    the deprecated field is truthy and the modern field is falsy (absent,
    or present with a falsy value): then the modern field takes the
    deprecated value, and [customization_id] is removed; every other
    property stays as it was. *)
Theorem C9_normalize_options_idempotent (o : gmap string value) (k : string) :
  normalize_options (normalize_options o) = normalize_options o
  ∧ normalize_options o !! k =
      if bool_decide (k = "customization_id") then
        if fires "customization_id" "language_customization_id" o then None else o !! k
      else if bool_decide (k = "language_customization_id") then
        if fires "customization_id" "language_customization_id" o
        then Some (get o "customization_id") else o !! k
      else if bool_decide (k = "X-Watson-Learning-Opt-Out") then
        if fires "X-WDC-PL-OPT-OUT" "X-Watson-Learning-Opt-Out" o
        then Some (get o "X-WDC-PL-OPT-OUT") else o !! k
      else if bool_decide (k = "content-type") then
        if fires "content_type" "content-type" o then Some (get o "content_type") else o !! k
      else if bool_decide (k = "watson-token") then
        if fires "token" "watson-token" o then Some (get o "token") else o !! k
      else o !! k.
Proof.
  split; [apply normalize_options_idempotent | apply lookup_normalize_options].
Qed.

(** ** Runs *)

Section Runs.
Variable fromHeader : chunk -> value.

Lemma run_invariant (I : stream -> Prop) (s : stream) (evs : list event) :
  I s -> (forall s ev, I s -> I (step fromHeader s ev)) -> I (run fromHeader s evs).
Proof.
  intros H0 Hstep. revert s H0.
  induction evs as [|ev evs IH]; intros s H0; simpl; [done|].
  by apply IH, Hstep.
Qed.
Lemma run_app (s : stream) (evs1 evs2 : list event) :
  run fromHeader s (evs1 ++ evs2) = run fromHeader (run fromHeader s evs1) evs2.
Proof. apply fold_left_app. Qed.

End Runs.

(** ** What a handler can put on the wire *)

Lemma wire_effect_refl (s : stream) : wire_effect s s.
Proof. by repeat split. Qed.

Lemma wire_effect_trans (s1 s2 s3 : stream) :
  wire_effect s1 s2 -> wire_effect s2 s3 -> wire_effect s1 s3.
Proof.
  intros (P1 & C1 & O1 & K1) (P2 & C2 & O2 & K2). repeat split.
  - by etrans.
  - destruct (C1 H) as [E1 F1]. destruct (C2 F1) as [E2 F2]. congruence.
  - destruct (C1 H) as [E1 F1]. by destruct (C2 F1).
  - auto.
  - auto.
Qed.

Lemma calm_and_then (h1 h2 : stream -> outcome) :
  calm h1 -> calm h2 -> calm (fun s => h1 s >>> h2).
Proof.
  intros H1 H2 s. specialize (H1 s). destruct (h1 s) as [s1|s1]; simpl in *; [|done].
  eapply wire_effect_trans; [exact H1 | apply H2].
Qed.

(** Updates that leave the socket and the wire log alone. *)
Lemma wire_effect_same (s s' : stream) :
  sent s' = sent s -> socket s' = socket s -> wire_effect s s'.
Proof.
  intros Hs Hk. unfold wire_effect, opening_ok, socket_is_open. rewrite Hs, Hk.
  by repeat split.
Qed.

Lemma wire_effect_socket_send (w : wire) (s : stream) :
  wire_effect s (state_of (socket_send w s)).
Proof.
  unfold socket_send. destruct (socket_is_open s) eqn:E; simpl; [|apply wire_effect_refl].
  unfold wire_effect, opening_ok, socket_is_open in *. simpl. rewrite E.
  repeat split; try done. by apply prefix_app_r.
Qed.

Lemma wire_effect_closed (s s' : stream) :
  sent s' = sent s -> socket_is_open s' = false -> (opening_ok s -> opening_ok s') ->
  wire_effect s s'.
Proof.
  intros Hs Hc Hk. unfold wire_effect. rewrite Hs, Hc. by repeat split.
Qed.

Ltac same := apply wire_effect_same; reflexivity.

Lemma calm_sendJSON (msg : gmap string value) : calm (sendJSON msg).
Proof.
  intros s. unfold sendJSON.
  eapply wire_effect_trans; [|apply wire_effect_socket_send]. same.
Qed.

Lemma calm_sendData (c : chunk) : calm (sendData c).
Proof.
  intros s. unfold sendData.
  eapply wire_effect_trans; [|apply wire_effect_socket_send]. same.
Qed.

Lemma calm_afterSend : calm afterSend.
Proof.
  intros s. unfold afterSend. destruct (socket s) as [ws|]; simpl; [|same].
  destruct (_ <=? _)%N; simpl; same.
Qed.

Lemma calm_finish : calm finish.
Proof.
  intros s. unfold finish. destruct (finished s); simpl; [same|].
  destruct (socket_is_open _); simpl.
  - eapply wire_effect_trans; [|apply calm_sendJSON]. same.
  - same.
Qed.

Lemma calm_stop : calm stop.
Proof.
  intros s. unfold stop. eapply wire_effect_trans; [|apply calm_finish]. same.
Qed.

Lemma calm_initialize : calm initialize.
Proof.
  intros s. destruct (initialize s) as [s'|s'] eqn:E; simpl.
  - apply initialize_Normal in E as [_ ->].
    apply wire_effect_closed; [done..|].
    intros _ ws [= <-]. apply openingMessage_action.
  - apply initialize_Threw in E as [_ ->]. same.
Qed.

Lemma calm_emit_error (e : error_kind) : calm (emit_error e).
Proof. intros s. unfold emit_error. destruct (on_error s); simpl; same. Qed.

Lemma calm_Normal (f : stream -> stream) :
  (forall s, sent (f s) = sent s) -> (forall s, socket (f s) = socket s) ->
  calm (fun s => Normal (f s)).
Proof. intros Hs Hk s. simpl. by apply wire_effect_same. Qed.

Lemma wire_effect_socket_close (s : stream) : wire_effect s (socket_close s).
Proof.
  unfold socket_close. destruct (socket s) as [ws|] eqn:E; [|apply wire_effect_refl].
  destruct (readyState ws) eqn:R; try apply wire_effect_refl.
  all: apply wire_effect_closed; [done..|];
    unfold opening_ok; simpl; intros Hk ws' [= <-]; simpl; by apply Hk.
Qed.

Lemma wire_effect_set_readyState (r : ready_state) (s : stream) :
  r ≠ OPEN -> wire_effect s (set_readyState r s).
Proof.
  intros Hr. unfold set_readyState. destruct (socket s) as [ws|] eqn:E; [|apply wire_effect_refl].
  apply wire_effect_closed; [done| |].
  - unfold socket_is_open. simpl. by destruct r.
  - unfold opening_ok; simpl. intros Hk ws' [= <-]; simpl; by apply Hk.
Qed.

Lemma wire_effect_set_bufferedAmount (n : N) (s : stream) :
  wire_effect s (set_bufferedAmount n s).
Proof.
  unfold set_bufferedAmount. destruct (socket s) as [ws|] eqn:E; [|apply wire_effect_refl].
  unfold wire_effect, opening_ok, socket_is_open. simpl. rewrite E.
  split_and!; try done.
  intros Hk ws' [= <-]; simpl; by apply Hk.
Qed.

Lemma calm_push_final (result : value) : calm (push_final result).
Proof.
  intros s. unfold push_final.
  repeat (case_match; simpl; try same).
Qed.

Lemma calm_forEach_result (results : list value) : calm (forEach_result results).
Proof.
  induction results as [|r rs IH]; simpl.
  - intros s. apply wire_effect_refl.
  - apply (calm_and_then (push_final r) (forEach_result rs)); [apply calm_push_final | exact IH].
Qed.

Lemma calm_onmessage (f : frame) : calm (onmessage f).
Proof.
  intros s. unfold onmessage. destruct f as [| |data]; try apply calm_emit_error.
  destruct (prop data "error") as [error|]; [|same].
  destruct (prop data "state") as [state|]; [|same].
  destruct (prop data "results") as [results|]; [|same].
  destruct (truthy error).
  { eapply wire_effect_trans; [|apply calm_emit_error]. same. }
  destruct (is_listening state).
  { destruct (listening _); simpl; [|same].
    eapply wire_effect_trans; [|apply wire_effect_socket_close]. same. }
  destruct (truthy (get _ _)); [same|].
  destruct results; try same.
  eapply wire_effect_trans; [|apply calm_forEach_result]. same.
Qed.

Lemma calm_onerror : calm onerror.
Proof.
  intros s. unfold onerror.
  eapply wire_effect_trans;
    [|apply (calm_and_then (emit_error WEBSOCKET_CONNECTION_ERROR)
               (fun s => Normal (push VNull s))); [apply calm_emit_error|by apply calm_Normal]].
  same.
Qed.

Lemma calm_onclose (code : Z) (reason : string) : calm (onclose code reason).
Proof. intros s. unfold onclose. simpl. same. Qed.

Section Calm.
Variable fromHeader : chunk -> value.

Lemma calm_write_authorized (c : chunk) : calm (write_authorized fromHeader c).
Proof.
  intros s. unfold write_authorized.
  destruct (finished s); simpl; [same|].
  destruct (initialized s); simpl.
  - apply (calm_and_then (sendData c) afterSend); [apply calm_sendData | apply calm_afterSend].
  - assert (calm (fun s => initialize s >>> fun s =>
                     Normal (set_once_open (once_open s ++ [SendFirstChunk c]) s))) as Hi.
    { apply (calm_and_then initialize); [apply calm_initialize|by apply calm_Normal]. }
    repeat (case_match; simpl; try same).
    + eapply wire_effect_trans; [|apply Hi]. same.
    + apply (calm_and_then (emit_error ERROR_UNRECOGNIZED_FORMAT)
               (fun s => Normal (push VNull s))); [apply calm_emit_error|by apply calm_Normal].
    + apply Hi.
Qed.

Lemma calm__write (c : chunk) : calm (_write fromHeader c).
Proof.
  intros s. unfold _write. case_match; simpl; [same|apply calm_write_authorized].
Qed.

Lemma calm_token_callback (r : token_result) (c : chunk) : calm (token_callback fromHeader r c).
Proof.
  apply (calm_and_then _ (fun s => write_authorized fromHeader c (set_options _ s))).
  - destruct r.
    + apply (calm_and_then (emit_error TokenError) (fun s => Normal (push VNull s)));
        [apply calm_emit_error|by apply calm_Normal].
    + by apply (calm_Normal id).
  - intros s. eapply wire_effect_trans; [|apply calm_write_authorized]. same.
Qed.

Lemma calm_finishMaybe : calm finishMaybe.
Proof.
  intros s. unfold finishMaybe.
  repeat (case_match; simpl; try same).
  eapply wire_effect_trans; [|apply calm_finish]. same.
Qed.

Lemma calm_write (c : chunk) : calm (write fromHeader c).
Proof.
  intros s. unfold write.
  repeat (case_match; simpl; try same).
  - apply calm_emit_error.
  - eapply wire_effect_trans; [|apply calm__write]. same.
Qed.

Lemma calm_end_ : calm end_.
Proof.
  intros s. unfold end_. eapply wire_effect_trans; [|apply calm_finishMaybe]. same.
Qed.

Lemma calm_onwrite (waiting : list chunk) : calm (onwrite fromHeader waiting).
Proof.
  induction waiting as [|c rest IH]; intros s; simpl.
  - eapply wire_effect_trans; [|apply calm_finishMaybe]. same.
  - pose proof (calm__write c (set_buffer rest s)) as Hw.
    destruct (_write fromHeader c (set_buffer rest s)) as [s'|s'] eqn:E; simpl in *.
    + assert (wire_effect s s') as Hs by (eapply wire_effect_trans; [|exact Hw]; same).
      destruct (tick s'); simpl; [|done].
      eapply wire_effect_trans; [exact Hs|].
      eapply wire_effect_trans; [|apply IH]. same.
    + eapply wire_effect_trans; [|exact Hw]. same.
Qed.

Lemma calm_run_tick : calm (run_tick fromHeader).
Proof.
  intros s. unfold run_tick. destruct (tick s); simpl; [|apply wire_effect_refl].
  eapply wire_effect_trans; [|apply calm_onwrite]. same.
Qed.

End Calm.

Lemma wire_effect_land (s : stream) (o : outcome) :
  wire_effect s (state_of o) -> wire_effect s (land o).
Proof.
  intros H. destruct o as [s'|s']; simpl in *; [done|].
  eapply wire_effect_trans; [exact H|]. same.
Qed.

Lemma calm_run_open_listener (l : open_listener) : calm (run_open_listener l).
Proof.
  destruct l as [c|]; simpl.
  - apply (calm_and_then (sendData c) afterSend); [apply calm_sendData | apply calm_afterSend].
  - apply calm_sendJSON.
Qed.

Lemma calm_run_open_listeners (ls : list open_listener) : calm (run_open_listeners ls).
Proof.
  induction ls as [|l rest IH]; simpl.
  - intros s. apply wire_effect_refl.
  - apply (calm_and_then (fun s => run_open_listener l (set_once_open rest s))
             (run_open_listeners rest)); [|exact IH].
    intros s. eapply wire_effect_trans; [|apply calm_run_open_listener]. same.
Qed.

Lemma calm_emit_open : calm emit_open.
Proof.
  intros s. unfold emit_open.
  eapply wire_effect_trans; [|apply calm_run_open_listeners]. same.
Qed.

Lemma starts_with_handshake_prefix (l l' : list wire) :
  starts_with_handshake l -> l `prefix_of` l' -> starts_with_handshake l'.
Proof.
  intros (msg & rest & -> & Hm) [k ->]. exists msg, (rest ++ k). by split.
Qed.

Lemma handshake_first_wire_effect (s s' : stream) :
  handshake_first s -> wire_effect s s' -> handshake_first s'.
Proof.
  intros (Hk & Ho & Hn) (Hp & Hc & Hb & Hk'). split_and!; [auto| |].
  - intros H'. eapply starts_with_handshake_prefix; [apply Ho, Hb, H'|done].
  - intros Hne. destruct (socket_is_open s) eqn:E.
    + eapply starts_with_handshake_prefix; [by apply Ho|done].
    + destruct (Hc eq_refl) as [Hs _]. rewrite Hs in *. by apply Hn.
Qed.

Lemma handshake_first_onopen (s : stream) :
  handshake_first s -> handshake_first (state_of (onopen (set_readyState OPEN s))).
Proof.
  intros HA. unfold onopen, set_readyState.
  destruct (socket s) as [ws|] eqn:E; simpl; [|by rewrite E].
  set (s1 := set_sent _ _).
  assert (handshake_first s1) as H1.
  { destruct HA as (Hk & Ho & Hn).
    assert (opening_ok s1) as Hk1.
    { intros ws' [= <-]. simpl. by apply Hk. }
    assert (starts_with_handshake (sent s1)) as Hs1.
    { subst s1. simpl. destruct (sent s) as [|w l] eqn:Es.
      - exists (ws_opening ws), []. split; [done|]. by apply Hk.
      - eapply starts_with_handshake_prefix; [by apply Hn|]. by apply prefix_app_r. }
    by split_and!. }
  eapply handshake_first_wire_effect; [exact H1|]. apply calm_emit_open.
Qed.

Section Steps.
Variable fromHeader : chunk -> value.

Lemma calm_handle (ev : event) : ev ≠ SocketOpen -> calm (handle fromHeader ev).
Proof.
  intros Hev s. destruct ev; simpl; try done.
  - apply calm_write.
  - apply calm_end_.
  - apply calm_stop.
  - apply calm_finish.
  - destruct (awaiting_token s); simpl; [|apply wire_effect_refl].
    eapply wire_effect_trans; [|apply calm_token_callback]. same.
  - destruct (timer s); simpl; [|apply wire_effect_refl].
    eapply wire_effect_trans; [|apply calm_afterSend]. same.
  - apply wire_effect_set_bufferedAmount.
  - destruct (socket s); simpl; [apply calm_onmessage|apply wire_effect_refl].
  - destruct (socket s); simpl; [|apply wire_effect_refl].
    eapply wire_effect_trans; [by apply (wire_effect_set_readyState CLOSED)|apply calm_onerror].
  - destruct (socket s); simpl; [|apply wire_effect_refl].
    eapply wire_effect_trans; [by apply (wire_effect_set_readyState CLOSED)|apply calm_onclose].
Qed.

Lemma wire_effect_step (s : stream) (ev : event) :
  ev ≠ SocketOpen -> wire_effect s (step fromHeader s ev).
Proof.
  intros Hev. unfold step.
  apply wire_effect_land.
  eapply wire_effect_trans; [|apply calm_run_tick].
  by apply wire_effect_land, calm_handle.
Qed.

Lemma handshake_first_land (o : outcome) :
  handshake_first (state_of o) -> handshake_first (land o).
Proof.
  intros H. eapply handshake_first_wire_effect; [exact H|].
  apply wire_effect_land, wire_effect_refl.
Qed.

Lemma handshake_first_step (s : stream) (ev : event) :
  handshake_first s -> handshake_first (step fromHeader s ev).
Proof.
  intros HA.
  destruct ev;
    try (eapply handshake_first_wire_effect; [exact HA|by apply wire_effect_step]).
  unfold step. apply handshake_first_land.
  eapply handshake_first_wire_effect; [|apply calm_run_tick].
  simpl. by apply handshake_first_land, handshake_first_onopen.
Qed.

Lemma handshake_first_new_stream (opts : gmap string value) (hwm : N) :
  handshake_first (new_stream opts hwm).
Proof. by split_and!. Qed.

End Steps.

(** ** No audio before the socket opens *)

Section Opened.
Variable fromHeader : chunk -> value.

Lemma opened_if_sent (s : stream) (evs : list event) :
  socket_is_open s = false -> sent s = [] ->
  sent (run fromHeader s evs) ≠ [] -> SocketOpen ∈ evs.
Proof.
  revert s. induction evs as [|ev evs IH]; intros s Hc Hs Hne; simpl in *; [done|].
  assert (ev = SocketOpen ∨ ev ≠ SocketOpen) as [->|Hev]
    by (destruct ev; (by left) || (by right)).
  { apply list_elem_of_here. }
  destruct (wire_effect_step fromHeader s ev Hev) as (_ & Hclosed & _).
  destruct (Hclosed Hc) as [Hs' Hc'].
  apply list_elem_of_further, (IH (step fromHeader s ev)); [done|congruence|done].
Qed.

End Opened.

(** C1, as first stated, fails: a chunk written to a fresh stream goes
    out when the socket opens, right after the opening message, although
    no frame at all has come in. *)
Lemma C1_audio_sent_before_listening :
  let evs := [Write wav_chunk; SocketOpen] in
  let s := run riff_sniffer (new_stream wav_options 16384) evs in
  sent s = [Text (openingMessage wav_options); Binary wav_chunk]
  ∧ listening s = false
  ∧ Forall (fun ev => match ev with SocketMessage _ => False | _ => True end) evs.
Proof. split_and!; [by vm_compute..|]. repeat constructor. Qed.

(** C1, amended. For every sequence of calls and socket events, no audio
    chunk is sent before the socket has opened: when a binary chunk is on
    the wire, the socket's open event has happened and the first thing on
    the wire is the opening message, with action ["start"]; the stream
    does not wait for a [listening] frame. *)
Theorem C1_audio_only_after_open (fromHeader : chunk -> value)
    (opts : gmap string value) (hwm : N) (evs : list event) (c : chunk) :
  Binary c ∈ sent (run fromHeader (new_stream opts hwm) evs) ->
  SocketOpen ∈ evs
  ∧ starts_with_handshake (sent (run fromHeader (new_stream opts hwm) evs)).
Proof.
  intros Hc.
  assert (sent (run fromHeader (new_stream opts hwm) evs) ≠ []) as Hne.
  { intros E. rewrite E in Hc. by apply not_elem_of_nil in Hc. }
  split.
  - by apply (opened_if_sent fromHeader (new_stream opts hwm)).
  - assert (handshake_first (run fromHeader (new_stream opts hwm) evs)) as (_ & _ & H).
    { apply run_invariant; [apply handshake_first_new_stream|].
      intros. by apply handshake_first_step. }
    by apply H.
Qed.

Lemma C1_audio_only_after_open_witness :
  Binary wav_chunk ∈ sent (run riff_sniffer (new_stream wav_options 16384)
                             [Write wav_chunk; SocketOpen])
  ∧ SocketOpen ∈ [Write wav_chunk; SocketOpen]
  ∧ starts_with_handshake (sent (run riff_sniffer (new_stream wav_options 16384)
                                   [Write wav_chunk; SocketOpen])).
Proof.
  assert (Binary wav_chunk ∈ sent (run riff_sniffer (new_stream wav_options 16384)
                                     [Write wav_chunk; SocketOpen])) as H.
  { vm_compute. apply list_elem_of_further, list_elem_of_here. }
  split; [exact H|]. exact (C1_audio_only_after_open _ _ _ _ _ H).
Defined.

(** ** The stop message *)

Lemma keeps_stop_once_and_then (h1 h2 : stream -> outcome) :
  keeps_stop_once h1 -> keeps_stop_once h2 -> keeps_stop_once (fun s => h1 s >>> h2).
Proof.
  intros H1 H2 s Hs. specialize (H1 s Hs).
  destruct (h1 s) as [s1|s1]; simpl in *; [by apply H2|done].
Qed.

Lemma stop_once_same (s s' : stream) :
  sent s' = sent s -> once_open s' = once_open s -> finished s' = finished s ->
  (opening_ok s -> opening_ok s') ->
  stop_once s -> stop_once s'.
Proof.
  unfold stop_once, stops_sent, stops_pending. intros -> -> -> Hk [H1 H2]. auto.
Qed.

Ltac unchanged :=
  match goal with
  | H : stop_once ?s |- stop_once _ =>
      apply (stop_once_same s); [reflexivity..|done|exact H]
  end.

Lemma stop_once_socket_send (w : wire) (s : stream) :
  is_stop w = false -> stop_once s -> stop_once (state_of (socket_send w s)).
Proof.
  intros Hw Hs. unfold socket_send. destruct (socket_is_open s); simpl; [|done].
  destruct Hs as [Hk Hb]. split; [done|].
  unfold stops_sent, stops_pending in *. simpl.
  rewrite List.filter_app, length_app. simpl. rewrite Hw. simpl. lia.
Qed.

Lemma keeps_stop_once_sendData (c : chunk) : keeps_stop_once (sendData c).
Proof.
  intros s Hs. unfold sendData. apply stop_once_socket_send; [done|]. unchanged.
Qed.

Lemma keeps_stop_once_afterSend : keeps_stop_once afterSend.
Proof.
  intros s Hs. unfold afterSend. destruct (socket s); simpl; [|done].
  destruct (_ <=? _)%N; simpl; unchanged.
Qed.

Lemma is_stop_closingMessage : is_stop (Text closingMessage) = true.
Proof. reflexivity. Qed.

Lemma stops_sent_sendJSON (msg : gmap string value) (s : stream) :
  stops_sent (state_of (sendJSON msg s)) <=
    stops_sent s + (if is_stop (Text msg) then 1 else 0).
Proof.
  unfold sendJSON, socket_send, stops_sent.
  destruct (is_stop (Text msg)) eqn:Hb;
    (destruct (socket_is_open _); simpl; [|lia]);
    rewrite List.filter_app, length_app; cbn [List.filter]; rewrite Hb; simpl; lia.
Qed.

Lemma sendJSON_frame (msg : gmap string value) (s : stream) :
  let s' := state_of (sendJSON msg s) in
  once_open s' = once_open s ∧ finished s' = finished s ∧ socket s' = socket s.
Proof.
  unfold sendJSON, socket_send. by destruct (socket_is_open _).
Qed.

Lemma keeps_stop_once_finish : keeps_stop_once finish.
Proof.
  intros s Hs. unfold finish. destruct (finished s) eqn:F; [exact Hs|].
  destruct Hs as [Hk Hb]. rewrite F in Hb.
  destruct (socket_is_open _) eqn:E.
  - pose proof (stops_sent_sendJSON closingMessage (set_finished true s)) as Hle.
    rewrite is_stop_closingMessage in Hle.
    destruct (sendJSON_frame closingMessage (set_finished true s)) as (Ho & Hf & Hsock).
    split.
    + unfold opening_ok. by rewrite Hsock.
    + unfold stops_pending in *. rewrite Ho, Hf.
      change (stops_sent (set_finished true s)) with (stops_sent s) in Hle.
      change (once_open (set_finished true s)) with (once_open s).
      change (finished (set_finished true s)) with true. cbv iota. lia.
  - simpl. split; [done|].
    unfold stops_sent, stops_pending in *. simpl.
    rewrite List.filter_app, length_app. simpl. lia.
Qed.

Lemma keeps_stop_once_stop : keeps_stop_once stop.
Proof. intros s Hs. unfold stop. apply keeps_stop_once_finish. unchanged. Qed.

Lemma keeps_stop_once_initialize : keeps_stop_once initialize.
Proof.
  intros s Hs. destruct (initialize s) as [s'|s'] eqn:E; simpl.
  - apply initialize_Normal in E as [_ ->].
    apply (stop_once_same s); [reflexivity..| |exact Hs].
    intros _ ws [= <-]. apply openingMessage_action.
  - apply initialize_Threw in E as [_ ->]. unchanged.
Qed.

Lemma keeps_stop_once_emit_error (e : error_kind) : keeps_stop_once (emit_error e).
Proof. intros s Hs. unfold emit_error. destruct (on_error s); simpl; unchanged. Qed.

Lemma keeps_stop_once_end_output : keeps_stop_once (fun s => Normal (push VNull s)).
Proof. intros s Hs. simpl. unchanged. Qed.

(** The opening message is not a stop message. *)
Lemma is_stop_opening (msg : gmap string value) :
  msg !! "action" = Some (VStr "start") -> is_stop (Text msg) = false.
Proof. intros H. simpl. by rewrite H. Qed.

Lemma stop_once_run_open_listeners (ls : list open_listener) (s : stream) :
  once_open s = ls -> stop_once s -> stop_once (state_of (run_open_listeners ls s)).
Proof.
  revert s. induction ls as [|l rest IH]; intros s Hl Hs; simpl; [done|].
  assert (stop_once (state_of (run_open_listener l (set_once_open rest s)))
          ∧ once_open (state_of (run_open_listener l (set_once_open rest s))) = rest)
    as [H1 H2].
  { destruct Hs as [Hk Hb]. unfold stops_pending in Hb. rewrite Hl in Hb.
    destruct l as [c|]; simpl in *.
    - split.
      + apply (keeps_stop_once_and_then (sendData c) afterSend);
          [apply keeps_stop_once_sendData|apply keeps_stop_once_afterSend|].
        split; [done|]. unfold stops_sent, stops_pending in *. simpl. lia.
      + unfold sendData, socket_send, afterSend.
        destruct (socket_is_open _); simpl; [|done].
        destruct (socket s); simpl; [|done]. by destruct (_ <=? _)%N.
    - pose proof (stops_sent_sendJSON closingMessage (set_once_open rest s)) as Hle.
      rewrite is_stop_closingMessage in Hle.
      destruct (sendJSON_frame closingMessage (set_once_open rest s)) as (Ho & Hf & Hsock).
      split; [|done]. split.
      + unfold opening_ok. by rewrite Hsock.
      + unfold stops_pending. rewrite Ho, Hf.
        change (stops_sent (set_once_open rest s)) with (stops_sent s) in Hle.
        change (once_open (set_once_open rest s)) with rest.
        change (finished (set_once_open rest s)) with (finished s). lia. }
  destruct (run_open_listener l (set_once_open rest s)) as [s1|s1]; simpl in *; [|done].
  by apply IH.
Qed.

Lemma keeps_stop_once_onopen : keeps_stop_once onopen.
Proof.
  intros s Hs. unfold onopen. destruct (socket s) as [ws|] eqn:E; simpl; [|done].
  assert (stop_once (state_of (sendJSON (ws_opening ws) s))) as H1.
  { unfold sendJSON. apply stop_once_socket_send; [|unchanged].
    apply is_stop_opening. by apply Hs. }
  pose proof (sendJSON_frame (ws_opening ws) s) as (Ho & _).
  destruct (sendJSON (ws_opening ws) s) as [s1|s1]; simpl in *; [|done].
  unfold emit_open. apply stop_once_run_open_listeners; [done|]. unchanged.
Qed.

Lemma stop_once_socket_update (s : stream) (ws ws' : websocket) :
  socket s = Some ws -> ws_opening ws' = ws_opening ws ->
  stop_once s -> stop_once (set_socket (Some ws') s).
Proof.
  intros E Ho Hs. apply (stop_once_same s); [reflexivity..| |exact Hs].
  intros Hk w [= <-]. rewrite Ho. by apply Hk.
Qed.

Lemma stop_once_socket_close (s : stream) : stop_once s -> stop_once (socket_close s).
Proof.
  intros Hs. unfold socket_close. destruct (socket s) as [ws|] eqn:E; [|done].
  destruct (readyState ws); try done; by apply (stop_once_socket_update s ws).
Qed.

Lemma stop_once_set_readyState (r : ready_state) (s : stream) :
  stop_once s -> stop_once (set_readyState r s).
Proof.
  intros Hs. unfold set_readyState. destruct (socket s) as [ws|] eqn:E; [|done].
  by apply (stop_once_socket_update s ws).
Qed.

Lemma stop_once_set_bufferedAmount (n : N) (s : stream) :
  stop_once s -> stop_once (set_bufferedAmount n s).
Proof.
  intros Hs. unfold set_bufferedAmount. destruct (socket s) as [ws|] eqn:E; [|done].
  by apply (stop_once_socket_update s ws).
Qed.

Lemma keeps_stop_once_push_final (result : value) : keeps_stop_once (push_final result).
Proof.
  intros s Hs. unfold push_final. repeat (case_match; simpl; try done).
Qed.

Lemma keeps_stop_once_forEach_result (results : list value) :
  keeps_stop_once (forEach_result results).
Proof.
  induction results as [|r rs IH]; simpl; [by intros s Hs|].
  apply (keeps_stop_once_and_then (push_final r) (forEach_result rs));
    [apply keeps_stop_once_push_final|exact IH].
Qed.

Lemma keeps_stop_once_onmessage (f : frame) : keeps_stop_once (onmessage f).
Proof.
  intros s Hs. unfold onmessage.
  destruct f as [| |data]; simpl; try by apply keeps_stop_once_emit_error.
  repeat (case_match; simpl; try unchanged).
  - apply keeps_stop_once_emit_error. unchanged.
  - apply stop_once_socket_close. unchanged.
  - apply keeps_stop_once_forEach_result. unchanged.
Qed.

Lemma keeps_stop_once_onerror : keeps_stop_once onerror.
Proof.
  intros s Hs. unfold onerror.
  apply (keeps_stop_once_and_then (emit_error WEBSOCKET_CONNECTION_ERROR)
           (fun s => Normal (push VNull s)));
    [apply keeps_stop_once_emit_error|apply keeps_stop_once_end_output|].
  unchanged.
Qed.

Section StopOnce.
Variable fromHeader : chunk -> value.

Lemma keeps_stop_once_write_authorized (c : chunk) :
  keeps_stop_once (write_authorized fromHeader c).
Proof.
  intros s Hs. unfold write_authorized.
  destruct (finished s) eqn:F; simpl; [done|].
  destruct (initialized s); simpl.
  - by apply (keeps_stop_once_and_then (sendData c) afterSend);
      [apply keeps_stop_once_sendData|apply keeps_stop_once_afterSend|].
  - assert (forall s0 l, once_open s0 = l -> stop_once s0 ->
              stop_once (set_once_open (l ++ [SendFirstChunk c]) s0)) as Hadd.
    { intros s0 l <- [Hk Hb]. split; [done|]. unfold stops_sent, stops_pending in *. simpl.
      rewrite List.filter_app, length_app. simpl. lia. }
    assert (keeps_stop_once (fun s => initialize s >>> fun s =>
              Normal (set_once_open (once_open s ++ [SendFirstChunk c]) s))) as Hi.
    { apply (keeps_stop_once_and_then initialize); [apply keeps_stop_once_initialize|].
      intros s0 Hs0. by apply Hadd. }
    destruct (negb _ && negb _); [destruct (truthy _)|].
    + apply Hi. unchanged.
    + by apply (keeps_stop_once_and_then (emit_error ERROR_UNRECOGNIZED_FORMAT)
                  (fun s => Normal (push VNull s)));
        [apply keeps_stop_once_emit_error|apply keeps_stop_once_end_output|].
    + by apply Hi.
Qed.

Lemma keeps_stop_once__write (c : chunk) : keeps_stop_once (_write fromHeader c).
Proof.
  intros s Hs. unfold _write. case_match; simpl;
    [unchanged|by apply keeps_stop_once_write_authorized].
Qed.

Lemma keeps_stop_once_token_callback (r : token_result) (c : chunk) :
  keeps_stop_once (token_callback fromHeader r c).
Proof.
  apply (keeps_stop_once_and_then _
           (fun s => write_authorized fromHeader c (set_options _ s))).
  - destruct r; [|by intros s Hs].
    apply (keeps_stop_once_and_then (emit_error TokenError) (fun s => Normal (push VNull s)));
      [apply keeps_stop_once_emit_error|apply keeps_stop_once_end_output].
  - intros s Hs. apply keeps_stop_once_write_authorized. unchanged.
Qed.

Lemma keeps_stop_once_finishMaybe : keeps_stop_once finishMaybe.
Proof.
  intros s Hs. unfold finishMaybe.
  destruct (_ && _ && _ && _); [|done].
  destruct (on_finish _); [apply keeps_stop_once_finish|]; unchanged.
Qed.

Lemma keeps_stop_once_write (c : chunk) : keeps_stop_once (write fromHeader c).
Proof.
  intros s Hs. unfold write. repeat (case_match; simpl; try unchanged).
  - by apply keeps_stop_once_emit_error.
  - apply keeps_stop_once__write. unchanged.
Qed.

Lemma keeps_stop_once_end_ : keeps_stop_once end_.
Proof. intros s Hs. unfold end_. apply keeps_stop_once_finishMaybe. unchanged. Qed.

Lemma keeps_stop_once_onwrite (waiting : list chunk) :
  keeps_stop_once (onwrite fromHeader waiting).
Proof.
  induction waiting as [|c rest IH]; intros s Hs; simpl.
  - apply keeps_stop_once_finishMaybe. unchanged.
  - assert (stop_once (state_of (_write fromHeader c (set_buffer rest s)))) as Hw.
    { apply keeps_stop_once__write. unchanged. }
    destruct (_write fromHeader c (set_buffer rest s)) as [s'|s']; simpl in *; [|done].
    destruct (tick s'); simpl; [|done]. apply IH. unchanged.
Qed.

Lemma keeps_stop_once_run_tick : keeps_stop_once (run_tick fromHeader).
Proof.
  intros s Hs. unfold run_tick. destruct (tick s); simpl; [|done].
  apply keeps_stop_once_onwrite. unchanged.
Qed.

Lemma keeps_stop_once_handle (ev : event) : keeps_stop_once (handle fromHeader ev).
Proof.
  intros s Hs. destruct ev; simpl.
  - by apply keeps_stop_once_write.
  - by apply keeps_stop_once_end_.
  - by apply keeps_stop_once_stop.
  - by apply keeps_stop_once_finish.
  - destruct (awaiting_token s); simpl; [|done].
    apply keeps_stop_once_token_callback. unchanged.
  - destruct (timer s); simpl; [|done]. apply keeps_stop_once_afterSend. unchanged.
  - by apply stop_once_set_bufferedAmount.
  - by apply keeps_stop_once_onopen, stop_once_set_readyState.
  - destruct (socket s); simpl; [|done]. by apply keeps_stop_once_onmessage.
  - destruct (socket s); simpl; [|done].
    by apply keeps_stop_once_onerror, stop_once_set_readyState.
  - destruct (socket s); simpl; [|done].
    pose proof (stop_once_set_readyState CLOSED s Hs). unfold onclose. simpl. unchanged.
  - unchanged.
Qed.

Lemma stop_once_land (o : outcome) : stop_once (state_of o) -> stop_once (land o).
Proof. intros H. destruct o; simpl in *; [done|unchanged]. Qed.

Lemma stop_once_step (s : stream) (ev : event) :
  stop_once s -> stop_once (step fromHeader s ev).
Proof.
  intros Hs. unfold step.
  by apply stop_once_land, keeps_stop_once_run_tick, stop_once_land, keeps_stop_once_handle.
Qed.

Lemma stop_once_new_stream (opts : gmap string value) (hwm : N) :
  stop_once (new_stream opts hwm).
Proof. split; [done|]. unfold stops_sent, stops_pending. simpl. lia. Qed.

End StopOnce.

(** ** The 'open' event *)

(** With the socket open, the listeners of 'open' all run, and each sends
    its message. *)
Lemma run_open_listeners_open (ls : list open_listener) (s : stream) :
  socket_is_open s = true ->
  exists s', run_open_listeners ls s = Normal s'
    ∧ sent s' = sent s ++ map wire_of_listener ls
    ∧ socket s' = socket s
    ∧ once_open s' = match ls with [] => once_open s | _ => [] end.
Proof.
  revert s. induction ls as [|l rest IH]; intros s Ho; simpl.
  - exists s. by rewrite app_nil_r.
  - assert (exists s1, run_open_listener l (set_once_open rest s) = Normal s1
              ∧ sent s1 = sent s ++ [wire_of_listener l]
              ∧ socket s1 = socket s ∧ once_open s1 = rest) as (s1 & -> & Hs1 & Hk1 & Ho1).
    { destruct l as [c|]; simpl; unfold sendData, sendJSON, socket_send, afterSend;
        change (socket_is_open (emit _ (set_once_open rest s))) with (socket_is_open s);
        rewrite Ho; simpl.
      - unfold socket_is_open in Ho. destruct (socket s) as [ws|] eqn:E; [|done].
        destruct (_ <=? _)%N; (eexists; split; [reflexivity|]); by split_and!.
      - (eexists; split; [reflexivity|]); by split_and!. }
    simpl. destruct (IH s1) as (s' & -> & Hs' & Hk' & Ho').
    { unfold socket_is_open in *. by rewrite Hk1. }
    exists s'. split_and!; [done| | |].
    + rewrite Hs', Hs1. by rewrite <- app_assoc.
    + congruence.
    + rewrite Ho'. by destruct rest.
Qed.

(** ** [finish] *)

Lemma finish_unfold (s : stream) :
  finish s =
    if finished s then Normal s
    else if socket_is_open s
         then Normal (set_sent (sent s ++ [Text closingMessage])
                        (emit (EvSendJSON closingMessage) (set_finished true s)))
         else Normal (set_once_open (once_open s ++ [SendStop]) (set_finished true s)).
Proof.
  unfold finish. destruct (finished s); [done|].
  change (socket_is_open (set_finished true s)) with (socket_is_open s).
  destruct (socket_is_open s) eqn:E; [|done].
  unfold sendJSON, socket_send.
  change (socket_is_open (emit _ (set_finished true s))) with (socket_is_open s).
  by rewrite E.
Qed.

Lemma finish_Normal (s : stream) :
  exists s', finish s = Normal s' ∧ finished s' = true.
Proof.
  rewrite finish_unfold. destruct (finished s) eqn:F; [by exists s|].
  destruct (socket_is_open s); by eexists.
Qed.

Lemma finish_n_once (n : nat) (s : stream) : 1 <= n -> finish_n n s = finish s.
Proof.
  intros Hn. destruct n as [|n]; [lia|]. clear Hn.
  induction n as [|n IH]; [done|].
  change (finish_n (S (S n)) s) with (finish_n (S n) s >>> finish). rewrite IH.
  destruct (finish_Normal s) as (s' & -> & F). simpl.
  unfold finish. by rewrite F.
Qed.

(** When the socket opens, the opening message goes out first, and after
    it what the listeners of 'open' had waiting, in the order they were
    registered. *)
Lemma onopen_sent (s : stream) (ws : websocket) :
  socket s = Some ws ->
  exists s', onopen (set_readyState OPEN s) = Normal s'
    ∧ sent s' = sent s ++ Text (ws_opening ws) :: map wire_of_listener (once_open s)
    ∧ socket_is_open s' = true.
Proof.
  intros E. unfold onopen, set_readyState. rewrite E. cbn [socket set_socket ws_opening].
  unfold sendJSON, socket_send. unfold socket_is_open at 1. cbn.
  unfold emit_open.
  match goal with |- context [run_open_listeners ?ls ?s1] =>
    destruct (run_open_listeners_open ls s1) as (s' & Hr & Hs & Hk & _); [done|]
  end.
  cbn in Hr. rewrite Hr. exists s'. split; [done|]. split.
  - rewrite Hs. cbn. by rewrite <- app_assoc.
  - unfold socket_is_open. by rewrite Hk.
Qed.

Section Finish.
Variable fromHeader : chunk -> value.

Lemma sent_land (o : outcome) : sent (land o) = sent (state_of o).
Proof. by destruct o. Qed.

(** What waits for 'open' is sent when the socket opens. *)
Lemma listener_sent_on_open (s : stream) (l : open_listener) :
  socket s ≠ None -> l ∈ once_open s ->
  wire_of_listener l ∈ sent (step fromHeader s SocketOpen).
Proof.
  intros Hk Hin. destruct (socket s) as [ws|] eqn:E; [|done].
  destruct (onopen_sent s ws E) as (s' & Ho & Hs & _).
  unfold step. cbn [handle]. rewrite Ho. cbn [land].
  rewrite sent_land.
  destruct (calm_run_tick fromHeader s') as [Hp _].
  eapply elem_of_prefix; [|exact Hp].
  rewrite Hs. apply elem_of_app. right. apply list_elem_of_further.
  apply (list_elem_of_fmap_2 wire_of_listener _ l Hin).
Qed.

Lemma stops_sent_run (opts : gmap string value) (hwm : N) (evs : list event) :
  stops_sent (run fromHeader (new_stream opts hwm) evs) <= 1.
Proof.
  assert (stop_once (run fromHeader (new_stream opts hwm) evs)) as [_ H].
  { apply run_invariant; [apply stop_once_new_stream|].
    intros. by apply stop_once_step. }
  destruct (finished _); lia.
Qed.

End Finish.

(** C3, as first stated, fails: after the service has closed the
    connection, [finish()], called twice, sends no stop message at all. *)
Lemma C3_no_stop_on_closed_connection :
  let s := run riff_sniffer (new_stream wav_options 16384)
             [Write wav_chunk; SocketOpen; SocketClose 1000 ""; Finish; Finish] in
  finished s = true
  ∧ sent s = [Text (openingMessage wav_options); Binary wav_chunk]
  ∧ stops_sent s = 0.
Proof. by vm_compute. Qed.

(** C3, amended. [finish()] is idempotent: [n >= 1] calls in a row do what
    one call does.  The first call sends exactly one stop message at once
    when the socket is open; otherwise it sends nothing and registers one
    deferred send, which goes out when the socket opens.  Over any
    sequence of calls ([finish], [stop], end of input) and events, at most
    one stop message is sent. *)
Theorem C3_finish_idempotent (fromHeader : chunk -> value) (s : stream) (n : nat)
    (opts : gmap string value) (hwm : N) (evs : list event) :
  1 <= n ->
  finish_n n s = finish s
  ∧ finish s =
      (if finished s then Normal s
       else if socket_is_open s
            then Normal (set_sent (sent s ++ [Text closingMessage])
                           (emit (EvSendJSON closingMessage) (set_finished true s)))
            else Normal (set_once_open (once_open s ++ [SendStop]) (set_finished true s)))
  ∧ (socket s ≠ None -> SendStop ∈ once_open s ->
     Text closingMessage ∈ sent (step fromHeader s SocketOpen))
  ∧ stops_sent (run fromHeader (new_stream opts hwm) evs) <= 1.
Proof.
  intros Hn. split_and!.
  - by apply finish_n_once.
  - apply finish_unfold.
  - apply (listener_sent_on_open fromHeader s SendStop).
  - apply stops_sent_run.
Qed.

Lemma C3_finish_idempotent_witness :
  let s := run riff_sniffer (new_stream wav_options 16384) [Write wav_chunk; SocketOpen] in
  finish_n 2 s = finish s
  ∧ stops_sent (state_of (finish s)) = 1
  ∧ stops_sent (run riff_sniffer (new_stream wav_options 16384)
                  [Write wav_chunk; SocketOpen; Stop; Finish; End]) <= 1.
Proof.
  intros s.
  destruct (C3_finish_idempotent riff_sniffer s 2 wav_options 16384
              [Write wav_chunk; SocketOpen; Stop; Finish; End]) as (H1 & H2 & _ & H4);
    [lia|].
  split; [exact H1|]. split; [|exact H4]. by vm_compute.
Defined.

(** ** Error frames *)

Lemma onmessage_error (s : stream) (data e : value) :
  prop data "error" = Some e -> truthy e = true ->
  onmessage (FJson data) s =
    if on_error s
    then Normal (emit (EvError (ServiceError e)) (emit (EvMessage (FJson data)) s))
    else Threw (emit (EvMessage (FJson data)) s).
Proof.
  intros He Ht. unfold onmessage. rewrite He.
  destruct data; try done; simpl in *; rewrite Ht; unfold emit_error; fields; done.
Qed.

Section ErrorFrames.
Variable fromHeader : chunk -> value.

Lemma run_tick_idle (s : stream) : tick s = false -> run_tick fromHeader s = Normal s.
Proof. intros H. unfold run_tick. by rewrite H. Qed.

(** An error frame that comes in on the socket, with nothing queued for
    the next tick. *)
Lemma step_error_frame (s : stream) (data e : value) :
  prop data "error" = Some e -> truthy e = true ->
  socket s ≠ None -> tick s = false ->
  step fromHeader s (SocketMessage (FJson data)) =
    if on_error s
    then emit (EvError (ServiceError e)) (emit (EvMessage (FJson data)) s)
    else set_uncaught (S (uncaught s)) (emit (EvMessage (FJson data)) s).
Proof.
  intros He Ht Hk Htick. unfold step. cbn [handle].
  destruct (socket s) as [ws|] eqn:E; [|done].
  rewrite (onmessage_error s data e He Ht).
  destruct (on_error s); cbn [land]; by rewrite run_tick_idle.
Qed.

(** A chunk written to a connected, idle stream is sent at once. *)
Lemma write_when_accepting (s : stream) (c : chunk) :
  accepting s -> sent (step fromHeader s (Write c)) = sent s ++ [Binary c].
Proof.
  intros (Hi & Hf & Ho & Ht & Hw & He & Hb & Hk).
  unfold step. cbn [handle]. unfold write. rewrite He, Hw.
  unfold _write. cbn [options set_writing set_writableState]. rewrite Ht.
  unfold write_authorized. cbn [finished initialized set_writing set_writableState].
  rewrite Hf, Hi. cbn [negb].
  unfold sendData, socket_send.
  change (socket_is_open (emit _ (set_writing true s))) with (socket_is_open s).
  rewrite Ho. cbn [and_then].
  unfold afterSend. cbn [socket set_sent emit set_emitted set_writing set_writableState].
  unfold socket_is_open in Ho. destruct (socket s) as [ws|]; [|done].
  destruct (_ <=? _)%N; cbn [land].
  - unfold run_tick. simpl. rewrite Hb. simpl. unfold finishMaybe. simpl.
    rewrite He. by simpl.
  - rewrite run_tick_idle; [done|]. by simpl.
Qed.

(** A chunk written to a stream whose socket is no longer open is not
    sent: [socket.send] throws. *)
Lemma write_when_closed (s : stream) (c : chunk) :
  initialized s = true -> finished s = false -> socket_is_open s = false ->
  truthy (get (options s) "token_manager") = false ->
  writing (_writableState s) = false -> ending (_writableState s) = false ->
  tick s = false ->
  step fromHeader s (Write c)
  = set_uncaught (S (uncaught s)) (emit (EvSendData c) (set_writing true s)).
Proof.
  intros Hi Hf Ho Ht Hw He Hk.
  unfold step. cbn [handle]. unfold write. rewrite He, Hw.
  unfold _write. change (options (set_writing true s)) with (options s). rewrite Ht.
  unfold write_authorized.
  change (finished (set_writing true s)) with (finished s).
  change (initialized (set_writing true s)) with (initialized s).
  rewrite Hf, Hi. cbn [negb].
  unfold sendData, socket_send.
  change (socket_is_open (emit _ (set_writing true s))) with (socket_is_open s).
  rewrite Ho. cbn [and_then land].
  rewrite run_tick_idle by exact Hk. reflexivity.
Qed.

(** When the socket closes, the output ends; a chunk written after that
    is not sent. *)
Lemma write_after_close (s : stream) (code : Z) (reason : string) (c : chunk) :
  accepting s ->
  let s' := run fromHeader s [SocketClose code reason; Write c] in
  ended s' ∧ sent s' = sent s ∧ uncaught s' = S (uncaught s).
Proof.
  intros (Hi & Hf & Ho & Ht & Hw & He & Hb & Hk).
  unfold socket_is_open in Ho. destruct (socket s) as [ws|] eqn:E; [|done].
  set (s1 := emit (EvClose code reason) (push VNull (set_listening false
               (set_socket (Some {| readyState := CLOSED; bufferedAmount := bufferedAmount ws;
                                    ws_query := ws_query ws; ws_opening := ws_opening ws |})
                  s)))).
  assert (step fromHeader s (SocketClose code reason) = s1) as H1.
  { unfold step. cbn [handle]. rewrite E. unfold onclose, set_readyState. rewrite E.
    cbn [land]. rewrite run_tick_idle by exact Hk. reflexivity. }
  intros s'. subst s'. cbn [run fold_left]. rewrite H1.
  rewrite write_when_closed by done.
  split_and!; [|done..].
  unfold ended. subst s1. simpl. apply elem_of_app. right. apply list_elem_of_here.
Qed.

(** When the socket fails, the output ends if somebody listens for
    'error'; if nobody does, the handler throws before it ends the
    output.  Either way a chunk written after that is not sent. *)
Lemma write_after_error (s : stream) (c : chunk) :
  accepting s ->
  let s' := run fromHeader s [SocketError; Write c] in
  sent s' = sent s
  ∧ if on_error s
    then ended s' ∧ emitted s' = emitted s ++ [EvError WEBSOCKET_CONNECTION_ERROR; EvSendData c]
         ∧ uncaught s' = S (uncaught s)
    else pushed s' = pushed s ∧ emitted s' = emitted s ++ [EvSendData c]
         ∧ uncaught s' = S (S (uncaught s)).
Proof.
  intros (Hi & Hf & Ho & Ht & Hw & He & Hb & Hk).
  unfold socket_is_open in Ho. destruct (socket s) as [ws|] eqn:E; [|done].
  set (s0 := set_listening false
               (set_socket (Some {| readyState := CLOSED; bufferedAmount := bufferedAmount ws;
                                    ws_query := ws_query ws; ws_opening := ws_opening ws |})
                  s)).
  assert (step fromHeader s SocketError
          = if on_error s then push VNull (emit (EvError WEBSOCKET_CONNECTION_ERROR) s0)
            else set_uncaught (S (uncaught s)) s0) as H1.
  { unfold step. cbn [handle]. rewrite E. unfold onerror, set_readyState. rewrite E.
    unfold emit_error. fold s0. change (on_error s0) with (on_error s).
    destruct (on_error s); cbn [and_then land]; by rewrite run_tick_idle. }
  intros s'. subst s'. cbn [run fold_left]. rewrite H1.
  destruct (on_error s).
  - rewrite write_when_closed by done.
    split_and!; [done| |by subst s0; fields; rewrite <- app_assoc|done].
    unfold ended. subst s0. fields. apply elem_of_app. right. apply list_elem_of_here.
  - rewrite write_when_closed by done. by split_and!.
Qed.

End ErrorFrames.

(** C2, as first stated, fails: after an error frame the output has not
    ended, and a chunk pushed next is sent like any other, whether or not
    somebody listens for 'error'. *)
Lemma C2_push_succeeds_after_error_frame :
  let evs := [Write wav_chunk; SocketOpen; SocketMessage listening_frame;
              SocketMessage error_frame; Write noise_chunk] in
  let s := run riff_sniffer (new_stream wav_options 16384) (OnError :: evs) in
  let s' := run riff_sniffer (new_stream wav_options 16384) evs in
  (pushed s = []
   ∧ sent s = [Text (openingMessage wav_options); Binary wav_chunk; Binary noise_chunk]
   ∧ uncaught s = 0)
  ∧ (pushed s' = []
     ∧ sent s' = [Text (openingMessage wav_options); Binary wav_chunk; Binary noise_chunk]).
Proof. by vm_compute. Qed.

(** C2, amended. In every stream state, the handler of an inbound frame
    with a truthy [error] emits the 'message' event and then one 'error'
    event that carries the frame's error, and does nothing else: no flag
    changes, nothing is pushed to the output (it is not ended by the
    frame) and nothing is sent.  If nobody listens for 'error', that
    event is not delivered: the emitter throws the error out of the
    handler instead.  A chunk pushed next to a connected, idle stream is
    sent as before.  The output ends only when the socket then closes, or
    fails while somebody listens for 'error' (if nobody does, the
    handler of the failure throws before it ends the output); a chunk
    pushed after that is not sent: [socket.send] throws. *)
Theorem C2_error_frame_only_emits (fromHeader : chunk -> value) (s : stream)
    (data e : value) (c : chunk) (code : Z) (reason : string) :
  prop data "error" = Some e -> truthy e = true ->
  let s0 := emit (EvMessage (FJson data)) s in
  let s1 := step fromHeader s (SocketMessage (FJson data)) in
  onmessage (FJson data) s =
    (if on_error s then Normal (emit (EvError (ServiceError e)) s0) else Threw s0)
  ∧ (socket s ≠ None -> tick s = false ->
     s1 = if on_error s then emit (EvError (ServiceError e)) s0
          else set_uncaught (S (uncaught s)) s0)
  ∧ (accepting s ->
     sent (step fromHeader s1 (Write c)) = sent s ++ [Binary c]
     ∧ (let s' := run fromHeader s1 [SocketClose code reason; Write c] in
        ended s' ∧ sent s' = sent s ∧ uncaught s' = S (uncaught s1))
     ∧ (let s' := run fromHeader s1 [SocketError; Write c] in
        sent s' = sent s
        ∧ if on_error s
          then ended s' ∧ uncaught s' = S (uncaught s1)
          else pushed s' = pushed s ∧ uncaught s' = S (S (uncaught s1)))).
Proof.
  intros He Ht s0 s1.
  split; [by apply onmessage_error|].
  split; [by apply step_error_frame|].
  intros Ha.
  assert (s1 = if on_error s then emit (EvError (ServiceError e)) s0
               else set_uncaught (S (uncaught s)) s0) as Hs1.
  { destruct Ha as (_ & _ & Ho & _ & _ & _ & _ & Hk).
    apply step_error_frame; [done..| |done].
    unfold socket_is_open in Ho. by destruct (socket s). }
  assert (accepting s1 ∧ sent s1 = sent s ∧ pushed s1 = pushed s
          ∧ on_error s1 = on_error s) as (Ha1 & Hsent & Hpushed & Hon).
  { rewrite Hs1. destruct (on_error s) eqn:Eo; by split_and!. }
  split_and!.
  - by rewrite write_when_accepting, Hsent.
  - rewrite <- Hsent. by apply write_after_close.
  - pose proof (write_after_error fromHeader s1 c Ha1) as [H1 H2].
    rewrite Hon, Hsent, Hpushed in *. split; [exact H1|].
    destruct (on_error s); [by destruct H2 as (? & _ & ?)|by destruct H2 as (? & _ & ?)].
Qed.

Lemma C2_error_frame_only_emits_witness :
  let s := run riff_sniffer (new_stream wav_options 16384)
             [OnError; Write wav_chunk; SocketOpen; SocketMessage listening_frame] in
  let data := VObj [("error", VStr "session timed out")] in
  let s1 := step riff_sniffer s (SocketMessage (FJson data)) in
  onmessage (FJson data) s =
    (if on_error s
     then Normal (emit (EvError (ServiceError (VStr "session timed out")))
                    (emit (EvMessage (FJson data)) s))
     else Threw (emit (EvMessage (FJson data)) s))
  ∧ sent (step riff_sniffer s1 (Write noise_chunk)) = sent s ++ [Binary noise_chunk]
  ∧ ended (run riff_sniffer s1 [SocketClose 1011 "error"; Write noise_chunk]).
Proof.
  intros s data s1.
  destruct (C2_error_frame_only_emits riff_sniffer s data (VStr "session timed out")
              noise_chunk 1011 "error" eq_refl eq_refl) as (H1 & _ & H3).
  split; [exact H1|].
  assert (accepting s) as Ha by (vm_compute; repeat split).
  destruct (H3 Ha) as (H4 & H5 & _).
  split; [exact H4|exact (proj1 H5)].
Defined.

(** ** Results frames *)

Lemma prop_field (v : value) (k : string) :
  is_nullish v = false -> prop v k = Some (field v k).
Proof. unfold field. by destruct v. Qed.

Lemma index0_first (v : value) : truthy v = true -> index0 v = Some (first v).
Proof. unfold first. destruct v as [| | | |[|a s]| |]; done. Qed.

Lemma final_transcripts_app (l1 l2 : list value) :
  final_transcripts (l1 ++ l2) = final_transcripts l1 ++ final_transcripts l2.
Proof. unfold final_transcripts. apply flat_map_app. Qed.

Lemma final_transcripts_cons (r : value) (rs : list value) :
  final_transcripts (r :: rs) = final_transcripts [r] ++ final_transcripts rs.
Proof. apply (final_transcripts_app [r] rs). Qed.

Lemma push_final_readable (result : value) (s : stream) :
  readable_result result = true ->
  push_final result s = Normal (set_pushed (pushed s ++ final_transcripts [result]) s)
  ∨ (final_transcripts [result] = [] ∧ push_final result s = Normal s).
Proof.
  unfold readable_result, push_final, final_transcripts. simpl.
  intros [Hn Hr]%andb_prop. apply negb_true_iff in Hn.
  rewrite !(prop_field result) by done.
  destruct (truthy (field result "final")); simpl in *; [|by right].
  destruct (truthy (field result "alternatives")) eqn:Ha; simpl in *; [|by right].
  apply negb_true_iff in Hr.
  rewrite (index0_first _ Ha), (prop_field _ _ Hr). by left.
Qed.

(** Results that are not final give nothing. *)
Lemma final_transcripts_interim (results : list value) :
  Forall (fun r => truthy (field r "final") = false) results ->
  final_transcripts results = [].
Proof.
  induction 1 as [|r rs Hr _ IH]; [done|].
  rewrite final_transcripts_cons, IH. unfold final_transcripts. simpl. by rewrite Hr.
Qed.

Lemma onmessage_result_frame (s : stream) (data : value) :
  is_result_frame data = true ->
  onmessage (FJson data) s =
    let s := emit (EvMessage (FJson data)) s in
    if truthy (get (options s) "readableObjectMode") then Normal (push data s)
    else match field data "results" with
         | VArr items => forEach_result items s
         | _ => Normal s
         end.
Proof.
  unfold is_result_frame. intros [[Hn He]%andb_prop Hl]%andb_prop.
  apply negb_true_iff in Hn, He, Hl.
  unfold onmessage. rewrite !(prop_field data) by done.
  cbv zeta. by rewrite He, Hl.
Qed.

Lemma onmessage_listening (s : stream) (data : value) :
  is_nullish data = false -> truthy (field data "error") = false ->
  is_listening (field data "state") = true ->
  pushed (state_of (onmessage (FJson data) s)) = pushed s.
Proof.
  intros Hn He Hl. unfold onmessage. rewrite !(prop_field data) by done.
  cbv zeta. rewrite He, Hl.
  destruct (listening _); simpl; [|done].
  unfold socket_close. simpl. destruct (socket s) as [ws|]; [|done].
  by destruct (readyState ws).
Qed.

(** One result either gives its text or makes [forEach] throw before
    anything is pushed for it. *)
Lemma push_final_cases (result : value) (s : stream) :
  (exists s', push_final result s = Normal s'
     ∧ pushed s' = pushed s ++ final_transcripts [result])
  ∨ (readable_result result = false ∧ push_final result s = Threw s).
Proof.
  destruct (readable_result result) eqn:Hr.
  - left. destruct (push_final_readable result s Hr) as [->|[-> ->]].
    + by eexists.
    + exists s. by rewrite app_nil_r.
  - right. split; [done|]. unfold readable_result, push_final in *.
    destruct (is_nullish result) eqn:Hn; [by destruct result|].
    rewrite !(prop_field result) by done. simpl in Hr.
    destruct (truthy (field result "final")); simpl in *; [|done].
    destruct (truthy (field result "alternatives")) eqn:Ha; simpl in *; [|done].
    apply negb_false_iff in Hr. rewrite (index0_first _ Ha).
    by destruct (first (field result "alternatives")).
Qed.

Lemma forEach_result_pushed (results : list value) (s : stream) :
  exists l, pushed (state_of (forEach_result results s)) = pushed s ++ l
    ∧ l `prefix_of` final_transcripts results
    ∧ (forallb readable_result results = true -> l = final_transcripts results).
Proof.
  revert s. induction results as [|r rs IH]; intros s; cbn [forEach_result forallb].
  - exists []. by rewrite app_nil_r.
  - rewrite final_transcripts_cons.
    destruct (push_final_cases r s) as [(s1 & -> & Hp)|[Hr ->]]; cbn [and_then state_of].
    + destruct (IH s1) as (l & Hl & Hpre & Hall).
      exists (final_transcripts [r] ++ l). split_and!.
      * by rewrite Hl, Hp, <- app_assoc.
      * by apply prefix_app.
      * intros [_ Hrs]%andb_prop. by rewrite Hall.
    + exists []. split_and!; [by rewrite app_nil_r|apply prefix_nil|].
      rewrite Hr. done.
Qed.

Lemma onmessage_text_mode (s : stream) (data : value) (results : list value) :
  is_result_frame data = true ->
  truthy (get (options s) "readableObjectMode") = false ->
  field data "results" = VArr results ->
  exists l, pushed (state_of (onmessage (FJson data) s)) = pushed s ++ l
    ∧ l `prefix_of` final_transcripts results
    ∧ (forallb readable_result results = true -> l = final_transcripts results).
Proof.
  intros Hf Hm Hr. rewrite (onmessage_result_frame s data Hf). cbv zeta.
  change (options (emit (EvMessage (FJson data)) s)) with (options s).
  rewrite Hm, Hr.
  destruct (forEach_result_pushed results (emit (EvMessage (FJson data)) s))
    as (l & Hl & Hpre & Hall).
  by exists l.
Qed.

(** C5, as first stated, fails: in object mode the output event is the
    whole parsed frame, with [result_index] and all, not the content of
    its [results] field. *)
Lemma C5_structured_output_is_whole_frame :
  let s := run riff_sniffer
             (new_stream {[ "objectMode" := VBool true; "content-type" := VStr "audio/wav" ]}
                16384)
             [Write wav_chunk; SocketOpen; SocketMessage listening_frame;
              SocketMessage (FJson hello_frame)] in
  pushed s = [hello_frame] ∧ pushed s ≠ [field hello_frame "results"].
Proof. split; [by vm_compute|]. vm_compute. discriminate. Qed.

(** C5, amended. For every inbound frame that parses to a value other
    than [null] and has no truthy [error]: a [listening] frame produces
    no output event, in either mode.  Otherwise, in object mode
    ([readableObjectMode]) exactly one output event is produced, and it is
    the whole parsed frame, unchanged; in text mode, if [results] is an
    array, the output events are transcripts of results flagged final, in
    order (all of them when every result can be read), results that are
    not final give nothing, and if [results] is not an array there is no
    output event. *)
Theorem C5_output_events (s : stream) (data : value) :
  is_nullish data = false -> truthy (field data "error") = false ->
  let s' := state_of (onmessage (FJson data) s) in
  if is_listening (field data "state") then pushed s' = pushed s
  else if truthy (get (options s) "readableObjectMode") then pushed s' = pushed s ++ [data]
  else match field data "results" with
       | VArr results =>
           (exists l, pushed s' = pushed s ++ l
              ∧ l `prefix_of` final_transcripts results
              ∧ (forallb readable_result results = true -> l = final_transcripts results))
           ∧ final_transcripts
               (List.filter (fun r => negb (truthy (field r "final"))) results) = []
       | _ => pushed s' = pushed s
       end.
Proof.
  intros Hn He s'. subst s'.
  destruct (is_listening (field data "state")) eqn:Hl; [by apply onmessage_listening|].
  assert (is_result_frame data = true) as Hf.
  { unfold is_result_frame. by rewrite Hn, He, Hl. }
  destruct (truthy (get (options s) "readableObjectMode")) eqn:Hm.
  - rewrite (onmessage_result_frame s data Hf). cbv zeta.
    change (options (emit (EvMessage (FJson data)) s)) with (options s).
    by rewrite Hm.
  - destruct (field data "results") as [| | | | |results|] eqn:Hr;
      try (rewrite (onmessage_result_frame s data Hf); cbv zeta;
           change (options (emit (EvMessage (FJson data)) s)) with (options s);
           by rewrite Hm, Hr).
    split; [by apply onmessage_text_mode|].
    apply final_transcripts_interim, Forall_forall.
    intros r Hin. apply list_elem_of_In, List.filter_In in Hin as [_ Hr'].
    by apply negb_true_iff.
Qed.

Lemma C5_output_events_witness :
  let s := new_stream wav_options 16384 in
  exists l, pushed (state_of (onmessage (FJson hello_frame) s)) = pushed s ++ l
    ∧ l `prefix_of` [VStr "hello world"].
Proof.
  intros s.
  destruct (C5_output_events s hello_frame eq_refl eq_refl) as [(l & Hl & Hp & _) _].
  exists l. split; [exact Hl|exact Hp].
Defined.

Lemma push_final_frame (result : value) (s : stream) :
  let s' := state_of (push_final result s) in
  sent s' = sent s ∧ emitted s' = emitted s.
Proof. unfold push_final. by repeat case_match. Qed.

Lemma push_final_unreadable (result : value) (s : stream) :
  readable_result result = false -> push_final result s = Threw s.
Proof.
  intros Hr. destruct (push_final_cases result s) as [(s' & E & _)|[_ E]]; [|exact E].
  exfalso. unfold push_final, readable_result in *.
  destruct (is_nullish result) eqn:Hn; [by destruct result|].
  rewrite !(prop_field result) in E by done. cbn [negb andb] in Hr.
  destruct (truthy (field result "final")); [|done].
  destruct (truthy (field result "alternatives")) eqn:Ha; [|done].
  cbn in Hr. apply negb_false_iff in Hr.
  rewrite (index0_first _ Ha) in E.
  by destruct (first (field result "alternatives")).
Qed.

(** [forEach] goes through the results that can be read and throws at
    the first one that cannot. *)
Lemma forEach_result_outcome (results : list value) (s : stream) :
  exists s', forEach_result results s
             = (if forallb readable_result results then Normal s' else Threw s')
    ∧ pushed s' = pushed s ++ final_transcripts (readable_prefix results)
    ∧ sent s' = sent s ∧ emitted s' = emitted s.
Proof.
  revert s.
  induction results as [|r rs IH]; intros s; cbn [forEach_result forallb readable_prefix].
  - exists s. by rewrite app_nil_r.
  - destruct (readable_result r) eqn:Hr; cbn [andb].
    + pose proof (push_final_frame r s) as [Es Ee].
      destruct (push_final_cases r s) as [(s1 & E1 & Hp)|[Hr' _]]; [|congruence].
      rewrite E1 in *. cbn [and_then state_of] in *.
      destruct (IH s1) as (s' & E' & Hp' & Es' & Ee').
      exists s'. split; [exact E'|]. rewrite final_transcripts_cons.
      rewrite Hp', Hp, <- app_assoc. split_and!; congruence.
    + rewrite (push_final_unreadable r s Hr). exists s. by rewrite app_nil_r.
Qed.

(** C10, as first stated, fails: the second result of this frame is final
    and has an empty list of alternatives; the handler throws there, and
    the transcript of the first alternative of the third result, which
    is final too, is never pushed. *)
Lemma C10_transcript_after_unreadable_result_lost :
  let s := run riff_sniffer (new_stream wav_options 16384)
             [Write wav_chunk; SocketOpen; SocketMessage listening_frame;
              SocketMessage (FJson broken_frame)] in
  let third := VObj [("final", VBool true);
                     ("alternatives", VArr [VObj [("transcript", VStr "three")]])] in
  (exists results, field broken_frame "results" = VArr results ∧ third ∈ results)
  ∧ is_result_frame broken_frame = true
  ∧ truthy (get (options s) "readableObjectMode") = false
  ∧ final_transcripts [third] = [VStr "three"]
  ∧ pushed s = [VStr "one"]
  ∧ uncaught s = 1.
Proof.
  split.
  - eexists. split; [reflexivity|]. do 2 apply list_elem_of_further. apply list_elem_of_here.
  - by vm_compute.
Qed.

(** C10, amended. In text mode, for every inbound frame that is neither
    an error frame nor a [listening] frame and whose [results] is an
    array, the results are gone through in order up to the first one
    that cannot be read (one that is [null], or one that is final with
    alternatives whose first alternative is missing): what is pushed is,
    in order, the transcript of the first alternative of each of them
    that is final and has alternatives, and nothing else; the handler
    returns if all results can be read and throws at the first that
    cannot, so that the results after it give nothing.  For one result:
    if it is final, exactly the transcript of its first alternative is
    pushed, and none of the other alternatives; if it is final without
    [alternatives], or is not final, nothing is pushed. *)
Theorem C10_first_alternative_only (s : stream) (data : value) (results : list value)
    (r a : value) (others : list value) :
  is_result_frame data = true ->
  truthy (get (options s) "readableObjectMode") = false ->
  field data "results" = VArr results ->
  (exists s', onmessage (FJson data) s
              = (if forallb readable_result results then Normal s' else Threw s')
     ∧ pushed s' = pushed s ++ final_transcripts (readable_prefix results)
     ∧ sent s' = sent s
     ∧ emitted s' = emitted s ++ [EvMessage (FJson data)])
  ∧ (is_nullish r = false -> truthy (field r "final") = true ->
     (field r "alternatives" = VArr (a :: others) -> is_nullish a = false ->
      push_final r s = Normal (push (field a "transcript") s)
      ∧ final_transcripts [r] = [field a "transcript"])
     ∧ (truthy (field r "alternatives") = false ->
        push_final r s = Normal s ∧ final_transcripts [r] = []))
  ∧ (is_nullish r = false -> truthy (field r "final") = false ->
     push_final r s = Normal s ∧ final_transcripts [r] = []).
Proof.
  intros Hf Hm Hr. split_and!.
  - rewrite (onmessage_result_frame s data Hf). cbv zeta.
    change (options (emit (EvMessage (FJson data)) s)) with (options s).
    rewrite Hm, Hr.
    destruct (forEach_result_outcome results (emit (EvMessage (FJson data)) s))
      as (s' & E & Hp & Hs & He).
    by exists s'.
  - intros Hn Hfin. unfold push_final, final_transcripts.
    rewrite !(prop_field r) by done. cbn [flat_map]. rewrite Hfin. split.
    + intros Ha Hna. rewrite Ha. cbn [truthy andb index0 hd first default from_option id].
      by rewrite (prop_field a) by done.
    + intros Ha. by rewrite Ha.
  - intros Hn Hfin. unfold push_final, final_transcripts.
    rewrite !(prop_field r) by done. cbn [flat_map]. by rewrite Hfin.
Qed.

Lemma C10_first_alternative_only_witness :
  let s := new_stream wav_options 16384 in
  let r := VObj [("final", VBool true);
                 ("alternatives", VArr [VObj [("transcript", VStr "hello world");
                                              ("confidence", VNum 1)];
                                        VObj [("transcript", VStr "hollow world")]])] in
  (exists s', onmessage (FJson hello_frame) s = Normal s'
     ∧ pushed s' = [VStr "hello world"])
  ∧ push_final r s = Normal (push (VStr "hello world") s)
  ∧ push_final (VObj [("final", VBool true)]) s = Normal s.
Proof.
  intros s r.
  destruct (C10_first_alternative_only s hello_frame
              [VObj [("final", VBool false);
                     ("alternatives", VArr [VObj [("transcript", VStr "hello")]])];
               r; VObj [("final", VBool true)]]
              r (VObj [("transcript", VStr "hello world"); ("confidence", VNum 1)])
              [VObj [("transcript", VStr "hollow world")]]
              eq_refl eq_refl eq_refl) as ((s' & E & Hp & _) & H2 & _).
  destruct (C10_first_alternative_only s hello_frame
              [VObj [("final", VBool false);
                     ("alternatives", VArr [VObj [("transcript", VStr "hello")]])];
               r; VObj [("final", VBool true)]]
              (VObj [("final", VBool true)]) VNull []
              eq_refl eq_refl eq_refl) as (_ & H3 & _).
  split; [exists s'; split; [exact E|exact Hp]|].
  split.
  - exact (proj1 (proj1 (H2 eq_refl eq_refl) eq_refl eq_refl)).
  - exact (proj1 (proj2 (H3 eq_refl eq_refl) eq_refl)).
Defined.

(** ** The first chunk *)

Lemma get_insert_ne (o : gmap string value) (k k' : string) (v : value) :
  k ≠ k' -> get (<[k := v]> o) k' = get o k'.
Proof. intros H. unfold get. by rewrite lookup_insert_ne. Qed.






Section FirstChunk.
Variable fromHeader : chunk -> value.





End FirstChunk.

Section FirstPush.
Variable fromHeader : chunk -> value.





End FirstPush.




(** ** Flow control *)

Lemma afterSend_drained (s : stream) :
  socket s ≠ None ->
  afterSend s = Normal (if drained s then set_tick true s else set_timer true s).
Proof.
  intros Hk. unfold afterSend, drained. destruct (socket s) as [ws|]; [|done].
  by destruct (_ <=? _)%N.
Qed.

Section FlowControl.
Variable fromHeader : chunk -> value.


Lemma step_write_while_writing (s : stream) (c : chunk) :
  writing (_writableState s) = true -> ending (_writableState s) = false ->
  tick s = false ->
  step fromHeader s (Write c) = set_buffer (buffer (_writableState s) ++ [c]) s.
Proof.
  intros Hw He Htk. unfold step. cbn [handle]. unfold write. rewrite He, Hw. cbn [land].
  by rewrite run_tick_idle.
Qed.

End FlowControl.

(** ** The order of the chunks *)

Lemma binaries_app (l1 l2 : list wire) : binaries (l1 ++ l2) = binaries l1 ++ binaries l2.
Proof. apply flat_map_app. Qed.

Lemma first_chunks_app (l1 l2 : list open_listener) :
  first_chunks (l1 ++ l2) = first_chunks l1 ++ first_chunks l2.
Proof. apply flat_map_app. Qed.

Lemma same_flow_refl (s : stream) : same_flow s s.
Proof. by split_and!. Qed.

Lemma same_flow_trans (s1 s2 s3 : stream) :
  same_flow s1 s2 -> same_flow s2 s3 -> same_flow s1 s3.
Proof.
  intros (A1&A2&A3&A4&A5&A6&A7&A8) (B1&B2&B3&B4&B5&B6&B7&B8).
  split_and!; congruence.
Qed.

Lemma flow_same_flow (acc : list chunk) (s s' : stream) :
  flow acc s -> same_flow s s' -> flow acc s'.
Proof.
  intros Hf (A1&A2&A3&A4&A5&A6&A7&A8).
  destruct Hf as [H1 H2 H3 H4 H5 H6 H7|c H1 H2 H3 H4 H5 H6|c H1 H2 H3 H4 H5 H6
                 |H1 H2 H3 H4 H5|H1 H2 H3 H4 H5 H6].
  - apply flow_idle; congruence.
  - apply (flow_token _ _ c); congruence.
  - apply (flow_open _ _ c); congruence.
  - apply flow_sent; congruence.
  - apply flow_stuck; congruence.
Qed.

Lemma same_flow_land (o : outcome) : same_flow (state_of o) (land o).
Proof. destruct o; by split_and!. Qed.

Lemma same_flow_sendJSON (msg : gmap string value) (s : stream) :
  same_flow s (state_of (sendJSON msg s)).
Proof.
  unfold sendJSON, socket_send. destruct (socket_is_open _); simpl; [|by split_and!].
  split_and!; try done. simpl. rewrite binaries_app. simpl. apply app_nil_r.
Qed.

Lemma same_flow_finish (s : stream) : same_flow s (state_of (finish s)).
Proof.
  rewrite finish_unfold. destruct (finished s); [apply same_flow_refl|].
  destruct (socket_is_open s); simpl.
  - split_and!; try done. simpl. rewrite binaries_app. simpl. apply app_nil_r.
  - split_and!; try done. simpl. rewrite first_chunks_app. simpl. apply app_nil_r.
Qed.

Lemma same_flow_socket_update (s : stream) (k : option websocket) :
  same_flow s (set_socket k s).
Proof. by split_and!. Qed.

Lemma same_flow_socket_close (s : stream) : same_flow s (socket_close s).
Proof.
  unfold socket_close. destruct (socket s) as [ws|]; [|apply same_flow_refl].
  destruct (readyState ws); (apply same_flow_refl || apply same_flow_socket_update).
Qed.

Lemma same_flow_set_readyState (r : ready_state) (s : stream) :
  same_flow s (set_readyState r s).
Proof.
  unfold set_readyState. destruct (socket s); [apply same_flow_socket_update|apply same_flow_refl].
Qed.

Lemma same_flow_set_bufferedAmount (n : N) (s : stream) :
  same_flow s (set_bufferedAmount n s).
Proof.
  unfold set_bufferedAmount.
  destruct (socket s); [apply same_flow_socket_update|apply same_flow_refl].
Qed.

Lemma same_flow_push_final (result : value) (s : stream) :
  same_flow s (state_of (push_final result s)).
Proof. unfold push_final. repeat (case_match; simpl; try by split_and!). Qed.

Lemma same_flow_forEach_result (results : list value) (s : stream) :
  same_flow s (state_of (forEach_result results s)).
Proof.
  revert s. induction results as [|r rs IH]; intros s; simpl; [apply same_flow_refl|].
  pose proof (same_flow_push_final r s) as H.
  destruct (push_final r s) as [s1|s1]; simpl in *; [|done].
  eapply same_flow_trans; [exact H|apply IH].
Qed.

Lemma same_flow_emit_error (e : error_kind) (s : stream) :
  same_flow s (state_of (emit_error e s)).
Proof. unfold emit_error. destruct (on_error s); by split_and!. Qed.

Lemma same_flow_end_output (o : outcome) :
  same_flow (state_of o) (state_of (o >>> fun s => Normal (push VNull s))).
Proof. destruct o; by split_and!. Qed.

Lemma same_flow_initialize (s : stream) : same_flow s (state_of (initialize s)).
Proof.
  destruct (initialize s) as [s'|s'] eqn:E.
  - apply initialize_Normal in E as [_ ->]. by split_and!.
  - apply initialize_Threw in E as [_ ->]. by split_and!.
Qed.

Lemma same_flow_onmessage (f : frame) (s : stream) :
  same_flow s (state_of (onmessage f s)).
Proof.
  unfold onmessage. destruct f as [| |data]; simpl; try apply same_flow_emit_error.
  repeat (case_match; simpl; try by split_and!).
  - eapply same_flow_trans; [|apply same_flow_emit_error]. by split_and!.
  - eapply same_flow_trans; [|apply same_flow_socket_close]. by split_and!.
  - eapply same_flow_trans; [|apply same_flow_forEach_result]. by split_and!.
Qed.

Lemma same_flow_onerror (s : stream) : same_flow s (state_of (onerror s)).
Proof.
  unfold onerror.
  eapply same_flow_trans; [|apply same_flow_end_output].
  eapply same_flow_trans; [|apply same_flow_emit_error]. by split_and!.
Qed.

Lemma flow_prefix (acc : list chunk) (s : stream) :
  flow acc s -> binaries (sent s) `prefix_of` acc.
Proof.
  intros [H1 H2 H3 H4 H5 H6 <-|c H1 H2 H3 H4 H5 <-|c H1 H2 H3 H4 H5 <-
         |H1 H2 H3 H4 <-|H1 H2 H3 H4 H5 H6]; try done; by apply prefix_app_r.
Qed.

Lemma flows_same_flow (acc : list chunk) (s s' : stream) :
  flow acc s -> same_flow s s' -> flows acc s s'.
Proof.
  intros Hf Hs. split; [by eapply flow_same_flow|]. by destruct Hs as (_&_&_&_&_&?&_).
Qed.

Lemma flows_trans_same (acc : list chunk) (s1 s2 s3 : stream) :
  flows acc s1 s2 -> same_flow s2 s3 -> flows acc s1 s3.
Proof.
  intros [Hf He] Hs. split; [by eapply flow_same_flow|].
  destruct Hs as (_&_&_&_&_&E&_). congruence.
Qed.

Lemma in_flight_stuck (c : chunk) (acc : list chunk) (s s' : stream) :
  in_flight c acc s -> same_flow s s' -> flows acc s s'.
Proof.
  intros (H1&H2&H3&H4&H5&H6) (A1&A2&A3&A4&A5&A6&A7&A8). split; [|done].
  apply flow_stuck; try congruence.
  rewrite A1, <- H6. by apply prefix_app_r.
Qed.

Lemma afterSend_flow (acc : list chunk) (s : stream) :
  writing (_writableState s) = true -> awaiting_token s = None ->
  first_chunks (once_open s) = [] -> timer s = false -> tick s = false ->
  binaries (sent s) ++ buffer (_writableState s) = acc ->
  flows acc s (state_of (afterSend s)).
Proof.
  intros H1 H2 H3 H4 H5 H6. unfold afterSend.
  destruct (socket s) as [ws|]; simpl.
  - destruct (_ <=? _)%N; simpl; (split; [|done]); apply flow_sent; simpl; by rewrite ?H4, ?H5.
  - split; [|done]. apply flow_stuck; try done. rewrite <- H6. by apply prefix_app_r.
Qed.

Section Flow.
Variable fromHeader : chunk -> value.

Lemma flows_write_authorized (c : chunk) (acc : list chunk) (s : stream) :
  in_flight c acc s -> flows acc s (state_of (write_authorized fromHeader c s)).
Proof.
  intros Hin. pose proof Hin as (H1&H2&H3&H4&H5&H6).
  unfold write_authorized.
  destruct (finished s); simpl; [by apply (in_flight_stuck c), same_flow_refl|].
  destruct (initialized s); simpl.
  - unfold sendData, socket_send.
    change (socket_is_open (emit (EvSendData c) s)) with (socket_is_open s).
    destruct (socket_is_open s); simpl.
    + match goal with |- flows _ _ (state_of (afterSend ?x)) =>
        destruct (afterSend_flow acc x) as [Hf He]; try done end.
      simpl. rewrite binaries_app. simpl. by rewrite <- app_assoc.
    + by apply (in_flight_stuck c).
  - assert (forall s0, same_flow s s0 ->
              flows acc s
                (state_of (initialize s0 >>> fun s =>
                             Normal (set_once_open (once_open s ++ [SendFirstChunk c]) s))))
      as Hopen.
    { intros s0 Hs0. pose proof (same_flow_initialize s0) as Hi.
      destruct (initialize s0) as [s1|s1]; cbn [and_then state_of] in *.
      - destruct (same_flow_trans _ _ _ Hs0 Hi) as (A1&A2&A3&A4&A5&A6&A7&A8).
        split; [|done]. apply (flow_open _ _ c); simpl; try congruence.
        rewrite first_chunks_app, A3, H3. done.
      - apply (in_flight_stuck c); [done|]. by eapply same_flow_trans. }
    destruct (negb _ && negb _); [destruct (truthy _)|].
    + apply Hopen. by split_and!.
    + apply (in_flight_stuck c); [done|].
      eapply same_flow_trans; [|apply same_flow_end_output]. apply same_flow_emit_error.
    + apply Hopen, same_flow_refl.
Qed.

Lemma flows__write (c : chunk) (acc : list chunk) (s : stream) :
  in_flight c acc s -> flows acc s (state_of (_write fromHeader c s)).
Proof.
  intros Hin. unfold _write. destruct (truthy _); simpl.
  - destruct Hin as (H1&H2&H3&H4&H5&H6). split; [|done]. by apply (flow_token _ _ c).
  - by apply flows_write_authorized.
Qed.

Lemma buffer__write (c : chunk) (s : stream) :
  buffer (_writableState (state_of (_write fromHeader c s))) = buffer (_writableState s).
Proof.
  assert (forall s0, buffer (_writableState s0) = buffer (_writableState s) ->
            buffer (_writableState
                      (state_of (initialize s0 >>> fun s =>
                         Normal (set_once_open (once_open s ++ [SendFirstChunk c]) s))))
            = buffer (_writableState s)) as Hi.
  { intros s0 <-. pose proof (same_flow_initialize s0) as (_&_&_&_&E&_).
    by destruct (initialize s0). }
  unfold _write, write_authorized, sendData, socket_send, afterSend, emit_error.
  repeat (case_match; simpl; try done); by apply Hi.
Qed.

Lemma flows_token_callback (r : token_result) (c : chunk) (acc : list chunk) (s : stream) :
  in_flight c acc s -> flows acc s (state_of (token_callback fromHeader r c s)).
Proof.
  intros Hin. unfold token_callback.
  assert (forall s0, same_flow s s0 ->
            flows acc s
              (state_of (write_authorized fromHeader c
                 (set_options
                    (<["headers" := with_authorization (get (options s0) "headers")
                                      match r with TokenFailed => "undefined" | TokenOk t => t end]>
                       (options s0)) s0)))) as Hgo.
  { intros s0 (A1&A2&A3&A4&A5&A6&A7&A8).
    match goal with |- flows _ _ (state_of (write_authorized _ _ ?x)) =>
      assert (in_flight c acc x) as Hin'
    end.
    { destruct Hin as (H1&H2&H3&H4&H5&H6). split_and!; simpl; congruence. }
    destruct (flows_write_authorized c acc _ Hin') as [Hf He].
    split; [done|]. rewrite He. exact A6. }
  destruct r; cbn [and_then]; [|by apply Hgo, same_flow_refl].
  unfold emit_error. destruct (on_error s); cbn [and_then state_of].
  - apply Hgo. by split_and!.
  - by apply (in_flight_stuck c), same_flow_refl.
Qed.

Lemma flows_finishMaybe (acc : list chunk) (s : stream) :
  flow acc s -> flows acc s (state_of (finishMaybe s)).
Proof.
  intros Hf. unfold finishMaybe. destruct (_ && _ && _ && _); [|by apply flows_same_flow, same_flow_refl].
  destruct (on_finish _).
  - apply flows_same_flow; [done|].
    eapply same_flow_trans; [|apply same_flow_finish]. by split_and!.
  - apply flows_same_flow; [done|]. by split_and!.
Qed.

Lemma flows_onwrite (waiting : list chunk) (acc : list chunk) (s : stream) :
  writing (_writableState s) = true -> awaiting_token s = None ->
  first_chunks (once_open s) = [] -> timer s = false -> tick s = false ->
  binaries (sent s) ++ waiting = acc ->
  flows acc s (state_of (onwrite fromHeader waiting s)).
Proof.
  revert s. induction waiting as [|c rest IH]; intros s H1 H2 H3 H4 H5 H6; cbn [onwrite].
  - assert (flow acc (set_buffer [] (set_writing false s))) as Hidle.
    { apply flow_idle; try done. simpl. by rewrite app_nil_r in H6. }
    destruct (flows_finishMaybe acc _ Hidle) as [Hf He]. by split.
  - assert (in_flight c acc (set_buffer rest s)) as Hin by (by split_and!).
    destruct (flows__write c acc _ Hin) as [Hf He].
    pose proof (buffer__write c (set_buffer rest s)) as Hb.
    destruct (_write fromHeader c (set_buffer rest s)) as [s'|s']; cbn [state_of] in *;
      [|by split].
    destruct (tick s') eqn:Htk; [|by split].
    destruct Hf as [? ? ? ? ? F|? ? ? ? ? F|? ? ? ? ? F|F1 F2 F3 F4 F5|? ? ? ? F];
      try congruence.
    rewrite Htk in F4. simpl in F4, Hb. rewrite Hb in F5.
    destruct (IH (set_tick false s')) as [Hf' He']; try done.
    split; [done|]. rewrite He'. exact He.
Qed.

Lemma flows_run_tick (acc : list chunk) (s : stream) :
  flow acc s -> flows acc s (state_of (run_tick fromHeader s)).
Proof.
  intros Hf. unfold run_tick. destruct (tick s) eqn:Htk; [|by apply flows_same_flow, same_flow_refl].
  destruct Hf as [? ? ? ? ? F|? ? ? ? ? F|? ? ? ? ? F|F1 F2 F3 F4 F5|? ? ? ? F];
    try congruence.
  rewrite Htk in F4. simpl in F4.
  destruct (flows_onwrite (buffer (_writableState s)) acc (set_tick false s)) as [Hf' He'];
    try done.
Qed.

End Flow.

(** When the socket opens, the first chunk, if one waits, is sent and
    its callback is due. *)
Lemma flows_run_open_listeners (ls : list open_listener) (acc : list chunk) (s : stream) :
  socket_is_open s = true -> once_open s = ls -> flow acc s ->
  flows acc s (state_of (run_open_listeners ls s)).
Proof.
  revert s. induction ls as [|l rest IH]; intros s Ho Hl Hf; cbn [run_open_listeners].
  - by apply flows_same_flow, same_flow_refl.
  - assert (exists s1, run_open_listener l (set_once_open rest s) = Normal s1
              ∧ socket_is_open s1 = true ∧ once_open s1 = rest ∧ flows acc s s1)
      as (s1 & -> & Ho1 & Hl1 & Hf1 & He1).
    { destruct l as [c|]; cbn [run_open_listener].
      - unfold sendData, socket_send.
        change (socket_is_open (emit _ (set_once_open rest s))) with (socket_is_open s).
        rewrite Ho. cbn [and_then].
        assert (first_chunks (once_open s) = c :: first_chunks rest) as HL by (by rewrite Hl).
        destruct Hf as [? ? F3 ? ? ? F|c' ? ? F3 ? ? F|c' F1 F2 F3 F4 F5 F6|? ? F3 ? F
                       |? ? F3 ? ? F]; try congruence.
        rewrite HL in F3. injection F3 as <- F3.
        match goal with |- context [afterSend ?x] => set (s0 := x) end.
        assert (flows acc s0 (state_of (afterSend s0))) as [Hf He].
        { apply afterSend_flow; subst s0; simpl; try done.
          rewrite binaries_app. simpl. by rewrite <- app_assoc. }
        assert (exists s1, afterSend s0 = Normal s1 ∧ socket_is_open s1 = true
                  ∧ once_open s1 = rest) as (s1 & E & Ho1 & Hl1).
        { unfold afterSend. subst s0. simpl. unfold socket_is_open in Ho.
          destruct (socket s) as [ws|] eqn:Ek; [|done].
          destruct (_ <=? _)%N; eexists; (split; [reflexivity|]);
            unfold socket_is_open; simpl; by rewrite Ek. }
        rewrite E in *. exists s1. by split_and!.
      - unfold sendJSON, socket_send.
        change (socket_is_open (emit _ (set_once_open rest s))) with (socket_is_open s).
        rewrite Ho. eexists. split; [reflexivity|]. split_and!; try done.
        apply flows_same_flow; [exact Hf|].
        split_and!; try done.
        + simpl. rewrite binaries_app. simpl. apply app_nil_r.
        + simpl. by rewrite Hl. }
    cbn [and_then]. destruct (IH s1 Ho1 Hl1 Hf1) as [Hf' He']. split; [done|congruence].
Qed.

Lemma flows_onopen (acc : list chunk) (s : stream) :
  flow acc s -> flows acc s (state_of (onopen (set_readyState OPEN s))).
Proof.
  intros Hf. unfold set_readyState.
  destruct (socket s) as [ws|] eqn:E.
  - set (s0 := set_socket _ s).
    assert (socket_is_open s0 = true) as Ho by done.
    assert (flow acc s0) as Hf0 by (eapply flow_same_flow; [exact Hf|by split_and!]).
    assert (onopen s0 = (sendJSON (ws_opening ws) s0 >>> emit_open)) as -> by done.
    unfold sendJSON, socket_send.
    change (socket_is_open (emit (EvSendJSON (ws_opening ws)) s0)) with (socket_is_open s0).
    rewrite Ho. cbn [and_then]. unfold emit_open.
    match goal with |- flows _ _ (state_of (run_open_listeners ?ls ?x)) =>
      destruct (flows_run_open_listeners ls acc x) as [Hf' He']; [done|done| |by split]
    end.
    eapply flow_same_flow; [exact Hf0|]. split_and!; try done.
    simpl. rewrite binaries_app. simpl. apply app_nil_r.
  - unfold onopen. rewrite E. by apply flows_same_flow, same_flow_refl.
Qed.

Lemma flow_set_ending (acc : list chunk) (e : bool) (s : stream) :
  flow acc s -> flow acc (set_ending e s).
Proof.
  intros [H1 H2 H3 H4 H5 H6 H7|c H1 H2 H3 H4 H5 H6|c H1 H2 H3 H4 H5 H6
         |H1 H2 H3 H4 H5|H1 H2 H3 H4 H5 H6].
  - by apply flow_idle.
  - by apply (flow_token _ _ c).
  - by apply (flow_open _ _ c).
  - by apply flow_sent.
  - by apply flow_stuck.
Qed.

(** A chunk written while another is in flight waits behind the others. *)
Lemma flow_buffered (acc : list chunk) (c : chunk) (s : stream) :
  flow acc s -> writing (_writableState s) = true ->
  flow (acc ++ [c]) (set_buffer (buffer (_writableState s) ++ [c]) s).
Proof.
  intros [H1 H2 H3 H4 H5 H6 H7|c' H1 H2 H3 H4 H5 <-|c' H1 H2 H3 H4 H5 <-
         |H1 H2 H3 H4 <-|H1 H2 H3 H4 H5 H6] Hw.
  - congruence.
  - apply (flow_token _ _ c'); try done. simpl. by rewrite <- app_assoc.
  - apply (flow_open _ _ c'); try done. simpl. by rewrite <- app_assoc.
  - apply flow_sent; try done. simpl. by rewrite <- app_assoc.
  - apply flow_stuck; try done. simpl. by apply prefix_app_r.
Qed.

Section FlowSteps.
Variable fromHeader : chunk -> value.

Lemma flow_handle (acc : list chunk) (s : stream) (ev : event) :
  flow acc s ->
  flow (acc ++ accepts s ev) (state_of (handle fromHeader ev s))
  ∧ ending (_writableState (state_of (handle fromHeader ev s)))
    = ending (_writableState s) || is_End ev.
Proof.
  intros Hf.
  assert (forall s', flows acc s s' ->
            flow (acc ++ []) s'
            ∧ ending (_writableState s') = ending (_writableState s) || false) as Hplain.
  { intros s' [Hf' He']. by rewrite app_nil_r, orb_false_r. }
  destruct ev; cbn [handle accepts is_End].
  - unfold write. destruct (ending (_writableState s)) eqn:He.
    + apply Hplain, flows_same_flow; [done|apply same_flow_emit_error].
    + destruct (writing (_writableState s)) eqn:Hw; cbn [state_of].
      * split; [by apply flow_buffered|]. simpl. by rewrite He.
      * destruct Hf as [H1 H2 H3 H4 H5 H6 H7|c' H1 H2 H3 H4 H5 H6|c' H1 H2 H3 H4 H5 H6
                       |H1 H2 H3 H4 H5|H1 H2 H3 H4 H5 H6]; try congruence.
        destruct (flows__write fromHeader c (acc ++ [c]) (set_writing true s)) as [Hf' He'].
        { split_and!; try done. simpl. by rewrite H4, H7. }
        split; [done|]. rewrite He'. simpl. by rewrite He.
  - unfold end_.
    destruct (flows_finishMaybe acc (set_ending true s)) as [Hf' He'];
      [by apply flow_set_ending|].
    rewrite app_nil_r. split; [done|]. rewrite He'. simpl. by rewrite orb_true_r.
  - apply Hplain. unfold stop. apply flows_same_flow; [done|].
    eapply same_flow_trans; [|apply same_flow_finish]. by split_and!.
  - apply Hplain, flows_same_flow; [done|apply same_flow_finish].
  - apply Hplain. destruct (awaiting_token s) as [c|] eqn:Ha;
      [|by apply flows_same_flow, same_flow_refl].
    destruct Hf as [H1 H2 H3 H4 H5 H6 H7|c' H1 H2 H3 H4 H5 H6|c' H1 H2 H3 H4 H5 H6
                   |H1 H2 H3 H4 H5|H1 H2 H3 H4 H5 H6]; try congruence.
    assert (c' = c) as -> by congruence.
    destruct (flows_token_callback fromHeader r c acc (set_awaiting_token None s))
      as [Hf' He']; [by split_and!|]. by split.
  - apply Hplain. destruct (timer s) eqn:Ht; [|by apply flows_same_flow, same_flow_refl].
    destruct Hf as [H1 H2 H3 H4 H5 H6 H7|c' H1 H2 H3 H4 H5 H6|c' H1 H2 H3 H4 H5 H6
                   |H1 H2 H3 H4 H5|H1 H2 H3 H4 H5 H6]; try congruence.
    rewrite Ht in H4. symmetry in H4. apply negb_true_iff in H4.
    destruct (afterSend_flow acc (set_timer false s)) as [Hf' He']; try done.
  - apply Hplain, flows_same_flow; [done|apply same_flow_set_bufferedAmount].
  - apply Hplain. by apply flows_onopen.
  - apply Hplain. destruct (socket s); [|by apply flows_same_flow, same_flow_refl].
    apply flows_same_flow; [done|apply same_flow_onmessage].
  - apply Hplain. destruct (socket s); [|by apply flows_same_flow, same_flow_refl].
    apply flows_same_flow; [done|].
    eapply same_flow_trans; [apply (same_flow_set_readyState CLOSED)|apply same_flow_onerror].
  - apply Hplain. destruct (socket s); [|by apply flows_same_flow, same_flow_refl].
    apply flows_same_flow; [done|]. unfold onclose. cbn [state_of].
    eapply same_flow_trans; [apply (same_flow_set_readyState CLOSED)|by split_and!].
  - apply Hplain, flows_same_flow; [done|by split_and!].
Qed.

Lemma flow_step (acc : list chunk) (s : stream) (ev : event) :
  flow acc s ->
  flow (acc ++ accepts s ev) (step fromHeader s ev)
  ∧ ending (_writableState (step fromHeader s ev)) = ending (_writableState s) || is_End ev.
Proof.
  intros Hf. destruct (flow_handle acc s ev Hf) as [H1 E1]. unfold step.
  pose proof (same_flow_land (handle fromHeader ev s)) as L1.
  assert (flow (acc ++ accepts s ev) (land (handle fromHeader ev s))) as H2
    by (by eapply flow_same_flow).
  destruct (flows_run_tick fromHeader _ _ H2) as [H3 E3].
  pose proof (same_flow_land (run_tick fromHeader (land (handle fromHeader ev s)))) as L2.
  split; [by eapply flow_same_flow|].
  destruct L1 as (_&_&_&_&_&E1'&_). destruct L2 as (_&_&_&_&_&E2'&_). congruence.
Qed.

Lemma flow_run (evs : list event) (acc : list chunk) (s : stream) :
  flow acc s ->
  flow (acc ++ if ending (_writableState s) then [] else accepted evs) (run fromHeader s evs).
Proof.
  revert acc s. induction evs as [|ev evs IH]; intros acc s Hf; cbn [run fold_left].
  - destruct (ending _); by rewrite app_nil_r.
  - destruct (flow_step acc s ev Hf) as [H1 E1].
    specialize (IH _ _ H1). rewrite E1 in IH. rewrite <- app_assoc in IH.
    assert (accepts s ev ++ (if ending (_writableState s) || is_End ev
                             then [] else accepted evs)
            = if ending (_writableState s) then [] else accepted (ev :: evs)) as <-; [|done].
    destruct (ending (_writableState s)) eqn:He; destruct ev; simpl; by rewrite ?He.
Qed.

(** The binary messages on the wire are chunks that were written, in the
    order they were written, with none left out in between and none sent
    twice. *)
Lemma chunks_in_order (opts : gmap string value) (hwm : N) (evs : list event) :
  binaries (sent (run fromHeader (new_stream opts hwm) evs)) `prefix_of` accepted evs.
Proof.
  assert (flow [] (new_stream opts hwm)) as Hf by (by apply flow_idle).
  apply (flow_run evs) in Hf. by apply flow_prefix in Hf.
Qed.

End FlowSteps.

Section Backpressure.
Variable fromHeader : chunk -> value.

(** Above the mark, the timer is armed again and nothing else happens,
    whatever the state of the stream. *)
Lemma step_timeout_above (s : stream) :
  socket s ≠ None -> tick s = false -> timer s = true -> drained s = false ->
  step fromHeader s Timeout = s.
Proof.
  intros Hk Htk Htm Hd.
  unfold step. cbn [handle]. rewrite Htm, afterSend_drained by exact Hk.
  change (drained (set_timer false s)) with (drained s). rewrite Hd. cbn [land].
  rewrite run_tick_idle by exact Htk. cbn [land].
  destruct s. cbn in *. by subst.
Qed.

(** At or below the mark, the timer calls the callback of the chunk in
    flight, which takes the waiting chunks on. *)
Lemma step_timeout_below (s : stream) :
  socket s ≠ None -> timer s = true -> drained s = true ->
  step fromHeader s Timeout
  = land (onwrite fromHeader (buffer (_writableState s)) (set_tick false (set_timer false s))).
Proof.
  intros Hk Htm Hd.
  unfold step. cbn [handle]. rewrite Htm, afterSend_drained by exact Hk.
  change (drained (set_timer false s)) with (drained s). rewrite Hd. cbn [land].
  unfold run_tick. reflexivity.
Qed.

(** With no chunk waiting, the callback leaves the writable side idle;
    at the end of the input the stop message may follow. *)
Lemma onwrite_idle (s : stream) :
  exists s' tail, onwrite fromHeader [] s = Normal s'
    ∧ sent s' = sent s ++ tail
    ∧ binaries tail = []
    ∧ (ending (_writableState s) = false -> tail = [])
    ∧ buffer (_writableState s') = []
    ∧ writing (_writableState s') = false
    ∧ timer s' = timer s
    ∧ tick s' = tick s.
Proof.
  cbn [onwrite]. unfold finishMaybe. fields. cbn [negb andb].
  destruct (ending (_writableState s)) eqn:He; cbn [andb];
    [|exists (set_buffer [] (set_writing false s)), []; rewrite app_nil_r; by split_and!].
  destruct (negb (finish_emitted (_writableState s)) && bool_decide (@nil chunk = []));
    [|exists (set_buffer [] (set_writing false s)), []; rewrite app_nil_r; by split_and!].
  destruct (on_finish s);
    [|eexists _, []; split; [reflexivity|]; fields; rewrite app_nil_r; by split_and!].
  rewrite finish_unfold. fields.
  destruct (finished s);
    [eexists _, []; split; [reflexivity|]; fields; rewrite app_nil_r; by split_and!|].
  match goal with |- context [socket_is_open ?x] =>
    change (socket_is_open x) with (socket_is_open s) end.
  destruct (socket_is_open s).
  - eexists _, [Text closingMessage]. split; [reflexivity|]. fields. by split_and!.
  - eexists _, []. split; [reflexivity|]. fields. rewrite app_nil_r. by split_and!.
Qed.

(** While the socket stays drained, the callback of one chunk sends the
    next one, until none waits; at the end of the input the stop message
    follows. *)
Lemma onwrite_flush (waiting : list chunk) (s : stream) :
  initialized s = true -> finished s = false -> socket_is_open s = true ->
  truthy (get (options s) "token_manager") = false ->
  drained s = true -> tick s = false ->
  exists s' tail, onwrite fromHeader waiting s = Normal s'
    ∧ sent s' = sent s ++ map Binary waiting ++ tail
    ∧ binaries tail = []
    ∧ (ending (_writableState s) = false -> tail = [])
    ∧ buffer (_writableState s') = []
    ∧ writing (_writableState s') = false
    ∧ timer s' = timer s
    ∧ tick s' = false.
Proof.
  revert s. induction waiting as [|c rest IH]; intros s Hi Hf Ho Ht Hd Htk0.
  - destruct (onwrite_idle s) as (s' & tail & E & Hs & Hb & Htl & Hbuf & Hw & Htm & Htk).
    exists s', tail. split_and!; try done. congruence.
  - cbn [onwrite]. unfold _write. fields. rewrite Ht.
    unfold write_authorized. fields. rewrite Hf, Hi. cbn [negb].
    unfold sendData, socket_send.
    change (socket_is_open (emit _ (set_buffer rest s))) with (socket_is_open s).
    rewrite Ho. cbn [and_then].
    rewrite afterSend_drained.
    2:{ fields. unfold socket_is_open in Ho. by destruct (socket s). }
    match goal with |- context [drained ?x] => change (drained x) with (drained s) end.
    rewrite Hd. cbn [tick set_tick].
    match goal with |- context [onwrite _ _ ?x] =>
      destruct (IH x) as (s' & tail & Hr & Hs & Hb & Hw & Htl & Htm & Htk & Htk') end;
      try done.
    exists s', tail. rewrite Hr. split_and!; try done.
    rewrite Hs. fields. by rewrite <- app_assoc.
Qed.

(** With a token manager the next waiting chunk goes to the token
    manager first. *)
Lemma onwrite_token (c : chunk) (rest : list chunk) (s : stream) :
  truthy (get (options s) "token_manager") = true -> tick s = false ->
  onwrite fromHeader (c :: rest) s = Normal (set_awaiting_token (Some c) (set_buffer rest s)).
Proof.
  intros Ht Htk. cbn [onwrite]. unfold _write. fields. rewrite Ht. fields. by rewrite Htk.
Qed.

(** After [finish], the next waiting chunk is dropped, and its callback
    is not called. *)
Lemma onwrite_finished (c : chunk) (rest : list chunk) (s : stream) :
  truthy (get (options s) "token_manager") = false -> finished s = true -> tick s = false ->
  onwrite fromHeader (c :: rest) s = Normal (set_buffer rest s).
Proof.
  intros Ht Hf Htk. cbn [onwrite]. unfold _write. fields. rewrite Ht.
  unfold write_authorized. fields. rewrite Hf. fields. by rewrite Htk.
Qed.

End Backpressure.

(** C7, as first stated, fails: chunks that wait while the socket is
    above the mark are lost if [stop()] is called meanwhile.  When the
    socket has drained, the third chunk written here is dropped without
    an error, and the stream takes no more input: its callback is never
    called. *)
Lemma C7_waiting_chunk_lost_after_stop :
  let evs := [Write wav_chunk; SocketOpen; Buffered 11; Write noise_chunk; Write wav_chunk;
              Stop; Buffered 0; Timeout] in
  let s := run riff_sniffer (new_stream wav_options 10) evs in
  accepted evs = [wav_chunk; noise_chunk; wav_chunk]
  ∧ sent s = [Text (openingMessage wav_options); Binary wav_chunk; Binary noise_chunk;
              Text closingMessage]
  ∧ buffer (_writableState s) = []
  ∧ writing (_writableState s) = true
  ∧ timer s = false
  ∧ uncaught s = 0
  ∧ sent (run riff_sniffer s [Write wav_chunk; Timeout; End]) = sent s.
Proof. vm_compute. repeat split. Qed.

(** C7, amended. After a send, [afterSend] queues the write callback
    exactly when the socket's buffered amount is at or below the
    high-water mark, and arms a 10 ms timer to check again when it is
    above.  While the amount stays above the mark, a timer tick changes
    nothing, whatever else the state of the stream is: the callback is
    not called.  A chunk written while another is in flight waits at the end
    of the buffer.  Once the amount is at or below the mark, the timer
    tick calls the callback.  If no chunk waits, the writable side is
    idle again.  On a connected stream that has not been finished or
    stopped and has no token manager, the waiting chunks are then sent,
    all of them and in the order they were written, followed by nothing
    but the stop message if the input has ended.  With a token manager,
    the first waiting chunk waits for its token instead.  After [finish]
    or [stop], the first waiting chunk is dropped and its callback is
    never called, so that the chunks behind it are not sent either.
    Over any sequence of calls and events, the chunks on the
    wire are a prefix of the chunks accepted by [write]: none is sent
    out of order, twice, or past one that was not sent. *)
Theorem C7_backpressure (fromHeader : chunk -> value) (s : stream) (c : chunk)
    (opts : gmap string value) (hwm : N) (evs : list event) :
  socket s ≠ None -> tick s = false ->
  afterSend s = Normal (if drained s then set_tick true s else set_timer true s)
  ∧ (writing (_writableState s) = true -> ending (_writableState s) = false ->
     step fromHeader s (Write c) = set_buffer (buffer (_writableState s) ++ [c]) s)
  ∧ (timer s = true ->
     let s' := step fromHeader s Timeout in
     if drained s then
       match buffer (_writableState s) with
       | [] =>
           exists tail,
             sent s' = sent s ++ tail
             ∧ binaries tail = []
             ∧ (ending (_writableState s) = false -> tail = [])
             ∧ buffer (_writableState s') = []
             ∧ writing (_writableState s') = false
             ∧ timer s' = false
             ∧ tick s' = false
       | next :: rest =>
           if truthy (get (options s) "token_manager") then
             sent s' = sent s ∧ awaiting_token s' = Some next
             ∧ buffer (_writableState s') = rest ∧ timer s' = false ∧ tick s' = false
           else if finished s then
             sent s' = sent s ∧ buffer (_writableState s') = rest
             ∧ writing (_writableState s') = writing (_writableState s)
             ∧ awaiting_token s' = awaiting_token s ∧ timer s' = false ∧ tick s' = false
           else
             initialized s = true -> socket_is_open s = true ->
             exists tail,
               sent s' = sent s ++ map Binary (next :: rest) ++ tail
               ∧ binaries tail = []
               ∧ (ending (_writableState s) = false -> tail = [])
               ∧ buffer (_writableState s') = []
               ∧ writing (_writableState s') = false
               ∧ timer s' = false
               ∧ tick s' = false
       end
     else s' = s)
  ∧ binaries (sent (run fromHeader (new_stream opts hwm) evs)) `prefix_of` accepted evs.
Proof.
  intros Hk Htk. split_and!; [by apply afterSend_drained| | |apply chunks_in_order].
  - intros Hw He. by apply step_write_while_writing.
  - intros Htm s'. subst s'. destruct (drained s) eqn:Hd; [|by apply step_timeout_above].
    rewrite step_timeout_below by done.
    destruct (buffer (_writableState s)) as [|next rest] eqn:Hbuf.
    { destruct (onwrite_idle fromHeader (set_tick false (set_timer false s)))
        as (s' & tail & -> & Hs & Hb & Hw & Htl & Hwr & Htm' & Htk').
      exists tail. cbn [land]. by split_and!. }
    destruct (truthy (get (options s) "token_manager")) eqn:Ht.
    { by rewrite onwrite_token. }
    destruct (finished s) eqn:Hf.
    { by rewrite onwrite_finished. }
    intros Hi Ho.
    destruct (onwrite_flush fromHeader (next :: rest) (set_tick false (set_timer false s)))
      as (s' & tail & -> & Hs & Hb & Hw & Htl & Hwr & Htm' & Htk'); try done.
    exists tail. cbn [land]. by split_and!.
Qed.

Lemma C7_backpressure_witness :
  let s := run riff_sniffer (new_stream wav_options 10)
             [Write wav_chunk; SocketOpen; Buffered 11; Write noise_chunk;
              Write wav_chunk; Write noise_chunk] in
  let s' := step riff_sniffer s (Buffered 10) in
  step riff_sniffer s Timeout = s
  ∧ exists tail,
      sent (step riff_sniffer s' Timeout)
      = sent s' ++ map Binary [wav_chunk; noise_chunk] ++ tail
      ∧ tail = [].
Proof.
  intros s s'. split.
  - assert (socket s ≠ None) as Hk by (vm_compute; discriminate).
    destruct (C7_backpressure riff_sniffer s wav_chunk ∅ 0 [] Hk eq_refl) as (_ & _ & H & _).
    specialize (H eq_refl). cbv zeta in H.
    change (drained s) with false in H. cbv iota in H. exact H.
  - assert (socket s' ≠ None) as Hk by (vm_compute; discriminate).
    destruct (C7_backpressure riff_sniffer s' wav_chunk ∅ 0 [] Hk eq_refl) as (_ & _ & H & _).
    specialize (H eq_refl). cbv zeta in H.
    change (drained s') with true in H.
    change (buffer (_writableState s')) with [wav_chunk; noise_chunk] in H.
    change (truthy (get (options s') "token_manager")) with false in H.
    change (finished s') with false in H. cbv iota in H.
    destruct (H eq_refl eq_refl) as (tail & H1 & _ & H3 & _).
    exists tail. split; [exact H1|exact (H3 eq_refl)].
Defined.

(** The same run, computed: two chunks wait while the socket is above
    the mark, and go out in order after it has drained. *)
Example backpressure_run :
  let s := run riff_sniffer (new_stream wav_options 10)
             [Write wav_chunk; SocketOpen; Buffered 11; Write noise_chunk;
              Write wav_chunk; Write noise_chunk] in
  sent s = [Text (openingMessage wav_options); Binary wav_chunk; Binary noise_chunk]
  ∧ buffer (_writableState s) = [wav_chunk; noise_chunk]
  ∧ sent (run riff_sniffer s [Timeout; Buffered 10; Timeout])
    = [Text (openingMessage wav_options); Binary wav_chunk; Binary noise_chunk;
       Binary wav_chunk; Binary noise_chunk].
Proof. vm_compute. repeat split. Qed.

(** ** What [initialize] passes on *)




(** ** The URL of the socket *)








(** ** The deprecated event names *)

(** X3. Adding a listener logs a deprecation notice exactly when the
    [silent] option is not set and the event is one of the five deprecated
    names; none of the events that the class emits is among them. *)
Theorem deprecation_notice_events (options : gmap string value) (event : string)
    (e : emission) :
  (is_Some (deprecation_notice options event)
   <-> truthy (get options "silent") = false
       ∧ event ∈ ["results"; "result"; "speaker_labels"; "connection-close"; "connect"])
  ∧ deprecation_notice options (event_name e) = None.
Proof.
  assert (forall l (x : string), x ∈ l -> forall l', x ∈ l ++ l') as Hweak.
  { intros l x H l'. apply elem_of_app. by left. }
  split.
  - unfold deprecation_notice, deprecated_for_data.
    destruct (truthy (get options "silent")); cbn [negb].
    + split; [by intros [? ?]|by intros [? _]].
    + destruct (decide (event ∈ ["results"; "result"; "speaker_labels"])) as [Hin|Hout].
      * rewrite bool_decide_eq_true_2 by done. split; [|by eexists].
        intros _. split; [done|].
        exact (Hweak _ _ Hin ["connection-close"; "connect"]).
      * rewrite bool_decide_eq_false_2 by done.
        destruct (String.eqb_spec event "connection-close") as [->|H1].
        { split; [|by eexists]. intros _. split; [done|].
          repeat (apply elem_of_cons; (by left) || right). }
        destruct (String.eqb_spec event "connect") as [->|H2].
        { split; [|by eexists]. intros _. split; [done|].
          repeat (apply elem_of_cons; (by left) || right). }
        split; [by intros [? ?]|]. intros [_ Hin]. exfalso.
        change ["results"; "result"; "speaker_labels"; "connection-close"; "connect"]
          with (["results"; "result"; "speaker_labels"] ++ ["connection-close"; "connect"])
          in Hin.
        apply elem_of_app in Hin as [Hin|Hin]; [done|].
        apply elem_of_cons in Hin as [->|Hin]; [done|].
        apply elem_of_cons in Hin as [->|Hin]; [done|].
        by apply not_elem_of_nil in Hin.
  - unfold deprecation_notice. destruct (negb _); [|done]. by destruct e.
Qed.

(** ** The handlers as sequences of actions *)

Lemma acts_and_then (h1 h2 : stream -> outcome) :
  acts h1 -> acts h2 -> acts (fun s => h1 s >>> h2).
Proof.
  intros H1 H2 s. specialize (H1 s). destruct (h1 s) as [s1|s1]; cbn in *; [|done].
  etrans; [exact H1|apply H2].
Qed.

Ltac bookkeeping := apply rtc_once, act_bookkeeping; by repeat split.

Lemma acts_afterSend : acts afterSend.
Proof.
  intros s. unfold afterSend. destruct (socket s) as [ws|]; [|done].
  destruct (_ <=? _)%N; cbn [state_of]; bookkeeping.
Qed.

Lemma acts_finish : acts finish.
Proof.
  intros s. destruct (finished s) eqn:Hf.
  - unfold finish. by rewrite Hf.
  - apply rtc_once. by apply act_finish.
Qed.

Lemma acts_stop : acts stop.
Proof.
  intros s. unfold stop. eapply rtc_l; [by apply (act_emit s EvStop)|]. apply acts_finish.
Qed.

Lemma acts_emit_error (e : error_kind) : acts (emit_error e).
Proof.
  intros s. unfold emit_error. destruct (on_error s); [|done].
  apply rtc_once. by apply act_emit.
Qed.

(** [emit('error', err)], then [push(null)]. *)
Lemma acts_error_end (e : error_kind) :
  acts (fun s => emit_error e s >>> fun s => Normal (push VNull s)).
Proof.
  apply (acts_and_then (emit_error e)); [apply acts_emit_error|].
  intros s. apply rtc_once, act_push.
Qed.

Lemma acts_onerror : acts onerror.
Proof.
  intros s. unfold onerror.
  eapply rtc_l; [apply (act_listening s false)|].
  apply (acts_error_end WEBSOCKET_CONNECTION_ERROR).
Qed.

Lemma acts_onclose (code : Z) (reason : string) : acts (onclose code reason).
Proof.
  intros s. unfold onclose. cbn [state_of].
  eapply rtc_l; [apply (act_listening s false)|].
  eapply rtc_l; [apply act_push|].
  apply rtc_once. by apply act_emit.
Qed.

Lemma acts_push_final (result : value) : acts (push_final result).
Proof.
  intros s. unfold push_final.
  repeat (case_match; try done). apply rtc_once, act_push.
Qed.

Lemma acts_forEach_result (results : list value) : acts (forEach_result results).
Proof.
  induction results as [|r rs IH]; intros s; cbn [forEach_result]; [apply rtc_refl|].
  apply (acts_and_then (push_final r) (forEach_result rs)); [apply acts_push_final|exact IH].
Qed.

Lemma action_socket_close (s : stream) : rtc action s (socket_close s).
Proof.
  unfold socket_close. destruct (socket s) as [ws|] eqn:E; [|done].
  destruct (readyState ws) eqn:Er; try done;
    apply rtc_once; by apply (act_socket s ws).
Qed.

Lemma action_set_readyState (r : ready_state) (s : stream) :
  r ≠ OPEN -> rtc action s (set_readyState r s).
Proof.
  intros Hr. unfold set_readyState. destruct (socket s) as [ws|] eqn:E; [|done].
  apply rtc_once. by apply (act_socket s ws).
Qed.

Lemma action_set_bufferedAmount (n : N) (s : stream) :
  rtc action s (set_bufferedAmount n s).
Proof.
  unfold set_bufferedAmount. destruct (socket s) as [ws|] eqn:E; [|done].
  apply rtc_once. by apply (act_socket s ws).
Qed.

Lemma acts_onmessage (f : frame) : acts (onmessage f).
Proof.
  intros s. destruct f as [| |data]; cbn [onmessage].
  - apply acts_emit_error.
  - apply acts_emit_error.
  - eapply rtc_l; [by apply (act_emit s (EvMessage (FJson data)))|].
    set (s1 := emit (EvMessage (FJson data)) s).
    destruct (prop data "error") as [e|]; [|done].
    destruct (prop data "state") as [st|]; [|done].
    destruct (prop data "results") as [rs|]; [|done].
    destruct (truthy e).
    { apply acts_emit_error. }
    destruct (is_listening st).
    { destruct (listening s1); cbn [state_of].
      - eapply rtc_l; [apply (act_listening s1 false)|]. apply action_socket_close.
      - eapply rtc_l; [apply (act_listening s1 true)|]. apply rtc_once. by apply act_emit. }
    destruct (truthy _).
    { apply rtc_once, act_push. }
    destruct rs; try done. apply acts_forEach_result.
Qed.

Section Actions.
Variable fromHeader : chunk -> value.

Lemma acts_write_authorized (c : chunk) : acts (write_authorized fromHeader c).
Proof.
  intros s. unfold write_authorized.
  destruct (finished s) eqn:Hf; [done|].
  destruct (initialized s) eqn:Hi; cbn [negb].
  - change (sendData c s) with (socket_send (Binary c) (emit (announce (Binary c)) s)).
    pose proof (act_send_data s c Hi Hf) as Ha. unfold transmit in Ha.
    destruct (socket_send _ _) as [s1|s1]; cbn [and_then state_of] in *.
    + eapply rtc_l; [exact Ha|]. apply acts_afterSend.
    + by apply rtc_once.
  - assert (forall s0, initialized s0 = false -> finished s0 = false ->
              rtc action s0
                (state_of (initialize s0 >>> fun s =>
                             Normal (set_once_open (once_open s ++ [SendFirstChunk c]) s))))
      as Hinit.
    { intros s0 Hi0 Hf0. apply rtc_once.
      destruct (initialize s0) as [s1|s1] eqn:E; cbn [and_then state_of].
      - by apply act_initialize.
      - by apply act_initialize_throws. }
    destruct (_ && _).
    + destruct (truthy (getContentType fromHeader c)).
      * eapply rtc_l; [apply (act_option s "content-type"); by left|].
        by apply Hinit.
      * apply (acts_error_end ERROR_UNRECOGNIZED_FORMAT).
    + by apply Hinit.
Qed.

Lemma acts__write (c : chunk) : acts (_write fromHeader c).
Proof.
  intros s. unfold _write. destruct (truthy _); [|apply acts_write_authorized].
  cbn [state_of]. bookkeeping.
Qed.

Lemma acts_token_callback (r : token_result) (c : chunk) :
  acts (token_callback fromHeader r c).
Proof.
  apply (acts_and_then _ (fun s => write_authorized fromHeader c (set_options _ s))).
  - destruct r as [|t]; [apply (acts_error_end TokenError)|by intros s].
  - intros s. eapply rtc_l; [apply (act_option _ "headers"); by right|].
    apply acts_write_authorized.
Qed.

Lemma acts_finishMaybe : acts finishMaybe.
Proof.
  intros s. unfold finishMaybe. destruct (_ && _ && _ && _); [|done].
  cbv zeta. destruct (on_finish _); cbn [state_of]; [|bookkeeping].
  etrans; [|apply acts_finish]. bookkeeping.
Qed.

Lemma acts_write (c : chunk) : acts (write fromHeader c).
Proof.
  intros s. unfold write. destruct (ending _).
  { apply acts_emit_error. }
  destruct (writing _).
  { cbn [state_of]. bookkeeping. }
  etrans; [|apply acts__write]. bookkeeping.
Qed.

Lemma acts_end_ : acts end_.
Proof. intros s. unfold end_. etrans; [|apply acts_finishMaybe]. bookkeeping. Qed.

Lemma acts_onwrite (waiting : list chunk) : acts (onwrite fromHeader waiting).
Proof.
  induction waiting as [|c rest IH]; intros s; cbn [onwrite].
  - etrans; [|apply acts_finishMaybe]. bookkeeping.
  - pose proof (acts__write c (set_buffer rest s)) as H.
    assert (rtc action s (set_buffer rest s)) as H0 by bookkeeping.
    destruct (_write _ _ _) as [s1|s1]; cbn [state_of] in *.
    + destruct (tick s1); cbn [state_of].
      * etrans; [|apply IH]. etrans; [exact H0|]. etrans; [exact H|]. bookkeeping.
      * by etrans.
    + by etrans.
Qed.

Lemma acts_run_tick : acts (run_tick fromHeader).
Proof.
  intros s. unfold run_tick. destruct (tick s); [|done].
  etrans; [|apply acts_onwrite]. bookkeeping.
Qed.

Lemma acts_handle (ev : event) : acts (handle fromHeader ev).
Proof.
  intros s. destruct ev; cbn [handle].
  - apply acts_write.
  - apply acts_end_.
  - apply acts_stop.
  - apply acts_finish.
  - destruct (awaiting_token s); [|done]. etrans; [|apply acts_token_callback]. bookkeeping.
  - destruct (timer s); [|done]. etrans; [|apply acts_afterSend]. bookkeeping.
  - apply action_set_bufferedAmount.
  - destruct (socket s) as [ws|] eqn:E.
    + apply rtc_once. by apply (act_open s ws).
    + unfold set_readyState, onopen. rewrite E. cbn. by rewrite E.
  - destruct (socket s); [apply acts_onmessage|done].
  - destruct (socket s); [|done].
    etrans; [apply (action_set_readyState CLOSED); done|apply acts_onerror].
  - destruct (socket s); [|done].
    etrans; [apply (action_set_readyState CLOSED); done|apply acts_onclose].
  - cbn [state_of]. bookkeeping.
Qed.

Lemma action_land (s : stream) (o : outcome) :
  rtc action s (state_of o) -> rtc action s (land o).
Proof.
  intros H. destruct o as [s1|s1]; [done|]. cbn [land state_of] in *.
  etrans; [exact H|]. bookkeeping.
Qed.

Lemma action_step (s : stream) (ev : event) : rtc action s (step fromHeader s ev).
Proof.
  unfold step. apply action_land.
  etrans; [apply action_land, acts_handle|apply acts_run_tick].
Qed.

(** What the actions keep, every run keeps. *)
Lemma run_actions (I : stream -> Prop) (s : stream) (evs : list event) :
  (forall s s', action s s' -> I s -> I s') -> I s -> I (run fromHeader s evs).
Proof.
  intros Hact Hs. apply run_invariant; [done|].
  intros s1 ev H1. pose proof (action_step s1 ev) as Hr.
  induction Hr as [|x y z Hxy _ IH]; [done|]. apply IH. by apply (Hact x).
Qed.

End Actions.

(** ** The socket opening, as one action *)

Lemma transmit_open (w : wire) (s : stream) :
  socket_is_open s = true -> transmit w s = set_sent (sent s ++ [w]) (emit (announce w) s).
Proof.
  intros H. unfold transmit, socket_send.
  change (socket_is_open (emit (announce w) s)) with (socket_is_open s). by rewrite H.
Qed.

Lemma transmit_closed (w : wire) (s : stream) :
  socket_is_open s = false -> transmit w s = emit (announce w) s.
Proof.
  intros H. unfold transmit, socket_send.
  change (socket_is_open (emit (announce w) s)) with (socket_is_open s). by rewrite H.
Qed.

Lemma run_open_listeners_opened (ls : list open_listener) (s : stream) :
  socket_is_open s = true ->
  exists s', run_open_listeners ls s = Normal s'
    ∧ sent s' = sent s ++ map wire_of_listener ls
    ∧ emitted s' = emitted s ++ map announce (map wire_of_listener ls)
    ∧ once_open s' = match ls with [] => once_open s | _ => [] end
    ∧ socket_is_open s' = true
    ∧ (forall ws, socket s = Some ws ->
         exists ws', socket s' = Some ws' ∧ readyState ws' = readyState ws
           ∧ ws_query ws' = ws_query ws ∧ ws_opening ws' = ws_opening ws)
    ∧ options s' = options s
    ∧ listening s' = listening s
    ∧ initialized s' = initialized s
    ∧ finished s' = finished s
    ∧ on_finish s' = on_finish s
    ∧ pushed s' = pushed s.
Proof.
  revert s. induction ls as [|l rest IH]; intros s Ho; cbn [run_open_listeners].
  - exists s. rewrite !app_nil_r. split_and!; try done. intros ws E. by exists ws.
  - assert (socket s ≠ None) as Hk.
    { unfold socket_is_open in Ho. by destruct (socket s). }
    assert (exists s1, run_open_listener l (set_once_open rest s) = Normal s1
              ∧ sent s1 = sent s ++ [wire_of_listener l]
              ∧ emitted s1 = emitted s ++ [announce (wire_of_listener l)]
              ∧ once_open s1 = rest
              ∧ socket s1 = socket s
              ∧ options s1 = options s
              ∧ listening s1 = listening s
              ∧ initialized s1 = initialized s
              ∧ finished s1 = finished s
              ∧ on_finish s1 = on_finish s
              ∧ pushed s1 = pushed s) as (s1 & E1 & Hs & He & Hl & Hsock & Hrest).
    { destruct l as [c|]; cbn [run_open_listener wire_of_listener announce].
      - unfold sendData, socket_send.
        change (socket_is_open (emit _ (set_once_open rest s))) with (socket_is_open s).
        rewrite Ho. cbn [and_then]. rewrite afterSend_drained by done.
        eexists. split; [reflexivity|]. destruct (drained _); by split_and!.
      - unfold sendJSON, socket_send.
        change (socket_is_open (emit _ (set_once_open rest s))) with (socket_is_open s).
        rewrite Ho. eexists. split; [reflexivity|]. by split_and!. }
    rewrite E1. cbn [and_then].
    destruct (IH s1) as (s' & E' & Hs' & He' & Hl' & Ho' & Hsock' & Hrest').
    { unfold socket_is_open in *. by rewrite Hsock. }
    exists s'. split; [exact E'|]. rewrite Hs', Hs, He', He, <- !app_assoc.
    destruct Hrest as (? & ? & ? & ? & ? & ?). destruct Hrest' as (? & ? & ? & ? & ? & ?).
    split_and!; try done; try congruence.
    + rewrite Hl'. by destruct rest.
    + intros ws E. apply Hsock'. by rewrite Hsock.
Qed.

Lemma onopen_opened (s : stream) (ws : websocket) :
  socket s = Some ws ->
  exists s' ws', onopen (set_readyState OPEN s) = Normal s'
    ∧ sent s' = sent s ++ Text (ws_opening ws) :: pending s
    ∧ emitted s' = emitted s ++ EvSendJSON (ws_opening ws) :: EvOpen :: map announce (pending s)
    ∧ once_open s' = []
    ∧ socket s' = Some ws' ∧ readyState ws' = OPEN
    ∧ ws_query ws' = ws_query ws ∧ ws_opening ws' = ws_opening ws
    ∧ options s' = options s
    ∧ listening s' = listening s
    ∧ initialized s' = initialized s
    ∧ finished s' = finished s
    ∧ on_finish s' = on_finish s
    ∧ pushed s' = pushed s.
Proof.
  intros E. unfold onopen, set_readyState. rewrite E. cbn [socket set_socket].
  unfold sendJSON, socket_send. cbn [ws_opening and_then].
  unfold socket_is_open at 1. cbn [socket set_socket emit set_emitted readyState].
  cbn [and_then]. unfold emit_open.
  match goal with |- context [run_open_listeners ?ls ?x] =>
    destruct (run_open_listeners_opened ls x) as (s' & E' & Hs & He & Hl & Ho & Hsock & Hrest)
  end; [done|].
  destruct (Hsock _ eq_refl) as (ws' & Ek & Hr & Hq & Hop).
  exists s', ws'. split; [exact E'|].
  cbn in Hs, He, Hl, Hrest, Hr, Hq, Hop.
  unfold pending. rewrite Hs, He, <- !app_assoc.
  split_and!; try done; try tauto.
  by destruct (once_open s).
Qed.

(** ** The socket opens *)

(** X4. When the socket opens, the opening message is sent first,
    'open' is emitted, and the listeners that waited for 'open' run once
    each, in the order they were added: the first chunk before the stop
    message.  If the socket opened again, only the opening message would
    be sent. *)
Theorem open_sends_handshake_then_listeners (s : stream) (ws : websocket) :
  socket s = Some ws ->
  exists s' s'', onopen (set_readyState OPEN s) = Normal s'
    ∧ sent s' = sent s ++ Text (ws_opening ws) :: map wire_of_listener (once_open s)
    ∧ emitted s' = emitted s ++ EvSendJSON (ws_opening ws) :: EvOpen
                     :: map announce (map wire_of_listener (once_open s))
    ∧ once_open s' = []
    ∧ socket_is_open s' = true
    ∧ onopen (set_readyState OPEN s') = Normal s''
    ∧ sent s'' = sent s' ++ [Text (ws_opening ws)].
Proof.
  intros E.
  destruct (onopen_opened s ws E)
    as (s' & ws' & E' & Hs & He & Hl & Ek & Hr & _ & Hop & _).
  destruct (onopen_opened s' ws' Ek) as (s'' & ws'' & E'' & Hs' & _).
  exists s', s''. split_and!; try done.
  - unfold socket_is_open. by rewrite Ek, Hr.
  - rewrite Hs'. unfold pending. by rewrite Hl, Hop.
Qed.

Lemma open_sends_handshake_then_listeners_witness :
  let s := run riff_sniffer (new_stream wav_options 16384) [Write wav_chunk; Stop] in
  let ws := {| readyState := CONNECTING; bufferedAmount := 0;
               ws_query := queryParams (normalize_options wav_options);
               ws_opening := openingMessage (normalize_options wav_options) |} in
  exists s', onopen (set_readyState OPEN s) = Normal s'
    ∧ sent s' = sent s ++ [Text (ws_opening ws); Binary wav_chunk; Text closingMessage].
Proof.
  intros s ws.
  assert (socket s = Some ws) as E by (vm_compute; reflexivity).
  assert (once_open s = [SendFirstChunk wav_chunk; SendStop]) as El
    by (vm_compute; reflexivity).
  destruct (open_sends_handshake_then_listeners s ws E) as (s' & _ & E' & Hs & _).
  rewrite El in Hs. cbn [map wire_of_listener] in Hs.
  exists s'. split; [exact E'|exact Hs].
Defined.

(** ** What the actions keep *)

Lemma wired_action (s s' : stream) : action s s' -> wired s -> wired s'.
Proof.
  intros Ha (Hi & Hf & Hs).
  destruct Ha as [s' Hc| | | |ws ws' E| ws E|c Hin Hfin|Hfin| |c s' Hin Hfin Ein|s' Hin Ein].
  - destruct Hc as (_ & _ & Ei & _ & Ek & _ & Ef & Es & _).
    unfold wired. by rewrite Ei, Ek, Ef, Es.
  - done.
  - done.
  - done.
  - split_and!; cbn; [|done|done]. split; [done|]. intros _. apply Hi. by rewrite E.
  - destruct (onopen_opened s ws E)
      as (s1 & ws1 & -> & _ & _ & _ & Ek & _ & _ & _ & _ & _ & Ei & _ & Ef & _).
    cbn [state_of]. unfold wired. rewrite Ei, Ef, Ek. split_and!; [|done|done].
    split; [done|]. intros _. apply Hi. by rewrite E.
  - assert (socket s ≠ None) as Hk by (by apply Hi).
    destruct (socket_is_open s) eqn:Ho.
    + rewrite transmit_open by done. by split_and!.
    + rewrite transmit_closed by done. by split_and!.
  - rewrite finish_unfold, Hfin. destruct (socket_is_open s) eqn:Ho; cbn [state_of].
    + split_and!; [done|done|]. cbn. intros Hk. unfold socket_is_open in Ho. by rewrite Hk in Ho.
    + by split_and!.
  - done.
  - apply initialize_Normal in Ein as [_ ->]. by split_and!.
  - apply initialize_Threw in Ein as [_ ->]. by split_and!.
Qed.

Lemma same_session_action (s0 s s' : stream) :
  action s s' -> wired s -> same_session s0 s -> same_session s0 s'.
Proof.
  intros Ha (Hi & Hf & Hs) (Hm & Hk).
  destruct Ha as [s' Hc| | | |ws ws' E Hq Hop| ws E|c Hin Hfin|Hfin|k v Hkv
                 |c s' Hin Hfin Ein|s' Hin Ein].
  - destruct Hc as (Eo & _ & _ & _ & Ek & _). unfold same_session. by rewrite Eo, Ek.
  - done.
  - done.
  - done.
  - split; [done|]. intros ws0 E0. destruct (Hk ws0 E0) as (ws1 & E1 & Hq1 & Hop1).
    exists ws'. cbn. rewrite E in E1. injection E1 as <-. split_and!; [done|congruence..].
  - destruct (onopen_opened s ws E)
      as (s1 & ws1 & -> & _ & _ & _ & Ek & _ & Hq & Hop & Eo & _).
    cbn [state_of]. split; [by rewrite Eo|].
    intros ws0 E0. destruct (Hk ws0 E0) as (ws2 & E2 & Hq2 & Hop2).
    rewrite E in E2. injection E2 as <-. exists ws1. split_and!; [done|congruence..].
  - destruct (socket_is_open s) eqn:Ho.
    + by rewrite transmit_open.
    + by rewrite transmit_closed.
  - rewrite finish_unfold, Hfin. by destruct (socket_is_open s).
  - split; [|done]. cbn. rewrite get_insert_ne; [done|]. by destruct Hkv as [->| ->].
  - apply initialize_Normal in Ein as [_ ->]. split.
    + fields. rewrite get_normalize_options.
      repeat (rewrite bool_decide_eq_false_2 by done). exact Hm.
    + intros ws0 E0. destruct (Hk ws0 E0) as (ws1 & E1 & _).
      assert (initialized s = true) as Hi' by (apply Hi; by rewrite E1). congruence.
  - apply initialize_Threw in Ein as [_ ->]. split; [|exact Hk].
    fields. rewrite get_normalize_options.
    repeat (rewrite bool_decide_eq_false_2 by done). exact Hm.
Qed.

Lemma announced_app (l1 l2 : list emission) :
  announced (l1 ++ l2) = announced l1 ++ announced l2.
Proof. apply flat_map_app. Qed.

Lemma announced_announce (l : list wire) : announced (map announce l) = l.
Proof.
  induction l as [|w l IH]; [done|].
  unfold announced in *. destruct w; cbn [map announce flat_map app]; by rewrite IH.
Qed.

Lemma announced_action (s s' : stream) :
  action s s' ->
  sent s `sublist_of` announced (emitted s) -> sent s' `sublist_of` announced (emitted s').
Proof.
  intros Ha H.
  destruct Ha as [s' Hc|e He| | | | ws E|c _ _|Hfin| |c s' _ _ Ein|s' _ Ein].
  - destruct Hc as (_ & _ & _ & _ & _ & _ & _ & -> & _ & ->). done.
  - cbn. rewrite announced_app. assert (announced [e] = []) as -> by (by destruct e).
    by rewrite app_nil_r.
  - done.
  - done.
  - done.
  - destruct (onopen_opened s ws E) as (s1 & ws1 & -> & Es & Ee & _).
    cbn [state_of]. rewrite Es, Ee, announced_app.
    change (announced (EvSendJSON (ws_opening ws) :: EvOpen :: map announce (pending s)))
      with (Text (ws_opening ws) :: announced (map announce (pending s))).
    rewrite announced_announce. by apply sublist_app.
  - destruct (socket_is_open s) eqn:Ho.
    + rewrite transmit_open by done. cbn. rewrite announced_app. by apply sublist_app.
    + rewrite transmit_closed by done. cbn. rewrite announced_app. by apply sublist_inserts_r.
  - rewrite finish_unfold, Hfin. destruct (socket_is_open s); cbn; [|done].
    rewrite announced_app. by apply sublist_app.
  - done.
  - by apply initialize_Normal in Ein as [_ ->].
  - by apply initialize_Threw in Ein as [_ ->].
Qed.

Lemma filter_is_stop_app (l1 l2 : list wire) :
  List.filter is_stop (l1 ++ l2) = [] <->
  List.filter is_stop l1 = [] ∧ List.filter is_stop l2 = [].
Proof. rewrite List.filter_app. split; [by intros [? ?]%app_eq_nil|by intros [-> ->]]. Qed.

Lemma after_stop_app (l1 l2 : list wire) :
  List.filter is_stop l1 = [] -> after_stop (l1 ++ l2) = after_stop l2.
Proof.
  induction l1 as [|w l1 IH]; [done|]. cbn. destruct (is_stop w); [done|]. exact IH.
Qed.

Lemma after_stop_none (l : list wire) : List.filter is_stop l = [] -> after_stop l = [].
Proof. intros H. rewrite <- (app_nil_r l). by rewrite after_stop_app. Qed.

Lemma after_stop_insert (l1 l2 : list wire) (msg : gmap string value) :
  is_stop (Text msg) = false ->
  binaries (after_stop (l1 ++ l2)) = [] -> binaries (after_stop (l1 ++ Text msg :: l2)) = [].
Proof.
  intros Hm. induction l1 as [|w l1 IH]; cbn [app after_stop].
  - by rewrite Hm.
  - destruct (is_stop w); [|exact IH].
    rewrite !binaries_app. cbn. done.
Qed.

Lemma after_stop_suffix (pre post : list wire) (w : wire) :
  is_stop w = true -> exists mid, after_stop (pre ++ w :: post) = mid ++ post.
Proof.
  intros Hw. induction pre as [|a pre IH]; cbn [app after_stop].
  - rewrite Hw. by exists [].
  - destruct (is_stop a); [|exact IH]. exists (pre ++ [w]). by rewrite <- app_assoc.
Qed.

Lemma after_stop_prefix (l1 l2 : list wire) :
  binaries (after_stop (l1 ++ l2)) = [] -> binaries (after_stop l1) = [].
Proof.
  induction l1 as [|w l1 IH]; [done|]. cbn. destruct (is_stop w); [|exact IH].
  rewrite binaries_app. by intros [? _]%app_eq_nil.
Qed.

Lemma binaries_pending (ls : list open_listener) :
  binaries (map wire_of_listener ls) = first_chunks ls.
Proof.
  induction ls as [|l ls IH]; [done|].
  unfold binaries, first_chunks in *.
  destruct l; cbn [map wire_of_listener flat_map app]; by rewrite IH.
Qed.

Lemma orderly_action (s s' : stream) : action s s' -> orderly s -> orderly s'.
Proof.
  intros Ha (Hop & Hfc & Hns & Hq).
  destruct Ha as [s' Hc| | | |ws ws' E Hqy Hopn Hr| ws E|c Hin Hfin|Hfin|
                 |c s' Hin Hfin Ein|s' Hin Ein].
  - destruct Hc as (_ & _ & _ & Ef & Ek & El & _ & Es & _).
    unfold orderly, opening_ok, socket_is_open, pending. by rewrite Ef, Ek, El, Es.
  - done.
  - done.
  - done.
  - split_and!; [| |done|done].
    + intros ws1 E1. cbn in E1. injection E1 as <-. rewrite Hopn. by apply Hop.
    + unfold socket_is_open. cbn. intros Ho. apply Hfc. unfold socket_is_open. rewrite E.
      destruct (readyState ws') eqn:Er; try done. by rewrite Hr.
  - destruct (onopen_opened s ws E)
      as (s1 & ws1 & -> & Es & _ & El & Ek & _ & _ & Eop & _ & _ & _ & Ef & _).
    cbn [state_of]. pose proof (Hop ws E) as Hstart.
    unfold orderly, pending. rewrite Es, El, Ef. cbn [map first_chunks flat_map].
    rewrite app_nil_r. split_and!; [|done| |].
    + intros ws2 E2. rewrite Ek in E2. injection E2 as <-. by rewrite Eop.
    + intros Hf. specialize (Hns Hf). apply filter_is_stop_app in Hns as [H1 H2].
      apply filter_is_stop_app. split; [done|]. cbn [List.filter].
      by rewrite (is_stop_opening _ Hstart).
    + apply after_stop_insert; [by apply is_stop_opening|done].
  - specialize (Hns Hfin). apply filter_is_stop_app in Hns as [H1 H2].
    destruct (socket_is_open s) eqn:Ho.
    + rewrite transmit_open by done.
      assert (List.filter is_stop ((sent s ++ [Binary c]) ++ pending s) = []) as Hnone.
      { apply filter_is_stop_app. split; [|done]. apply filter_is_stop_app. by split. }
      split_and!; [exact Hop|intros _; exact (Hfc eq_refl)|intros _; exact Hnone|].
      change (binaries (after_stop ((sent s ++ [Binary c]) ++ pending s)) = []).
      by rewrite after_stop_none.
    + rewrite transmit_closed by done.
      split_and!; [exact Hop| |intros _; by apply filter_is_stop_app|exact Hq].
      intros Ho'. change (socket_is_open s = true) in Ho'. congruence.
  - specialize (Hns Hfin). apply filter_is_stop_app in Hns as [H1 H2].
    rewrite finish_unfold, Hfin. destruct (socket_is_open s) eqn:Ho; cbn [state_of].
    + split_and!; [exact Hop|intros _; exact (Hfc eq_refl)|done|].
      change (binaries (after_stop ((sent s ++ [Text closingMessage]) ++ pending s)) = []).
      rewrite <- app_assoc. rewrite after_stop_app by done. cbn [app after_stop].
      rewrite is_stop_closingMessage. unfold pending. rewrite binaries_pending. by apply Hfc.
    + split_and!; [exact Hop| |done|].
      * intros Ho'. change (socket_is_open s = true) in Ho'. congruence.
      * change (binaries (after_stop (sent s ++ map wire_of_listener (once_open s ++ [SendStop])))
                = []).
        rewrite map_app, app_assoc.
        rewrite after_stop_app; [done|]. apply filter_is_stop_app. by split.
  - done.
  - specialize (Hns Hfin). apply filter_is_stop_app in Hns as [H1 H2].
    assert (List.filter is_stop (sent s ++ pending s ++ [Binary c]) = []) as Hnone.
    { apply filter_is_stop_app. split; [done|]. apply filter_is_stop_app. by split. }
    apply initialize_Normal in Ein as [_ ->].
    match goal with |- orderly ?x =>
      assert (pending x = pending s ++ [Binary c]) as Hp
    end.
    { unfold pending. fields. by rewrite map_app. }
    unfold orderly. rewrite Hp. split_and!.
    + intros ws E. cbn in E. injection E as <-. apply openingMessage_action.
    + done.
    + intros _. exact Hnone.
    + change (binaries (after_stop (sent s ++ pending s ++ [Binary c])) = []).
      by rewrite after_stop_none.
  - apply initialize_Threw in Ein as [_ ->]. by split_and!.
Qed.

(** ** Every run *)

Lemma wired_new_stream (opts : gmap string value) (hwm : N) : wired (new_stream opts hwm).
Proof. by split_and!. Qed.

Lemma orderly_new_stream (opts : gmap string value) (hwm : N) : orderly (new_stream opts hwm).
Proof. by split_and!. Qed.

(** X5. After the stop message no audio goes to the service: in the wire
    log of every run, no chunk follows the stop message. *)
Theorem no_audio_after_stop (fromHeader : chunk -> value) (opts : gmap string value)
    (hwm : N) (evs : list event) (pre post : list wire) :
  sent (run fromHeader (new_stream opts hwm) evs) = pre ++ Text closingMessage :: post ->
  binaries post = [].
Proof.
  intros E.
  assert (orderly (run fromHeader (new_stream opts hwm) evs)) as (_ & _ & _ & Hq).
  { apply run_actions; [apply orderly_action|apply orderly_new_stream]. }
  apply after_stop_prefix in Hq. rewrite E in Hq.
  destruct (after_stop_suffix pre post (Text closingMessage) is_stop_closingMessage)
    as (mid & Hmid).
  rewrite Hmid, binaries_app in Hq. by apply app_eq_nil in Hq as [_ ?].
Qed.

Lemma no_audio_after_stop_witness :
  sent (run riff_sniffer (new_stream wav_options 16384)
          [Write wav_chunk; SocketOpen; Stop; Write noise_chunk; End])
  = [Text (openingMessage wav_options); Binary wav_chunk] ++ Text closingMessage :: []
  ∧ binaries ([] : list wire) = [].
Proof.
  assert (sent (run riff_sniffer (new_stream wav_options 16384)
                  [Write wav_chunk; SocketOpen; Stop; Write noise_chunk; End])
          = [Text (openingMessage wav_options); Binary wav_chunk] ++ Text closingMessage :: [])
    as H by (vm_compute; reflexivity).
  split; [exact H|].
  exact (no_audio_after_stop riff_sniffer wav_options 16384
           [Write wav_chunk; SocketOpen; Stop; Write noise_chunk; End]
           [Text (openingMessage wav_options); Binary wav_chunk] [] H).
Defined.

(** X6. The debug events are complete: whatever is on the wire was
    announced, in the same order, by a 'send-json' or 'send-data' event
    carrying it. *)
Theorem sent_was_announced (fromHeader : chunk -> value) (opts : gmap string value)
    (hwm : N) (evs : list event) :
  let s := run fromHeader (new_stream opts hwm) evs in
  sent s `sublist_of` announced (emitted s).
Proof.
  apply (run_actions fromHeader (fun s => sent s `sublist_of` announced (emitted s))).
  - apply announced_action.
  - done.
Qed.

(** X7. [initialize] runs at most once: in every state that a run
    reaches, [initialize] has run exactly if there is a socket, ['finish']
    is bound to [finish] exactly then, and whatever happens afterwards
    the socket keeps the query parameters and the opening message it was
    made with. *)
Theorem initialize_runs_once (fromHeader : chunk -> value) (opts : gmap string value)
    (hwm : N) (evs evs' : list event) :
  let s := run fromHeader (new_stream opts hwm) evs in
  (initialized s = true <-> socket s ≠ None)
  ∧ on_finish s = initialized s
  ∧ (forall ws, socket s = Some ws ->
       exists ws', socket (run fromHeader s evs') = Some ws'
         ∧ ws_query ws' = ws_query ws ∧ ws_opening ws' = ws_opening ws).
Proof.
  intros s.
  assert (wired s) as Hw.
  { apply run_actions; [apply wired_action|apply wired_new_stream]. }
  destruct Hw as (Hi & Hf & Hs). split_and!; [exact Hi|exact Hf|].
  assert (wired (run fromHeader s evs') ∧ same_session s (run fromHeader s evs'))
    as [_ [_ Hk]].
  { apply (run_actions fromHeader (fun x => wired x ∧ same_session s x)).
    - intros x y Ha [Hx Hsx]. split; [by apply (wired_action x)|].
      by apply (same_session_action s x).
    - split; [done|]. split; [done|]. intros ws E. by exists ws. }
  exact Hk.
Qed.

(** X8. The output mode is fixed by the constructor: [objectMode] is
    turned into [readableObjectMode] and deleted, no run changes the mode
    afterwards, and a stream made with [objectMode] pushes every frame
    that is neither an error nor [listening] whole. *)
Theorem objectMode_alias (fromHeader : chunk -> value) (opts : gmap string value)
    (hwm : N) (evs : list event) (data : value) :
  truthy (get opts "objectMode") = true ->
  is_result_frame data = true ->
  let s := run fromHeader (new_stream opts hwm) evs in
  options (new_stream opts hwm) !! "objectMode" = None
  ∧ get (options s) "readableObjectMode" = VBool true
  ∧ onmessage (FJson data) s = Normal (push data (emit (EvMessage (FJson data)) s)).
Proof.
  intros Hm Hd s.
  assert (get (options (new_stream opts hwm)) "readableObjectMode" = VBool true) as H0.
  { unfold get. cbn [options new_stream]. rewrite Hm.
    rewrite lookup_delete_ne by done. by rewrite lookup_insert_eq. }
  assert (get (options s) "readableObjectMode" = VBool true) as Hs.
  { rewrite <- H0.
    assert (wired s ∧ same_session (new_stream opts hwm) s) as [_ [Hmode _]].
    { apply (run_actions fromHeader
               (fun x => wired x ∧ same_session (new_stream opts hwm) x)).
      - intros x y Ha [Hx Hsx]. split; [by apply (wired_action x)|].
        by apply (same_session_action _ x).
      - split; [apply wired_new_stream|]. split; [done|]. intros ws E. by exists ws. }
    exact Hmode. }
  split_and!.
  - cbn [options new_stream]. rewrite Hm. apply lookup_delete_eq.
  - exact Hs.
  - rewrite (onmessage_result_frame s data Hd). cbv zeta.
    change (options (emit (EvMessage (FJson data)) s)) with (options s).
    by rewrite Hs.
Qed.

Lemma objectMode_alias_witness :
  let opts : gmap string value :=
    {[ "objectMode" := VBool true; "content-type" := VStr "audio/wav" ]} in
  let s := run riff_sniffer (new_stream opts 16384) [Write wav_chunk; SocketOpen] in
  get (options s) "readableObjectMode" = VBool true
  ∧ onmessage (FJson hello_frame) s
    = Normal (push hello_frame (emit (EvMessage (FJson hello_frame)) s)).
Proof.
  intros opts s.
  destruct (objectMode_alias riff_sniffer opts 16384 [Write wav_chunk; SocketOpen]
              hello_frame eq_refl eq_refl) as (_ & H1 & H2).
  split; [exact H1|exact H2].
Defined.

(** ** The first chunk makes the socket *)

Section FirstChunkOnly.
Variable fromHeader : chunk -> value.

Lemma unused_step (s : stream) (ev : event) :
  unused s -> (forall c, ev ≠ Write c) -> unused (step fromHeader s ev).
Proof.
  intros (Hk & Hi & Hf & Ha & Hw & Hb & Ht & Htk) Hev.
  assert (forall s', unused s' -> unused (land (run_tick fromHeader (land (Normal s')))))
    as Hrest.
  { intros s' H'. cbn [land]. rewrite run_tick_idle; [done|]. by destruct H' as (_&_&_&_&_&_&_&?). }
  assert (forall s', unused s' -> exists s'', finish s' = Normal s'' ∧ unused s'') as Hfin.
  { intros s' (Hk' & H'). rewrite finish_unfold. destruct (finished s'); [by eexists|].
    unfold socket_is_open. rewrite Hk'. eexists. split; [done|]. by split. }
  assert (unused s) as Hs by done.
  unfold step. destruct ev; cbn [handle].
  - by destruct (Hev c).
  - unfold end_, finishMaybe. cbn. rewrite Hw, Hb, Hf. cbn.
    destruct (finish_emitted _); by apply Hrest.
  - unfold stop. destruct (Hfin (emit EvStop s)) as (s' & -> & H'); [done|]. by apply Hrest.
  - destruct (Hfin s) as (s' & -> & H'); [done|]. by apply Hrest.
  - rewrite Ha. by apply Hrest.
  - rewrite Ht. by apply Hrest.
  - unfold set_bufferedAmount. rewrite Hk. by apply Hrest.
  - unfold onopen, set_readyState. rewrite Hk. cbn match. rewrite Hk. by apply Hrest.
  - rewrite Hk. by apply Hrest.
  - rewrite Hk. by apply Hrest.
  - rewrite Hk. by apply Hrest.
  - by apply Hrest.
Qed.

Lemma socket_after_write (evs : list event) (s : stream) :
  unused s -> socket (run fromHeader s evs) ≠ None -> exists c, Write c ∈ evs.
Proof.
  revert s. induction evs as [|ev evs IH]; intros s Hs Hk.
  - destruct Hs as (E & _). change (socket s ≠ None) in Hk. by rewrite E in Hk.
  - assert ((exists c, ev = Write c) ∨ (forall c, ev ≠ Write c)) as [[c ->]|Hev].
    { destruct ev; eauto. }
    + exists c. apply list_elem_of_here.
    + destruct (IH (step fromHeader s ev)) as (c & Hc).
      * by apply unused_step.
      * exact Hk.
      * exists c. by apply list_elem_of_further.
Qed.

Lemma stopped_early_step (s : stream) (ev : event) :
  stopped_early s -> stopped_early (step fromHeader s ev).
Proof.
  intros (Hf & Hk & Hi & Hs & Hw & Ht & Htk).
  assert (forall o, stopped_early (state_of o) ->
            stopped_early (land (run_tick fromHeader (land o)))) as Hrest.
  { intros o H'. assert (stopped_early (land o)) as H'' by (by destruct o).
    rewrite run_tick_idle by (by destruct H'' as (_&_&_&_&_&_&?)). exact H''. }
  assert (forall s', stopped_early s' -> finish s' = Normal s') as Hfin.
  { intros s' (Hf' & _). unfold finish. by rewrite Hf'. }
  assert (stopped_early s) as Hst by done.
  unfold step. apply Hrest. destruct ev; cbn [handle].
  - unfold write. rewrite Hw.
    destruct (ending _); [unfold emit_error; by destruct (on_error s)|done].
  - unfold end_, finishMaybe. cbn. rewrite Hw. by cbn.
  - unfold stop. by rewrite Hfin.
  - by rewrite Hfin.
  - destruct (awaiting_token s) as [c|]; [|done].
    unfold token_callback, write_authorized, emit_error.
    destruct r; fields; [destruct (on_error s)|]; cbn [and_then]; fields; by rewrite ?Hf.
  - by rewrite Ht.
  - unfold set_bufferedAmount. by rewrite Hk.
  - unfold onopen, set_readyState. rewrite Hk. cbn match. by rewrite Hk.
  - by rewrite Hk.
  - by rewrite Hk.
  - by rewrite Hk.
  - done.
Qed.

End FirstChunkOnly.

(** X9. The socket is made by the first chunk and by nothing else: a run
    that has a socket holds a write. *)
Theorem socket_needs_first_chunk (fromHeader : chunk -> value) (opts : gmap string value)
    (hwm : N) (evs : list event) :
  socket (run fromHeader (new_stream opts hwm) evs) ≠ None -> exists c, Write c ∈ evs.
Proof. apply socket_after_write. by split_and!. Qed.

Lemma socket_needs_first_chunk_witness :
  socket (run riff_sniffer (new_stream wav_options 16384) [End; Stop; SocketOpen]) = None
  ∧ socket (run riff_sniffer (new_stream wav_options 16384) [Stop; Write wav_chunk]) = None
  ∧ socket (run riff_sniffer (new_stream wav_options 16384) [Write wav_chunk]) ≠ None
  ∧ exists c, Write c ∈ [Write wav_chunk].
Proof.
  assert (socket (run riff_sniffer (new_stream wav_options 16384) [Write wav_chunk]) ≠ None)
    as H by (vm_compute; discriminate).
  split; [vm_compute; reflexivity|]. split; [vm_compute; reflexivity|]. split; [exact H|].
  exact (socket_needs_first_chunk riff_sniffer wav_options 16384 [Write wav_chunk] H).
Defined.

(** X10. [stop()] before the first chunk leaves a dead stream: the chunk
    written next is dropped without its callback being called, so that
    the writable side waits forever, and whatever happens afterwards no
    socket is made and nothing is sent, not even the stop message. *)
Theorem stop_before_first_chunk (fromHeader : chunk -> value) (opts : gmap string value)
    (hwm : N) (c : chunk) (evs : list event) :
  let s := run fromHeader (new_stream opts hwm) (Stop :: Write c :: evs) in
  finished s = true
  ∧ socket s = None
  ∧ sent s = []
  ∧ writing (_writableState s) = true.
Proof.
  intros s.
  assert (stopped_early (run fromHeader (new_stream opts hwm) [Stop; Write c])) as H0.
  { cbn [run fold_left]. unfold step at 2. cbn [handle]. unfold stop.
    rewrite finish_unfold. cbn [finished emit set_emitted new_stream].
    unfold socket_is_open. cbn [socket new_stream state_of land].
    rewrite run_tick_idle by done. cbn [land].
    unfold step. cbn [handle]. unfold write. cbn [ending writing _writableState
      set_once_open set_finished set_emitted].
    unfold _write. destruct (truthy _).
    - cbn [land]. rewrite run_tick_idle by done. by split_and!.
    - unfold write_authorized. cbn [finished set_writing set_writableState set_once_open
        set_finished]. cbn [land]. rewrite run_tick_idle by done. by split_and!. }
  assert (stopped_early s) as (Hf & Hk & _ & Hs & Hw & _).
  { subst s. change (Stop :: Write c :: evs) with ([Stop; Write c] ++ evs).
    rewrite run_app. apply run_invariant; [exact H0|].
    intros. by apply stopped_early_step. }
  done.
Qed.

(** ** A socket that is not open *)

Section Closed.
Variable fromHeader : chunk -> value.

Lemma silent_while_closed (s : stream) (evs : list event) :
  socket_is_open s = false -> SocketOpen ∉ evs ->
  sent (run fromHeader s evs) = sent s ∧ socket_is_open (run fromHeader s evs) = false.
Proof.
  revert s. induction evs as [|ev evs IH]; intros s Ho Hev; [done|].
  cbn [run fold_left]. apply not_elem_of_cons in Hev as [Hne Hev].
  destruct (wire_effect_step fromHeader s ev) as (_ & Hc & _); [done|].
  destruct (Hc Ho) as [Es Eo].
  destruct (IH (step fromHeader s ev) Eo Hev) as [Es' Eo']. split; [|exact Eo'].
  change (fold_left (step fromHeader) evs (step fromHeader s ev))
    with (run fromHeader (step fromHeader s ev) evs).
  by rewrite Es'.
Qed.

Lemma step_socket_close (s : stream) (code : Z) (reason : string) :
  socket s ≠ None -> tick s = false ->
  step fromHeader s (SocketClose code reason)
  = emit (EvClose code reason) (push VNull (set_listening false (set_readyState CLOSED s))).
Proof.
  intros Hk Htk. unfold step. cbn [handle]. destruct (socket s) as [ws|] eqn:E; [|done].
  unfold onclose. cbn [land]. rewrite run_tick_idle; [done|].
  unfold set_readyState. rewrite E. exact Htk.
Qed.

Lemma step_socket_error (s : stream) :
  socket s ≠ None -> tick s = false ->
  step fromHeader s SocketError
  = if on_error s
    then push VNull (emit (EvError WEBSOCKET_CONNECTION_ERROR)
                       (set_listening false (set_readyState CLOSED s)))
    else set_uncaught (S (uncaught s)) (set_listening false (set_readyState CLOSED s)).
Proof.
  intros Hk Htk. unfold step. cbn [handle]. destruct (socket s) as [ws|] eqn:E; [|done].
  unfold onerror, emit_error, set_readyState. rewrite E. fields.
  destruct (on_error s); cbn [and_then land]; by rewrite run_tick_idle.
Qed.

(** A frame that is not JSON, on a stream with nothing queued for the
    next tick. *)
Lemma step_junk_frame (s : stream) (f : frame) (e : error_kind) :
  onmessage f s = emit_error e s -> socket s ≠ None -> tick s = false ->
  step fromHeader s (SocketMessage f)
  = if on_error s then emit (EvError e) s else set_uncaught (S (uncaught s)) s.
Proof.
  intros Hf Hk Htk. unfold step. cbn [handle]. destruct (socket s); [|done].
  rewrite Hf. unfold emit_error. destruct (on_error s); cbn [land]; by rewrite run_tick_idle.
Qed.

End Closed.

(** X21. While the socket is not open (it is still connecting, or the
    stream has called [close()], or it has closed), nothing is sent,
    whatever the caller does, and nothing but the socket opening makes it
    open. *)
Theorem nothing_sent_unless_open (fromHeader : chunk -> value) (s : stream)
    (evs : list event) :
  socket_is_open s = false -> SocketOpen ∉ evs ->
  sent (run fromHeader s evs) = sent s ∧ socket_is_open (run fromHeader s evs) = false.
Proof. apply silent_while_closed. Qed.

Lemma nothing_sent_unless_open_witness :
  let s := run riff_sniffer (new_stream wav_options 16384)
             [Write wav_chunk; SocketOpen; SocketMessage listening_frame; Stop;
              SocketMessage listening_frame] in
  (exists ws, socket s = Some ws ∧ readyState ws = CLOSING)
  ∧ sent (run riff_sniffer s [Write noise_chunk; End; Stop; Timeout]) = sent s.
Proof.
  intros s.
  assert (socket_is_open s = false) as Ho by (vm_compute; reflexivity).
  assert (SocketOpen ∉ [Write noise_chunk; End; Stop; Timeout]) as Hev.
  { intros H. repeat (apply elem_of_cons in H as [H|H]; [discriminate H|]).
    by apply not_elem_of_nil in H. }
  split.
  - vm_compute. eexists. split; reflexivity.
  - exact (proj1 (nothing_sent_unless_open riff_sniffer s _ Ho Hev)).
Defined.

(** X11. When the socket closes, the stream stops listening and ends
    its output, with a 'close' event.  When the socket fails, the stream
    stops listening, and if somebody listens for 'error' it emits the
    error and ends its output; if nobody does, the emitter throws, and
    the output is not ended.  In each case, unless the socket opens
    again, nothing more is sent, whatever the caller does. *)
Theorem nothing_sent_after_close (fromHeader : chunk -> value) (s : stream)
    (code : Z) (reason : string) (evs : list event) :
  socket s ≠ None -> tick s = false -> SocketOpen ∉ evs ->
  (let s' := step fromHeader s (SocketClose code reason) in
   listening s' = false
   ∧ pushed s' = pushed s ++ [VNull]
   ∧ emitted s' = emitted s ++ [EvClose code reason]
   ∧ uncaught s' = uncaught s
   ∧ sent (run fromHeader s' evs) = sent s)
  ∧ (let s' := step fromHeader s SocketError in
     listening s' = false
     ∧ (if on_error s
        then pushed s' = pushed s ++ [VNull]
             ∧ emitted s' = emitted s ++ [EvError WEBSOCKET_CONNECTION_ERROR]
             ∧ uncaught s' = uncaught s
        else pushed s' = pushed s
             ∧ emitted s' = emitted s
             ∧ uncaught s' = S (uncaught s))
     ∧ sent (run fromHeader s' evs) = sent s).
Proof.
  intros Hk Htk Hev.
  rewrite (step_socket_close fromHeader s code reason Hk Htk).
  rewrite (step_socket_error fromHeader s Hk Htk).
  destruct (socket s) as [ws|] eqn:E; [clear Hk|done].
  unfold set_readyState. rewrite E. cbv zeta. split.
  - split_and!; [reflexivity..|].
    match goal with |- sent (run _ ?x _) = _ =>
      destruct (silent_while_closed fromHeader x evs) as [-> _]; [reflexivity|exact Hev|]
    end.
    reflexivity.
  - destruct (on_error s).
    + split_and!; [reflexivity..|].
      match goal with |- sent (run _ ?x _) = _ =>
        destruct (silent_while_closed fromHeader x evs) as [-> _]; [reflexivity|exact Hev|]
      end.
      reflexivity.
    + split_and!; [reflexivity..|].
      match goal with |- sent (run _ ?x _) = _ =>
        destruct (silent_while_closed fromHeader x evs) as [-> _]; [reflexivity|exact Hev|]
      end.
      reflexivity.
Qed.

Lemma nothing_sent_after_close_witness :
  let s := run riff_sniffer (new_stream wav_options 16384)
             [OnError; Write wav_chunk; SocketOpen] in
  sent (run riff_sniffer (step riff_sniffer s (SocketClose 1006 ""))
          [Write noise_chunk; Stop; End; Timeout])
  = sent s
  ∧ pushed (step riff_sniffer s SocketError) = pushed s ++ [VNull]
  ∧ sent (run riff_sniffer (step riff_sniffer s SocketError)
            [Write noise_chunk; Stop; End; Timeout])
    = sent s.
Proof.
  intros s.
  assert (socket s ≠ None) as Hk by (vm_compute; discriminate).
  assert (tick s = false) as Htk by (vm_compute; reflexivity).
  assert (SocketOpen ∉ [Write noise_chunk; Stop; End; Timeout]) as Hev.
  { intros H. repeat (apply elem_of_cons in H as [H|H]; [discriminate H|]).
    by apply not_elem_of_nil in H. }
  destruct (nothing_sent_after_close riff_sniffer s 1006 "" _ Hk Htk Hev)
    as [(_ & _ & _ & _ & H1) (_ & H2 & H3)].
  change (on_error s) with true in H2. cbv iota in H2.
  split; [exact H1|]. split; [exact (proj1 H2)|exact H3].
Defined.

(** ** Frames that are not JSON *)

(** X12. On every stream with a socket, a binary frame, or a text frame
    that is not JSON, gives an 'error' event and nothing else: no
    'message' event, no output, the socket is left as it is; if nobody
    listens for 'error', the emitter throws instead, and nothing else
    happens either.  On a connected, idle stream the next chunk is sent
    as usual. *)
Theorem junk_frame_only_errors (fromHeader : chunk -> value) (s : stream) (c : chunk) :
  socket s ≠ None -> tick s = false ->
  step fromHeader s (SocketMessage FBinary)
  = (if on_error s then emit (EvError UnexpectedBinaryData) s
     else set_uncaught (S (uncaught s)) s)
  ∧ step fromHeader s (SocketMessage FMalformed)
    = (if on_error s then emit (EvError InvalidJSON) s
       else set_uncaught (S (uncaught s)) s)
  ∧ (accepting s ->
     sent (run fromHeader s [SocketMessage FBinary; SocketMessage FMalformed; Write c])
     = sent s ++ [Binary c]).
Proof.
  intros Hk Htk.
  assert (forall s' f e, onmessage f s' = emit_error e s' -> accepting s' ->
            accepting (step fromHeader s' (SocketMessage f))
            ∧ sent (step fromHeader s' (SocketMessage f)) = sent s') as Hacc.
  { intros s' f e Hf Ha.
    rewrite (step_junk_frame fromHeader s' f e Hf).
    - by destruct (on_error s').
    - destruct Ha as (_ & _ & Ho & _). unfold socket_is_open in Ho. by destruct (socket s').
    - by destruct Ha as (_&_&_&_&_&_&_&?). }
  split; [by apply step_junk_frame|]. split; [by apply step_junk_frame|].
  intros Ha. cbn [run fold_left].
  destruct (Hacc s FBinary UnexpectedBinaryData eq_refl Ha) as [Ha1 Hs1].
  destruct (Hacc _ FMalformed InvalidJSON eq_refl Ha1) as [Ha2 Hs2].
  rewrite write_when_accepting by exact Ha2. by rewrite Hs2, Hs1.
Qed.

Lemma junk_frame_only_errors_witness :
  let s := run riff_sniffer (new_stream wav_options 16384)
             [OnError; Write wav_chunk; SocketOpen] in
  step riff_sniffer s (SocketMessage FBinary)
  = (if on_error s then emit (EvError UnexpectedBinaryData) s
     else set_uncaught (S (uncaught s)) s)
  ∧ sent (run riff_sniffer s [SocketMessage FBinary; SocketMessage FMalformed;
                              Write noise_chunk])
    = sent s ++ [Binary noise_chunk].
Proof.
  intros s.
  assert (socket s ≠ None) as Hk by (vm_compute; discriminate).
  assert (accepting s) as Ha by (vm_compute; repeat split).
  destruct (junk_frame_only_errors riff_sniffer s noise_chunk Hk eq_refl) as (H1 & _ & H3).
  split; [exact H1|exact (H3 Ha)].
Defined.

(** ** Results that cannot be read *)

Lemma forEach_result_app (l1 l2 : list value) (s : stream) :
  forEach_result (l1 ++ l2) s = forEach_result l1 s >>> forEach_result l2.
Proof.
  revert s. induction l1 as [|r l1 IH]; intros s; cbn [app forEach_result]; [done|].
  destruct (push_final r s) as [s1|s1]; cbn [and_then]; [apply IH|done].
Qed.

Lemma forEach_result_readable (results : list value) (s : stream) :
  forallb readable_result results = true ->
  exists s', forEach_result results s = Normal s'
    ∧ pushed s' = pushed s ++ final_transcripts results
    ∧ sent s' = sent s ∧ emitted s' = emitted s.
Proof.
  revert s. induction results as [|r rs IH]; intros s; cbn [forEach_result forallb].
  - intros _. exists s. by rewrite app_nil_r.
  - intros [Hr Hrs]%andb_prop. rewrite final_transcripts_cons.
    pose proof (push_final_frame r s) as [Es Ee].
    destruct (push_final_cases r s) as [(s1 & E1 & Hp)|[Hr' _]]; [|congruence].
    rewrite E1 in *. cbn [and_then state_of] in *.
    destruct (IH s1 Hrs) as (s' & E' & Hp' & Es' & Ee').
    exists s'. split; [exact E'|]. rewrite Hp', Hp, <- app_assoc. split_and!; congruence.
Qed.

(** X13. In text mode, a result that cannot be read (it is [null], or it
    is final and the first of its alternatives is missing) makes
    [onmessage] throw: the transcripts of the results before it have been
    pushed, those of the results after it are lost. *)
Theorem unreadable_result_throws (s : stream) (data : value) (pre post : list value)
    (bad : value) :
  is_result_frame data = true ->
  truthy (get (options s) "readableObjectMode") = false ->
  field data "results" = VArr (pre ++ bad :: post) ->
  forallb readable_result pre = true ->
  readable_result bad = false ->
  exists s', onmessage (FJson data) s = Threw s'
    ∧ pushed s' = pushed s ++ final_transcripts pre
    ∧ sent s' = sent s
    ∧ emitted s' = emitted s ++ [EvMessage (FJson data)].
Proof.
  intros Hf Hm Hr Hpre Hbad. rewrite (onmessage_result_frame s data Hf). cbv zeta.
  change (options (emit (EvMessage (FJson data)) s)) with (options s).
  rewrite Hm, Hr, forEach_result_app.
  destruct (forEach_result_readable pre (emit (EvMessage (FJson data)) s) Hpre)
    as (s1 & -> & Hp & Hs & He).
  cbn [and_then forEach_result].
  destruct (push_final_cases bad s1) as [(s2 & E2 & _)|[_ ->]].
  - exfalso. unfold push_final, readable_result in *.
    destruct (is_nullish bad) eqn:Hn; [by destruct bad|].
    rewrite !(prop_field bad) in E2 by done. cbn [negb andb] in Hbad.
    destruct (truthy (field bad "final")); [|done].
    destruct (truthy (field bad "alternatives")) eqn:Ha; [|done].
    cbn in Hbad. apply negb_false_iff in Hbad.
    rewrite (index0_first _ Ha) in E2.
    by destruct (first (field bad "alternatives")).
  - cbn [and_then]. by exists s1.
Qed.

Lemma unreadable_result_throws_witness :
  exists s', onmessage (FJson broken_frame) (new_stream wav_options 16384) = Threw s'
    ∧ pushed s' = [VStr "one"].
Proof.
  destruct (unreadable_result_throws (new_stream wav_options 16384) broken_frame
              [VObj [("final", VBool true);
                     ("alternatives", VArr [VObj [("transcript", VStr "one")]])]]
              [VObj [("final", VBool true);
                     ("alternatives", VArr [VObj [("transcript", VStr "three")]])]]
              (VObj [("final", VBool true); ("alternatives", VArr [])])
              eq_refl eq_refl eq_refl eq_refl eq_refl) as (s' & E & Hp & _).
  exists s'. split; [exact E|exact Hp].
Defined.

(** ** The token manager *)

Lemma assoc_assoc_set (k k' : string) (v : value) (fields : list (string * value)) :
  assoc k' (assoc_set k v fields) = if String.eqb k' k then v else assoc k' fields.
Proof.
  induction fields as [|[k0 v0] fields IH]; cbn [assoc_set assoc].
  - by destruct (String.eqb k' k).
  - destruct (String.eqb_spec k k0) as [->|Hne]; cbn [assoc].
    + by destruct (String.eqb k' k0).
    + rewrite IH. destruct (String.eqb_spec k' k0) as [->|Hne']; [|done].
      destruct (String.eqb_spec k0 k) as [->|_]; [done|done].
Qed.

Lemma field_with_authorization (headers : value) (token k : string) :
  field (with_authorization headers token) k =
    if String.eqb k "authorization" then VStr (String.append "Bearer " token)
    else field headers k.
Proof.
  unfold with_authorization, field. cbn [prop default from_option id].
  rewrite assoc_assoc_set. destruct (String.eqb k "authorization"); [done|].
  by destruct headers.
Qed.

Section Token.
Variable fromHeader : chunk -> value.

Lemma step_write_authorizing (s : stream) (c : chunk) :
  authorizing s ->
  step fromHeader s (Write c) = set_awaiting_token (Some c) (set_writing true s).
Proof.
  intros (Hi & Hf & Ho & Ht & Hw & He & Hb & Htk).
  unfold step. cbn [handle]. unfold write. rewrite He, Hw. unfold _write.
  change (options (set_writing true s)) with (options s). rewrite Ht. cbn [land].
  by rewrite run_tick_idle.
Qed.

Lemma step_token_authorizing (s : stream) (c : chunk) (t : string) :
  authorizing s ->
  let s2 := step fromHeader (set_awaiting_token (Some c) (set_writing true s))
              (Token (TokenOk t)) in
  sent s2 = sent s ++ [Binary c]
  ∧ options s2
    = <["headers" := with_authorization (get (options s) "headers") t]> (options s)
  ∧ awaiting_token s2 = None.
Proof.
  intros (Hi & Hf & Ho & Ht & Hw & He & Hb & Htk).
  unfold step. cbn [handle awaiting_token set_awaiting_token]. unfold token_callback.
  cbn [and_then]. unfold write_authorized.
  cbn [finished initialized set_options set_awaiting_token set_writing set_writableState].
  rewrite Hf, Hi. cbn [negb]. unfold sendData, socket_send.
  match goal with |- context [socket_is_open ?x] =>
    change (socket_is_open x) with (socket_is_open s) end.
  rewrite Ho. cbn [and_then]. rewrite afterSend_drained.
  2:{ cbn. unfold socket_is_open in Ho. by destruct (socket s). }
  match goal with |- context [drained ?x] => change (drained x) with (drained s) end.
  destruct (drained s); cbn [land].
  - unfold run_tick. cbn [tick set_tick]. cbn [_writableState set_tick buffer set_sent
      set_emitted emit set_options set_awaiting_token set_writing set_writableState].
    rewrite Hb. cbn [onwrite]. unfold finishMaybe.
    cbn [_writableState set_buffer set_writableState ending set_tick set_sent set_emitted
           emit set_options set_awaiting_token set_writing]. rewrite He.
    cbn [andb land]. done.
  - rewrite run_tick_idle by exact Htk. done.
Qed.

End Token.

(** X14. With a token manager, a chunk waits for the token: nothing is
    sent when it is written; when the token arrives the chunk goes on the
    wire, and [options.headers] holds the authorization for that token
    beside the headers it had. *)
Theorem chunk_waits_for_token (fromHeader : chunk -> value) (s : stream) (c : chunk)
    (t k : string) :
  authorizing s ->
  let s1 := step fromHeader s (Write c) in
  let s2 := step fromHeader s1 (Token (TokenOk t)) in
  sent s1 = sent s
  ∧ awaiting_token s1 = Some c
  ∧ sent s2 = sent s ++ [Binary c]
  ∧ field (get (options s2) "headers") k =
      if String.eqb k "authorization" then VStr (String.append "Bearer " t)
      else field (get (options s) "headers") k.
Proof.
  intros Ha. cbv zeta. rewrite (step_write_authorizing fromHeader s c Ha).
  destruct (step_token_authorizing fromHeader s c t Ha) as (Hs & Hopt & _).
  split_and!; [done|done|exact Hs|].
  rewrite Hopt. unfold get at 1. rewrite lookup_insert_eq. cbn [default from_option id].
  apply field_with_authorization.
Qed.

Lemma chunk_waits_for_token_witness :
  let s := run riff_sniffer (new_stream token_options 16384)
             [Write wav_chunk; Token (TokenOk "t0"); SocketOpen] in
  let s1 := step riff_sniffer s (Write noise_chunk) in
  let s2 := step riff_sniffer s1 (Token (TokenOk "t1")) in
  sent s1 = sent s
  ∧ sent s2 = sent s ++ [Binary noise_chunk]
  ∧ field (get (options s2) "headers") "authorization" = VStr "Bearer t1".
Proof.
  intros s.
  assert (authorizing s) as Ha by (vm_compute; repeat split).
  destruct (chunk_waits_for_token riff_sniffer s noise_chunk "t1" "authorization" Ha)
    as (H1 & _ & H3 & H4).
  split; [exact H1|]. split; [exact H3|exact H4].
Defined.

Section TokenError.
Variable fromHeader : chunk -> value.


End TokenError.



(** ** Closing down *)

Section Shutdown.
Variable fromHeader : chunk -> value.

Lemma step_stop_accepting (s : stream) :
  accepting s ->
  step fromHeader s Stop
  = set_sent (sent s ++ [Text closingMessage])
      (emit (EvSendJSON closingMessage) (set_finished true (emit EvStop s))).
Proof.
  intros (Hi & Hf & Ho & Ht & Hw & He & Hb & Htk).
  unfold step. cbn [handle]. unfold stop. rewrite finish_unfold.
  change (finished (emit EvStop s)) with (finished s). rewrite Hf.
  change (socket_is_open (emit EvStop s)) with (socket_is_open s). rewrite Ho.
  cbn [land]. by rewrite run_tick_idle by exact Htk.
Qed.

Lemma step_listening_frame (s : stream) (data : value) :
  socket s ≠ None -> tick s = false ->
  is_nullish data = false -> truthy (field data "error") = false ->
  is_listening (field data "state") = true ->
  step fromHeader s (SocketMessage (FJson data))
  = if listening s
    then socket_close (set_listening false (emit (EvMessage (FJson data)) s))
    else emit EvListening (set_listening true (emit (EvMessage (FJson data)) s)).
Proof.
  intros Hk Htk Hn He Hl. unfold step. cbn [handle].
  destruct (socket s) as [ws|] eqn:E; [|done].
  unfold onmessage. rewrite !(prop_field data) by done. cbv zeta. rewrite He, Hl.
  change (listening (emit (EvMessage (FJson data)) s)) with (listening s).
  destruct (listening s); cbn [land].
  - rewrite run_tick_idle; [done|].
    unfold socket_close. cbn [socket set_listening emit set_emitted]. rewrite E.
    by destruct (readyState ws).
  - by rewrite run_tick_idle by exact Htk.
Qed.

End Shutdown.

(** X16. Closing down: on [stop()] a connected stream sends the stop
    message at once.  The 'listening' frame that answers it makes the
    stream close the socket if the stream was listening; if the service
    had not said 'listening' before, the frame is taken for the first
    one, 'listening' is emitted and the socket stays open.  When the
    socket closes, the output ends. *)
Theorem graceful_close (fromHeader : chunk -> value) (s : stream) (data : value)
    (code : Z) (reason : string) :
  accepting s ->
  is_nullish data = false -> truthy (field data "error") = false ->
  is_listening (field data "state") = true ->
  let s2 := run fromHeader s [Stop; SocketMessage (FJson data)] in
  let s3 := step fromHeader s2 (SocketClose code reason) in
  sent s3 = sent s ++ [Text closingMessage]
  ∧ (exists ws, socket s2 = Some ws
       ∧ readyState ws = if listening s then CLOSING else OPEN)
  ∧ emitted s2 = emitted s ++ [EvStop; EvSendJSON closingMessage; EvMessage (FJson data)]
                 ++ (if listening s then [] else [EvListening])
  ∧ emitted s3 = emitted s2 ++ [EvClose code reason]
  ∧ pushed s3 = pushed s ++ [VNull]
  ∧ listening s3 = false.
Proof.
  intros Ha Hn He Hl.
  pose proof (step_stop_accepting fromHeader s Ha) as E1.
  destruct Ha as (Hi & Hf & Ho & Ht & Hw & Hend & Hb & Htk).
  unfold socket_is_open in Ho. destruct (socket s) as [ws|] eqn:E; [|done].
  destruct (readyState ws) eqn:Er; try done.
  cbv zeta. cbn [run fold_left]. rewrite E1.
  rewrite (step_listening_frame fromHeader _ data);
    [|change (socket s ≠ None); by rewrite E|exact Htk|done..].
  match goal with |- context [listening ?x] =>
    change (listening x) with (listening s) end.
  match goal with |- context [emit (EvMessage ?f) ?x] =>
    set (s1 := emit (EvMessage f) x) end.
  assert (socket s1 = Some ws) as Ek by exact E.
  destruct (listening s).
  - assert (socket_close (set_listening false s1)
            = set_socket (Some {| readyState := CLOSING; bufferedAmount := bufferedAmount ws;
                                  ws_query := ws_query ws; ws_opening := ws_opening ws |})
                (set_listening false s1)) as ->.
    { unfold socket_close. change (socket (set_listening false s1)) with (socket s1).
      by rewrite Ek, Er. }
    rewrite step_socket_close; [|done|exact Htk].
    unfold set_readyState. cbn [socket set_socket]. subst s1.
    split_and!; [reflexivity| |fields; by rewrite <- !app_assoc|reflexivity..].
    eexists. split; reflexivity.
  - rewrite step_socket_close; [|change (socket s1 ≠ None); by rewrite Ek|exact Htk].
    unfold set_readyState.
    change (socket (emit EvListening (set_listening true s1))) with (socket s1).
    rewrite Ek. subst s1.
    split_and!; [reflexivity| |fields; by rewrite <- !app_assoc|reflexivity..].
    exists ws. by split.
Qed.

Lemma graceful_close_witness :
  let s1 := run riff_sniffer (new_stream wav_options 16384) [Write wav_chunk; SocketOpen] in
  let s := step riff_sniffer s1 (SocketMessage listening_frame) in
  let data := VObj [("state", VStr "listening")] in
  (sent (step riff_sniffer (run riff_sniffer s1 [Stop; SocketMessage (FJson data)])
           (SocketClose 1000 ""))
   = sent s1 ++ [Text closingMessage]
   ∧ exists ws, socket (run riff_sniffer s1 [Stop; SocketMessage (FJson data)]) = Some ws
       ∧ readyState ws = OPEN)
  ∧ (sent (step riff_sniffer (run riff_sniffer s [Stop; SocketMessage (FJson data)])
             (SocketClose 1000 ""))
     = sent s ++ [Text closingMessage]
     ∧ exists ws, socket (run riff_sniffer s [Stop; SocketMessage (FJson data)]) = Some ws
         ∧ readyState ws = CLOSING).
Proof.
  intros s1 s data. split.
  - assert (accepting s1) as Ha by (vm_compute; repeat split).
    assert (listening s1 = false) as El by (vm_compute; reflexivity).
    destruct (graceful_close riff_sniffer s1 data 1000 "" Ha eq_refl eq_refl eq_refl)
      as (H1 & H2 & _).
    rewrite El in H2. split; [exact H1|exact H2].
  - assert (accepting s) as Ha by (vm_compute; repeat split).
    assert (listening s = true) as El by (vm_compute; reflexivity).
    destruct (graceful_close riff_sniffer s data 1000 "" Ha eq_refl eq_refl eq_refl)
      as (H1 & H2 & _).
    rewrite El in H2. split; [exact H1|exact H2].
Defined.

(** ** The content type *)





(** ** The end of the input *)

Section EndOfInput.
Variable fromHeader : chunk -> value.

(** After [end()], the callback of the last chunk sent flushes the
    buffer and then lets 'finish' send the stop message. *)
Lemma onwrite_ending (waiting : list chunk) (s : stream) :
  can_finish s -> ending (_writableState s) = true -> drained s = true ->
  exists s', onwrite fromHeader waiting s = Normal s'
    ∧ sent s' = sent s ++ map Binary waiting ++ [Text closingMessage]
    ∧ finished s' = true
    ∧ buffer (_writableState s') = []
    ∧ writing (_writableState s') = false.
Proof.
  revert s. induction waiting as [|c rest IH]; intros s Hc He Hd; cbn [onwrite].
  - destruct Hc as (Hi & Hf & Ho & Ht & Hon & Hfe & Htk).
    unfold finishMaybe.
    cbn [_writableState set_buffer set_writing set_writableState ending writing
           finish_emitted buffer].
    rewrite He, Hfe. rewrite bool_decide_eq_true_2 by done. cbn [negb andb].
    cbv zeta. change (on_finish (set_finish_emitted true (set_buffer [] (set_writing false s))))
      with (on_finish s). rewrite Hon, finish_unfold.
    change (finished (set_finish_emitted true (set_buffer [] (set_writing false s))))
      with (finished s).
    change (socket_is_open (set_finish_emitted true (set_buffer [] (set_writing false s))))
      with (socket_is_open s).
    rewrite Hf, Ho. eexists. split; [reflexivity|]. by split_and!.
  - destruct Hc as (Hi & Hf & Ho & Ht & Hon & Hfe & Htk).
    unfold _write. cbn [options set_buffer set_writableState]. rewrite Ht.
    unfold write_authorized. cbn [finished initialized set_buffer set_writableState].
    rewrite Hf, Hi. cbn [negb].
    unfold sendData, socket_send.
    change (socket_is_open (emit _ (set_buffer rest s))) with (socket_is_open s).
    rewrite Ho. cbn [and_then].
    rewrite afterSend_drained.
    2:{ cbn. unfold socket_is_open in Ho. by destruct (socket s). }
    match goal with |- context [drained ?x] => change (drained x) with (drained s) end.
    rewrite Hd. cbn [tick set_tick].
    match goal with |- context [onwrite _ _ ?x] =>
      destruct (IH x) as (s' & Hr & Hs & Hfin & Hb & Hw) end.
    { by split_and!. }
    { exact He. }
    { exact Hd. }
    exists s'. rewrite Hr. split_and!; try done.
    rewrite Hs. cbn. by rewrite <- app_assoc.
Qed.

Lemma step_end_idle (s : stream) :
  can_finish s -> ending (_writableState s) = false ->
  writing (_writableState s) = false -> buffer (_writableState s) = [] ->
  let s' := step fromHeader s End in
  sent s' = sent s ++ [Text closingMessage] ∧ finished s' = true.
Proof.
  intros (Hi & Hf & Ho & Ht & Hon & Hfe & Htk) He Hw Hb.
  unfold step. cbn [handle]. unfold end_, finishMaybe.
  cbn [_writableState set_ending set_writableState ending writing finish_emitted buffer].
  rewrite Hw, Hfe, Hb. rewrite bool_decide_eq_true_2 by done. cbn [negb andb].
  cbv zeta. change (on_finish (set_finish_emitted true (set_ending true s)))
    with (on_finish s). rewrite Hon, finish_unfold.
  change (finished (set_finish_emitted true (set_ending true s))) with (finished s).
  change (socket_is_open (set_finish_emitted true (set_ending true s)))
    with (socket_is_open s).
  rewrite Hf, Ho. cbn [land]. rewrite run_tick_idle by exact Htk. done.
Qed.

Lemma step_end_in_flight (s : stream) :
  writing (_writableState s) = true -> tick s = false ->
  step fromHeader s End = set_ending true s.
Proof.
  intros Hw Htk. unfold step. cbn [handle]. unfold end_, finishMaybe.
  cbn [_writableState set_ending set_writableState ending writing].
  rewrite Hw. cbn [negb andb land]. by rewrite run_tick_idle by exact Htk.
Qed.

Lemma step_timeout_ending (s : stream) :
  can_finish s -> ending (_writableState s) = true -> timer s = true -> drained s = true ->
  let s' := step fromHeader s Timeout in
  sent s' = sent s ++ map Binary (buffer (_writableState s)) ++ [Text closingMessage]
  ∧ finished s' = true.
Proof.
  intros Hc He Htm Hd.
  unfold step. cbn [handle]. rewrite Htm, afterSend_drained.
  2:{ cbn. destruct Hc as (_ & _ & Ho & _). unfold socket_is_open in Ho.
      by destruct (socket s). }
  change (drained (set_timer false s)) with (drained s). rewrite Hd. cbn [land].
  unfold run_tick. cbn [tick set_tick].
  match goal with |- context [onwrite _ ?q ?x] =>
    destruct (onwrite_ending q x) as (s' & Hr & Hs & Hf & _) end.
  { destruct Hc as (? & ? & ? & ? & ? & ? & ?). by split_and!. }
  { exact He. }
  { exact Hd. }
  cbv zeta. rewrite Hr. cbn [land]. by split.
Qed.

End EndOfInput.

(** X18. When the input ends, the stop message follows the last chunk.
    If nothing is in flight, [end()] sends it at once.  If a chunk is in
    flight, [end()] sends nothing; once the socket has drained, the
    chunks that were waiting are sent in order, and then the stop
    message. *)
Theorem end_sends_stop_last (fromHeader : chunk -> value) (s : stream) :
  can_finish s -> ending (_writableState s) = false ->
  if writing (_writableState s)
  then timer s = true -> drained s = true ->
       let s1 := step fromHeader s End in
       let s2 := step fromHeader s1 Timeout in
       sent s1 = sent s ∧ finished s1 = false
       ∧ sent s2 = sent s ++ map Binary (buffer (_writableState s)) ++ [Text closingMessage]
       ∧ finished s2 = true
  else buffer (_writableState s) = [] ->
       let s1 := step fromHeader s End in
       sent s1 = sent s ++ [Text closingMessage] ∧ finished s1 = true.
Proof.
  intros Hc He. destruct (writing (_writableState s)) eqn:Hw.
  - intros Htm Hd. cbv zeta.
    assert (tick s = false) as Htk by (by destruct Hc as (_&_&_&_&_&_&?)).
    rewrite (step_end_in_flight fromHeader s Hw Htk).
    destruct (step_timeout_ending fromHeader (set_ending true s)) as [Hs Hf];
      [exact Hc|reflexivity|exact Htm|exact Hd|].
    destruct Hc as (_ & Hfin & _). split_and!; [reflexivity|exact Hfin|exact Hs|exact Hf].
  - intros Hb. by apply step_end_idle.
Qed.

Lemma end_sends_stop_last_witness :
  (let s := run riff_sniffer (new_stream wav_options 10)
              [Write wav_chunk; SocketOpen; Buffered 11; Write noise_chunk;
               Write wav_chunk; Buffered 10] in
   let s1 := step riff_sniffer s End in
   let s2 := step riff_sniffer s1 Timeout in
   sent s1 = sent s
   ∧ sent s2 = sent s ++ map Binary (buffer (_writableState s)) ++ [Text closingMessage])
  ∧ (let s := run riff_sniffer (new_stream wav_options 16384) [Write wav_chunk; SocketOpen] in
     sent (step riff_sniffer s End) = sent s ++ [Text closingMessage]).
Proof.
  split.
  - intros s.
    assert (can_finish s) as Hc by (vm_compute; repeat split).
    assert (ending (_writableState s) = false) as He by (vm_compute; reflexivity).
    assert (writing (_writableState s) = true) as Hw by (vm_compute; reflexivity).
    assert (timer s = true) as Htm by (vm_compute; reflexivity).
    assert (drained s = true) as Hd by (vm_compute; reflexivity).
    pose proof (end_sends_stop_last riff_sniffer s Hc He) as H.
    rewrite Hw in H. destruct (H Htm Hd) as (H1 & _ & H3 & _).
    split; [exact H1|exact H3].
  - intros s.
    assert (can_finish s) as Hc by (vm_compute; repeat split).
    assert (ending (_writableState s) = false) as He by (vm_compute; reflexivity).
    assert (writing (_writableState s) = false) as Hw by (vm_compute; reflexivity).
    assert (buffer (_writableState s) = []) as Hb by (vm_compute; reflexivity).
    pose proof (end_sends_stop_last riff_sniffer s Hc He) as H.
    rewrite Hw in H. exact (proj1 (H Hb)).
Defined.

(** ** Chunks written before the socket opens *)

Section BeforeOpen.
Variable fromHeader : chunk -> value.



End BeforeOpen.



(** ** The options that the class writes *)

Lemma not_written_options (k : string) :
  k ∉ written_options ->
  k ≠ "watson-token" ∧ k ≠ "content-type" ∧ k ≠ "X-Watson-Learning-Opt-Out"
  ∧ k ≠ "language_customization_id" ∧ k ≠ "customization_id" ∧ k ≠ "headers".
Proof.
  intros H. split_and!; intros ->; apply H; unfold written_options;
    repeat (apply elem_of_cons; (by left) || right).
Qed.

Lemma options_action (k : string) (s s' : stream) :
  k ∉ written_options -> action s s' -> options s' !! k = options s !! k.
Proof.
  intros (H1 & H2 & H3 & H4 & H5 & H6)%not_written_options Ha.
  destruct Ha as [s' Hc| | | | | ws E|c _ _|Hfin|k' v Hk'|c s' _ _ Ein|s' _ Ein].
  - by destruct Hc as (-> & _).
  - done.
  - done.
  - done.
  - done.
  - destruct (onopen_opened s ws E)
      as (s1 & ws1 & -> & _ & _ & _ & _ & _ & _ & _ & Eo & _).
    cbn [state_of]. by rewrite Eo.
  - destruct (socket_is_open s) eqn:Ho.
    + by rewrite transmit_open.
    + by rewrite transmit_closed.
  - rewrite finish_unfold, Hfin. by destruct (socket_is_open s).
  - cbn [options set_options]. apply lookup_insert_ne. by destruct Hk' as [->| ->].
  - apply initialize_Normal in Ein as [_ ->]. fields.
    rewrite lookup_normalize_options. by repeat (rewrite bool_decide_eq_false_2 by done).
  - apply initialize_Threw in Ein as [_ ->]. fields.
    rewrite lookup_normalize_options. by repeat (rewrite bool_decide_eq_false_2 by done).
Qed.

(** X20. The class writes to the caller's options object only under
    [objectMode] and [readableObjectMode] (the constructor) and under
    [watson-token], [content-type], [X-Watson-Learning-Opt-Out],
    [language_customization_id], [customization_id] and [headers]: every
    other property is, after any run, what it was. *)
Theorem options_written_only_there (fromHeader : chunk -> value) (s : stream)
    (opts : gmap string value) (hwm : N) (evs : list event) (k : string) :
  k ∉ written_options ->
  options (run fromHeader s evs) !! k = options s !! k
  ∧ (k ≠ "objectMode" -> k ≠ "readableObjectMode" ->
     options (run fromHeader (new_stream opts hwm) evs) !! k = opts !! k).
Proof.
  intros Hk.
  assert (forall s0, options (run fromHeader s0 evs) !! k = options s0 !! k) as Hrun.
  { intros s0. apply (run_actions fromHeader (fun x => options x !! k = options s0 !! k)).
    - intros x y Ha Hx. by rewrite (options_action k x y Hk Ha).
    - done. }
  split; [apply Hrun|]. intros Ho Hr. rewrite Hrun.
  cbn [options new_stream]. destruct (truthy _); [|done].
  by rewrite lookup_delete_ne, lookup_insert_ne.
Qed.

Lemma options_written_only_there_witness :
  let opts : gmap string value :=
    {[ "model" := VStr "en-US_NarrowbandModel"; "content_type" := VStr "audio/wav";
       "customization_id" := VStr "c1" ]} in
  let s := run riff_sniffer (new_stream opts 16384) [Write wav_chunk; SocketOpen; Stop] in
  options s !! "model" = opts !! "model"
  ∧ options s !! "customization_id" = None.
Proof.
  intros opts s. split.
  - assert ("model" ∉ written_options) as Hk.
    { intros H. unfold written_options in H.
      repeat (apply elem_of_cons in H as [H|H]; [discriminate H|]).
      by apply not_elem_of_nil in H. }
    destruct (options_written_only_there riff_sniffer s opts 16384
                [Write wav_chunk; SocketOpen; Stop] "model" Hk) as [_ H].
    apply H; discriminate.
  - vm_compute. reflexivity.
Defined.
